(** * The categorical distribution of statrs (src/distribution/categorical.rs)

    Rust's [f64] is modelled by Rocq's primitive binary64 numbers
    ([PrimFloat.float]): [+], [*], [/] and the comparisons are the IEEE-754
    round-to-nearest-even operations of the machine, and they compute.
    Reasoning about them goes through [SpecFloat], the executable
    specification that the Standard Library's [FloatAxioms] relate them to. *)

From Stdlib Require Import ZArith List Bool Lia Floats Uint63 Reals Lra.
Import ListNotations.

(* ------------------------------------------------------------------ *)
(** ** Rust scalars and containers *)

Local Abbreviation prec := FloatOps.prec.
Local Abbreviation emax := FloatOps.emax.
Local Abbreviation fexp := (SpecFloat.fexp prec emax).
Local Abbreviation emin := (SpecFloat.emin prec emax).

(** [v as f64] for [v : usize]: the integer rounded to the nearest binary64
    number, ties to even. *)
Definition usize_as_f64 (n : nat) : float :=
  SF2Prim (binary_normalize prec emax (Z.of_nat n) 0 false).

Definition usize_max : Z := (2 ^ 64 - 1)%Z.

(** [x as usize] for [x : f64]: truncation toward zero, saturating at the
    bounds of [usize], [NaN] mapped to [0]. *)
Definition f64_as_usize (x : float) : nat :=
  match Prim2SF x with
  | S754_finite false m e => Z.to_nat (Z.min (Z.shiftl (Zpos m) e) usize_max)
  | S754_infinity false => Z.to_nat usize_max
  | _ => 0%nat
  end.

(** [*v.get_unchecked_mut(i) = x]: the source only writes below the length. *)
Fixpoint set_nth (l : list float) (i : nat) (x : float) : list float :=
  match l, i with
  | [], _ => []
  | _ :: t, O => x :: t
  | h :: t, S i' => h :: set_nth t i' x
  end.

(** Results of the operations that may abort: [Panic] is a failed
    [assert!]; [UB] is a [get_unchecked] read past the end of a slice. *)
Inductive Outcome (A : Type) : Type :=
| Ret (a : A)
| Panic
| UB.
Arguments Ret {A} a.
Arguments Panic {A}.
Arguments UB {A}.

Inductive StatsError : Type :=
| BadParams.

(** [statrs::Result<T> = Result<T, StatsError>] *)
Inductive Result (A : Type) : Type :=
| Ok (a : A)
| Err (e : StatsError).
Arguments Ok {A} a.
Arguments Err {A} e.

(* ------------------------------------------------------------------ *)
(** ** [struct Categorical] and [Categorical::new] *)

Record Categorical : Type := mkCategorical {
  norm_pmf : list float;
  cdf : list float
}.

(** [fn is_valid_prob_mass(p: &[f64]) -> bool] *)
Definition is_valid_prob_mass (p : list float) : bool :=
  negb (existsb (fun x => (x <? 0)%float || is_nan x) p)
  && negb (forallb (fun x => (x =? 0)%float) p).

(** One iteration of [for i in 1..prob_mass.len()]:
    [cdf[i] = cdf[i - 1] + prob_mass[i]]. *)
Definition cdf_step (prob_mass : list float) (cdf : list float) (i : nat) : list float :=
  set_nth cdf i (nth (i - 1) cdf 0 + nth i prob_mass 0)%float.

(** One iteration of [for i in 0..prob_mass.len()]:
    [norm_pmf[i] = prob_mass[i] / sum]. *)
Definition norm_step (prob_mass : list float) (sum : float) (norm_pmf : list float) (i : nat)
  : list float :=
  set_nth norm_pmf i (nth i prob_mass 0 / sum)%float.

(** [Categorical::new(prob_mass: &[f64]) -> Result<Categorical>] *)
Definition new (prob_mass : list float) : Result Categorical :=
  if negb (is_valid_prob_mass prob_mass) then Err BadParams
  else
    let n := length prob_mass in
    (* let mut cdf = vec![0.0; n]; cdf[0] = prob_mass[0]; *)
    let cdf0 := set_nth (repeat 0%float n) 0 (nth 0 prob_mass 0%float) in
    let cdf := fold_left (cdf_step prob_mass) (seq 1 (n - 1)) cdf0 in
    let sum := nth (length cdf - 1) cdf 0%float in
    let norm_pmf := fold_left (norm_step prob_mass sum) (seq 0 n) (repeat 0%float n) in
    Ok (mkCategorical norm_pmf cdf).

(** [fn cdf_max(&self) -> f64]: the last element of [cdf]. *)
Definition cdf_max (d : Categorical) : float :=
  nth (length (cdf d) - 1) (cdf d) 0%float.

(* ------------------------------------------------------------------ *)
(** ** Sampling *)

(** The [Rng] trait, as far as [sample] uses it: one uniform draw in
    [[0, 1)] and the generator's next state. *)
Class Rng (R : Type) := next_f64 : R -> float * R.

(** [while *el == 0.0 { idx += 1; el = cdf.get_unchecked(idx) }], walking
    the slice [rest = cdf[idx..]]. *)
Fixpoint skip_zero_probs (rest : list float) (idx : nat) : Outcome nat :=
  match rest with
  | [] => UB
  | el :: rest' => if (el =? 0)%float then skip_zero_probs rest' (S idx) else Ret idx
  end.

(** [while draw > *el { idx += 1; el = cdf.get_unchecked(idx) }] *)
Fixpoint search_cdf (draw : float) (rest : list float) (idx : nat) : Outcome nat :=
  match rest with
  | [] => UB
  | el :: rest' => if (el <? draw)%float then search_cdf draw rest' (S idx) else Ret idx
  end.

(** The body of [Distribution::sample] once [r.next_f64()] returned [u]. *)
Definition sample_index (d : Categorical) (u : float) : Outcome nat :=
  let draw := (u * cdf_max d)%float in
  let start := if (draw =? 0)%float then skip_zero_probs (cdf d) 0 else Ret 0%nat in
  match start with
  | Ret idx => search_cdf draw (skipn idx (cdf d)) idx
  | Panic => Panic
  | UB => UB
  end.

Definition outcome_map {A B : Type} (f : A -> B) (o : Outcome A) : Outcome B :=
  match o with
  | Ret a => Ret (f a)
  | Panic => Panic
  | UB => UB
  end.

(** [impl Distribution<f64> for Categorical: fn sample(&self, r)] *)
Definition Distribution_sample {R : Type} `{Rng R} (d : Categorical) (r : R)
  : Outcome float * R :=
  let (u, r') := next_f64 r in
  (outcome_map usize_as_f64 (sample_index d u), r').

(* ------------------------------------------------------------------ *)
(** ** Queries *)

(** [Univariate::cdf(&self, x: f64) -> f64] *)
Definition cdf_at (d : Categorical) (x : float) : Outcome float :=
  let k := usize_as_f64 (length (cdf d)) in
  if negb ((0 <=? x)%float && (x <=? k)%float) then Panic
  else if (x =? k)%float then Ret 1%float
  else match nth_error (cdf d) (f64_as_usize x) with
       | Some c => Ret (c / cdf_max d)%float
       | None => UB
       end.

(** [Min::min] *)
Definition min (d : Categorical) : Z := 0%Z.

(** [Max::max]: [self.cdf.len() as u64 - 1] *)
Definition max (d : Categorical) : Z := (Z.of_nat (length (cdf d)) - 1)%Z.

(** [Mean::mean]:
    [self.norm_pmf.iter().enumerate().fold(0.0, |acc, (idx, &val)| acc + idx as f64 * val)] *)
Definition mean (d : Categorical) : float :=
  fold_left (fun acc (p : nat * float) => let (idx, val) := p in (acc + usize_as_f64 idx * val)%float)
    (combine (seq 0 (length (norm_pmf d))) (norm_pmf d)) 0%float.

(** The spec's left-to-right sum [weights[0] + ... + weights[i]] of a
    non-empty list. *)
Definition left_sum (xs : list float) : float :=
  match xs with
  | [] => 0%float
  | x :: r => fold_left (fun a y => (a + y)%float) r x
  end.

(** The cumulative array the spec describes: entry [i] is
    [weights[0] + ... + weights[i]]. *)
Definition prefix_sum (w : list float) (i : nat) : float := left_sum (firstn (S i) w).

(** The spec's [sum over i of i * normalizedMass[i]], accumulated from
    index [0] upward. *)
Definition mean_by_index (d : Categorical) : float :=
  fold_left (fun acc i => (acc + usize_as_f64 i * nth i (norm_pmf d) 0)%float)
    (seq 0 (length (norm_pmf d))) 0%float.

(* ------------------------------------------------------------------ *)
(** ** The methods as they run in memory

    A method runs in a memory made of the receiver [*self] and the local
    variables of its body. [Sample::sample] holds the receiver as
    [&mut self] and hands it on to [Distribution::sample]. Every statement
    of the bodies below is a step of a state monad on this memory, which
    ends in a value and the memory after it, in a panic, or in undefined
    behaviour. *)

Record Mem : Type := mkMem {
  m_self : Categorical;  (* the receiver *self *)
  m_draw : float;        (* let draw *)
  m_idx : nat;           (* let mut idx *)
  m_el : float;          (* *el, for let mut el: &f64 *)
  m_acc : float          (* the accumulator of the fold in mean *)
}.

Definition ST (A : Type) : Type := Mem -> Outcome (A * Mem).

Definition st_ret {A : Type} (a : A) : ST A := fun m => Ret (a, m).

Definition st_bind {A B : Type} (c : ST A) (k : A -> ST B) : ST B :=
  fun m => match c m with
           | Ret (a, m') => k a m'
           | Panic => Panic
           | UB => UB
           end.

Definition st_panic {A : Type} : ST A := fun _ => Panic.

Definition st_ub {A : Type} : ST A := fun _ => UB.

Local Notation "x <- c ;; k" := (st_bind c (fun x => k))
  (at level 61, c at next level, right associativity).

(** The value a method returns, with its final memory dropped. *)
Definition run {A : Type} (c : ST A) (m : Mem) : Outcome A :=
  outcome_map fst (c m).

(** Reads of the receiver's fields: [self.cdf.len()],
    [self.cdf.get_unchecked(i)], [self.norm_pmf.len()] and the [i]-th item
    of [self.norm_pmf.iter()]. *)
Definition cdf_len : ST nat := fun m => Ret (length (cdf (m_self m)), m).

Definition cdf_get_unchecked (i : nat) : ST float :=
  fun m => match nth_error (cdf (m_self m)) i with
           | Some x => Ret (x, m)
           | None => UB
           end.

Definition norm_pmf_len : ST nat := fun m => Ret (length (norm_pmf (m_self m)), m).

(** The iterator only yields indices below the length; [UB] is not reached. *)
Definition norm_pmf_item (i : nat) : ST float :=
  fun m => match nth_error (norm_pmf (m_self m)) i with
           | Some x => Ret (x, m)
           | None => UB
           end.

(** Reads and writes of the local variables. *)
Definition get_draw : ST float := fun m => Ret (m_draw m, m).
Definition get_idx : ST nat := fun m => Ret (m_idx m, m).
Definition get_el : ST float := fun m => Ret (m_el m, m).
Definition get_acc : ST float := fun m => Ret (m_acc m, m).

Definition set_draw (x : float) : ST unit :=
  fun m => Ret (tt, mkMem (m_self m) x (m_idx m) (m_el m) (m_acc m)).
Definition set_idx (i : nat) : ST unit :=
  fun m => Ret (tt, mkMem (m_self m) (m_draw m) i (m_el m) (m_acc m)).
Definition set_el (x : float) : ST unit :=
  fun m => Ret (tt, mkMem (m_self m) (m_draw m) (m_idx m) x (m_acc m)).
Definition set_acc (x : float) : ST unit :=
  fun m => Ret (tt, mkMem (m_self m) (m_draw m) (m_idx m) (m_el m) x).

(** [fn cdf_max(&self)]: [*self.cdf.get_unchecked(self.cdf.len() - 1)]. *)
Definition cdf_max_st : ST float :=
  n <- cdf_len ;; cdf_get_unchecked (n - 1).

(** [while *el == 0.0 { idx += 1; el = self.cdf.get_unchecked(idx) }], for
    at most [fuel] iterations. Each iteration reads one index further, so
    from [idx < len] a read past the end ([UB]) comes within [len - idx]
    iterations; [sample] gives [len + 1], and the fuel never runs out. *)
Fixpoint skip_zero_loop (fuel : nat) : ST unit :=
  match fuel with
  | O => st_ub
  | S f =>
      el <- get_el ;;
      if (el =? 0)%float then
        idx <- get_idx ;;
        _ <- set_idx (S idx) ;;
        el' <- cdf_get_unchecked (S idx) ;;
        _ <- set_el el' ;;
        skip_zero_loop f
      else st_ret tt
  end.

(** [while draw > *el { idx += 1; el = self.cdf.get_unchecked(idx) }] *)
Fixpoint search_loop (fuel : nat) : ST unit :=
  match fuel with
  | O => st_ub
  | S f =>
      draw <- get_draw ;;
      el <- get_el ;;
      if (el <? draw)%float then
        idx <- get_idx ;;
        _ <- set_idx (S idx) ;;
        el' <- cdf_get_unchecked (S idx) ;;
        _ <- set_el el' ;;
        search_loop f
      else st_ret tt
  end.

(** [impl Distribution<f64> for Categorical: fn sample(&self, r)]; the
    generator's next state comes with the sample. *)
Definition Distribution_sample_st {R : Type} `{Rng R} (r : R) : ST (float * R) :=
  let (u, r') := next_f64 r in
  s <- cdf_max_st ;;
  _ <- set_draw (u * s)%float ;;
  _ <- set_idx 0 ;;
  n <- cdf_len ;;
  draw <- get_draw ;;
  _ <- (if (draw =? 0)%float then
          idx <- get_idx ;;
          el <- cdf_get_unchecked idx ;;
          _ <- set_el el ;;
          skip_zero_loop (S n)
        else st_ret tt) ;;
  idx <- get_idx ;;
  el <- cdf_get_unchecked idx ;;
  _ <- set_el el ;;
  _ <- search_loop (S n) ;;
  idx <- get_idx ;;
  st_ret (usize_as_f64 idx, r').

(** [impl Sample<f64> for Categorical: fn sample(&mut self, r)]:
    [super::Distribution::sample(self, r)] on the same receiver. *)
Definition Sample_sample_st {R : Type} `{Rng R} (r : R) : ST (float * R) :=
  Distribution_sample_st r.

(** [impl IndependentSample<f64> for Categorical: fn ind_sample(&self, r)] *)
Definition IndependentSample_ind_sample_st {R : Type} `{Rng R} (r : R) : ST (float * R) :=
  Distribution_sample_st r.

(** [Univariate::cdf(&self, x)] *)
Definition cdf_st (x : float) : ST float :=
  n <- cdf_len ;;
  if negb ((0 <=? x)%float && (x <=? usize_as_f64 n)%float) then st_panic
  else if (x =? usize_as_f64 n)%float then st_ret 1%float
  else c <- cdf_get_unchecked (f64_as_usize x) ;;
       s <- cdf_max_st ;;
       st_ret (c / s)%float.

(** [Min::min] *)
Definition min_st : ST Z := st_ret 0%Z.

(** [Max::max]: [self.cdf.len() as u64 - 1] *)
Definition max_st : ST Z := n <- cdf_len ;; st_ret (Z.of_nat n - 1)%Z.

(** The closure [|acc, (idx, &val)| acc + idx as f64 * val] applied to the
    items [idxs] of [self.norm_pmf.iter().enumerate()]. *)
Fixpoint mean_fold (idxs : list nat) : ST unit :=
  match idxs with
  | [] => st_ret tt
  | idx :: idxs' =>
      val <- norm_pmf_item idx ;;
      acc <- get_acc ;;
      _ <- set_acc (acc + usize_as_f64 idx * val)%float ;;
      mean_fold idxs'
  end.

(** [Mean::mean] *)
Definition mean_st : ST float :=
  _ <- set_acc 0%float ;;
  n <- norm_pmf_len ;;
  _ <- mean_fold (seq 0 n) ;;
  get_acc.

(** A run of [c] that returns leaves the two fields of the receiver as
    they were. *)
Definition leaves_fields {A : Type} (c : ST A) : Prop :=
  forall m a m', c m = Ret (a, m') ->
    norm_pmf (m_self m') = norm_pmf (m_self m) /\ cdf (m_self m') = cdf (m_self m).

(* ------------------------------------------------------------------ *)
(** ** The value of a binary64 number *)

(** [2^e] as a real number. *)
Definition bpow (e : Z) : R := powerRZ 2 e.

(** The real number a [SpecFloat] number stands for; infinities and NaN
    are given the value [0] and are always treated apart. *)
Definition SF_val (x : spec_float) : R :=
  match x with
  | S754_finite s m e => (IZR (cond_Zopp s (Zpos m)) * bpow e)%R
  | _ => 0%R
  end.

Definition f64_value (x : float) : R := SF_val (Prim2SF x).

(** [rec_sem r e z]: the real [z] lies where the rounding record [r] of
    [SpecFloat] (integer part [shr_m r], round bit [shr_r r], sticky bit
    [shr_s r]) places it, in units of [2^e]. *)
Definition rec_sem (r : shr_record) (e : Z) (z : R) : Prop :=
  let m := IZR (shr_m r) in
  match shr_r r, shr_s r with
  | false, false => z = (m * bpow e)%R
  | false, true => (m * bpow e < z < (m + /2) * bpow e)%R
  | true, false => z = ((m + /2) * bpow e)%R
  | true, true => ((m + /2) * bpow e < z < (m + 1) * bpow e)%R
  end.

(** The reals that binary64 numbers (of any exponent, without the bound on
    the exponent from above) stand for: [0] and the canonical [m * 2^e]. *)
Definition fmt (g : R) : Prop :=
  g = 0%R \/
  exists (mg : positive) (eg : Z),
    fexp (Zdigits2 (Zpos mg) + eg) = eg /\ g = (IZR (Zpos mg) * bpow eg)%R.

(** Non-negative binary64 numbers: the zeros and the positive finite ones. *)
Definition nonneg_sf (x : spec_float) : Prop :=
  match x with
  | S754_zero _ => True
  | S754_finite false m e => fexp (Zdigits2 (Zpos m) + e) = e /\ (e <= emax - prec)%Z
  | _ => False
  end.

(** [rnd z r]: [r] is [z] rounded to nearest, or [+inf] when [z] is above
    every finite binary64 number. *)
Definition rnd (z : R) (r : spec_float) : Prop :=
  (r = S754_infinity false /\ forall g, nonneg_sf g -> (SF_val g < z)%R) \/
  (nonneg_sf r /\ forall g, fmt g -> (Rabs (SF_val r - z) <= Rabs (g - z))%R).

(** ** Scaling by a power of two *)

(** [x * 2^k] on [SpecFloat] numbers, written on the exponent. *)
Definition shift_sf (k : Z) (x : spec_float) : spec_float :=
  match x with
  | S754_finite s m e => S754_finite s m (e + k)
  | _ => x
  end.

(** [x] is zero, or it and [x * 2^k] are both normal (at least [2^-1022]). *)
Definition in_range (k : Z) (x : spec_float) : Prop :=
  SF_val x = 0%R \/ (bpow (-1022) <= SF_val x /\ bpow (-1022) <= bpow k * SF_val x)%R.

(** Binary64 numbers without a minus sign other than that of [-0.0]: the
    zeros, the positive finite numbers, [+inf] and NaN. *)
Definition no_neg (x : spec_float) : Prop :=
  nonneg_sf x \/ x = S754_infinity false \/ x = S754_nan.

(** The values of a running sum that starts at [+0.0]: [+0.0], a positive
    finite number, [+inf] or NaN, never [-0.0]. *)
Definition acc_sign (x : spec_float) : Prop :=
  x = S754_zero false \/ (exists m e, x = S754_finite false m e) \/
  x = S754_infinity false \/ x = S754_nan.

(* ------------------------------------------------------------------ *)
(** ** The loops of [Categorical::new] *)

Section Loops.

Lemma set_nth_length (l : list float) (i : nat) (x : float) :
  length (set_nth l i x) = length l.
Proof.
  revert i; induction l as [|h t IH]; intros [|i]; simpl; auto.
Qed.

Lemma set_nth_app_cons (p r : list float) (y x : float) (i : nat) :
  length p = i -> set_nth (p ++ y :: r) i x = p ++ x :: r.
Proof.
  intros <-; induction p as [|h t IH]; simpl; [reflexivity | now rewrite IH].
Qed.

Lemma map_seq_S (h : nat -> float) (a : nat) :
  map h (seq 0 (S a)) = map h (seq 0 a) ++ [h a].
Proof.
  now rewrite seq_S, map_app.
Qed.

(** A loop [for i in a..a+m { v[i] = g(v, i) }] over a vector whose first
    [a] cells already hold [h 0 .. h (a-1)] fills the next [m] cells with
    [h a .. h (a+m-1)], provided each step computes [h i]. *)
Lemma fill_loop (g : list float -> nat -> float) (h : nat -> float) (z : float)
    (a m r : nat) :
  (forall i, a <= i < a + m ->
     g (map h (seq 0 i) ++ repeat z (a + m + r - i)) i = h i) ->
  fold_left (fun l i => set_nth l i (g l i)) (seq a m)
    (map h (seq 0 a) ++ repeat z (m + r))
  = map h (seq 0 (a + m)) ++ repeat z r.
Proof.
  revert a; induction m as [|m IH]; intros a Hg.
  - now rewrite Nat.add_0_r.
  - simpl.
    rewrite set_nth_app_cons by (now rewrite length_map, length_seq).
    pose proof (Hg a ltac:(lia)) as Ha.
    replace (a + S m + r - a) with (S (m + r)) in Ha by lia.
    simpl in Ha; rewrite Ha.
    replace (map h (seq 0 a) ++ h a :: repeat z (m + r))
      with (map h (seq 0 (S a)) ++ repeat z (m + r))
      by (rewrite map_seq_S, <- app_assoc; reflexivity).
    rewrite IH.
    + now replace (S a + m) with (a + S m) by lia.
    + intros i Hi. replace (S a + m + r) with (a + S m + r) by lia. apply Hg; lia.
Qed.

Lemma nth_map_seq_app (h : nat -> float) (z d : float) (i j n : nat) :
  j < i -> nth j (map h (seq 0 i) ++ repeat z n) d = h j.
Proof.
  intros Hj.
  rewrite app_nth1 by (now rewrite length_map, length_seq).
  rewrite nth_indep with (d' := h 0%nat) by (now rewrite length_map, length_seq).
  now rewrite map_nth, seq_nth.
Qed.

Lemma nth_map_seq (h : nat -> float) (d : float) (i n : nat) :
  i < n -> nth i (map h (seq 0 n)) d = h i.
Proof.
  intros Hi; rewrite <- (app_nil_r (map h (seq 0 n))).
  change (@nil float) with (repeat d 0); now apply nth_map_seq_app.
Qed.

End Loops.

Section New.

Lemma firstn_S_snoc (l : list float) (n : nat) (d : float) :
  n < length l -> firstn (S n) l = firstn n l ++ [nth n l d].
Proof.
  revert n; induction l as [|x r IH]; intros n Hn; simpl in Hn; [lia|].
  destruct n as [|n]; [reflexivity|].
  change (x :: firstn (S n) r = x :: firstn n r ++ [nth n r d]).
  rewrite (IH n) by lia; reflexivity.
Qed.

Lemma prefix_sum_S (w : list float) (i : nat) :
  S i < length w -> prefix_sum w (S i) = (prefix_sum w i + nth (S i) w 0)%float.
Proof.
  intros Hi; unfold prefix_sum.
  destruct w as [|x r]; simpl in Hi; [lia|].
  change (firstn (S (S i)) (x :: r)) with (x :: firstn (S i) r).
  change (firstn (S i) (x :: r)) with (x :: firstn i r).
  rewrite (firstn_S_snoc r i 0%float) by lia.
  simpl; now rewrite fold_left_app.
Qed.

Lemma prefix_sum_last (w : list float) :
  w <> [] -> prefix_sum w (length w - 1) = left_sum w.
Proof.
  intros Hw; unfold prefix_sum.
  destruct w as [|x r]; [congruence|].
  now rewrite firstn_all2 by (simpl; lia).
Qed.

Lemma is_valid_nonempty (w : list float) : is_valid_prob_mass w = true -> w <> [].
Proof. intros Hv ->; discriminate. Qed.

(** What [Categorical::new] builds, read off its two loops. *)
Lemma new_ok_shape (w : list float) (d : Categorical) :
  new w = Ok d ->
  is_valid_prob_mass w = true /\
  cdf d = map (prefix_sum w) (seq 0 (length w)) /\
  norm_pmf d = map (fun i => (nth i w 0 / left_sum w)%float) (seq 0 (length w)).
Proof.
  unfold new; intros H.
  destruct (is_valid_prob_mass w) eqn:Hv; simpl in H; [|discriminate].
  injection H as <-.
  pose proof (is_valid_nonempty w Hv) as Hne.
  set (n := length w).
  assert (Hn : 1 <= n) by (destruct w; [congruence | unfold n; simpl; lia]).
  assert (Hcdf0 : set_nth (repeat 0%float n) 0 (nth 0 w 0%float)
                  = map (prefix_sum w) (seq 0 1) ++ repeat 0%float (n - 1 + 0)).
  { destruct w as [|x r]; [congruence|]. unfold n; simpl.
    now rewrite Nat.sub_0_r, Nat.add_0_r. }
  assert (Hcdf : fold_left (cdf_step w) (seq 1 (n - 1))
                   (set_nth (repeat 0%float n) 0 (nth 0 w 0%float))
                 = map (prefix_sum w) (seq 0 n)).
  { rewrite Hcdf0. unfold cdf_step.
    rewrite (fill_loop (fun l i => (nth (i - 1) l 0 + nth i w 0)%float)).
    - rewrite app_nil_r; f_equal; f_equal; lia.
    - intros i Hi.
      rewrite nth_map_seq_app by lia.
      destruct i as [|i]; [lia|].
      rewrite Nat.sub_succ, Nat.sub_0_r.
      symmetry; apply prefix_sum_S; unfold n in Hi; lia. }
  rewrite Hcdf; simpl.
  split; [reflexivity|]. split; [reflexivity|].
  rewrite length_map, length_seq.
  rewrite nth_indep with (d' := prefix_sum w 0) by (rewrite length_map, length_seq; lia).
  rewrite map_nth, seq_nth by lia; simpl.
  fold n; rewrite prefix_sum_last by assumption.
  unfold norm_step.
  replace (repeat 0%float n) with (map (fun i => (nth i w 0 / left_sum w)%float) (seq 0 0)
                                   ++ repeat 0%float (n + 0))
    by (simpl; now rewrite Nat.add_0_r).
  rewrite (fill_loop (fun _ i => (nth i w 0 / left_sum w)%float)) by reflexivity.
  now rewrite app_nil_r.
Qed.

End New.

(* ------------------------------------------------------------------ *)
(** ** Powers of two and binary digits *)

Section Bpow.

Lemma bpow_pos (e : Z) : (0 < bpow e)%R.
Proof. unfold bpow; apply powerRZ_lt; lra. Qed.

Lemma bpow_plus (a b : Z) : bpow (a + b) = (bpow a * bpow b)%R.
Proof. unfold bpow; apply powerRZ_add; lra. Qed.

Lemma bpow_0 : bpow 0 = 1%R.
Proof. reflexivity. Qed.

Lemma bpow_1 : bpow 1 = 2%R.
Proof. unfold bpow; simpl; ring. Qed.

Lemma bpow_IZR (e : Z) : (0 <= e)%Z -> bpow e = IZR (2 ^ e).
Proof.
  intros He; destruct e as [|p|p]; [reflexivity| |lia].
  unfold bpow; now rewrite <- Zpower_pos_powerRZ.
Qed.

Lemma bpow_le (a b : Z) : (a <= b)%Z -> (bpow a <= bpow b)%R.
Proof.
  intros Hab; replace b with (a + (b - a))%Z by lia.
  rewrite bpow_plus, (bpow_IZR (b - a)) by lia.
  assert (H1 : (1 <= 2 ^ (b - a))%Z) by (apply (Z.pow_le_mono_r 2 0); lia).
  apply IZR_le in H1; pose proof (bpow_pos a); nra.
Qed.

Lemma bpow_lt (a b : Z) : (a < b)%Z -> (bpow a < bpow b)%R.
Proof.
  intros Hab; replace b with (a + (b - a))%Z by lia.
  rewrite bpow_plus, (bpow_IZR (b - a)) by lia.
  assert (H1 : (2 <= 2 ^ (b - a))%Z) by (rewrite <- (Z.pow_1_r 2) at 1; apply Z.pow_le_mono_r; lia).
  apply IZR_le in H1; pose proof (bpow_pos a); nra.
Qed.

Lemma bpow_lt_inv (a b : Z) : (bpow a < bpow b)%R -> (a < b)%Z.
Proof.
  intros H; destruct (Z.lt_ge_cases a b) as [|Hba]; [assumption|].
  apply bpow_le in Hba; lra.
Qed.

Lemma bpow_le_inv (a b : Z) : (bpow a <= bpow b)%R -> (a <= b)%Z.
Proof.
  intros H; destruct (Z.le_gt_cases a b) as [|Hba]; [assumption|].
  apply bpow_lt in Hba; lra.
Qed.

Lemma digits2_pos_size (p : positive) : digits2_pos p = Pos.size p.
Proof. induction p as [p IH|p IH|]; simpl; congruence. Qed.

Lemma Zdigits2_pos (p : positive) :
  (1 <= Zdigits2 (Zpos p))%Z /\
  (2 ^ (Zdigits2 (Zpos p) - 1) <= Zpos p < 2 ^ Zdigits2 (Zpos p))%Z.
Proof.
  change (Zdigits2 (Zpos p)) with (Zpos (digits2_pos p)); rewrite digits2_pos_size.
  assert (Hgt : (Zpos p < Zpos (2 ^ Pos.size p))%Z) by exact (Pos.size_gt p).
  assert (Hle : (Zpos (2 ^ Pos.size p) <= Zpos (p~0))%Z) by exact (Pos.size_le p).
  rewrite Pos2Z.inj_pow in Hgt, Hle.
  assert (H1 : (1 <= Zpos (Pos.size p))%Z) by lia.
  split; [exact H1|]; split; [|exact Hgt].
  assert (Hs : (2 ^ Zpos (Pos.size p) = 2 ^ (Zpos (Pos.size p) - 1) * 2)%Z)
    by (rewrite Z.mul_comm, <- Z.pow_succ_r by lia; f_equal; lia).
  assert (Hx : Zpos (p~0) = (2 * Zpos p)%Z) by reflexivity.
  lia.
Qed.

(** A positive [m * 2^e] lies in [[2^(D-1), 2^D)] where [D] is the number
    of binary digits of [m] plus [e]. *)
Lemma mag_bounds (p : positive) (e : Z) :
  (bpow (Zdigits2 (Zpos p) + e - 1) <= IZR (Zpos p) * bpow e < bpow (Zdigits2 (Zpos p) + e))%R.
Proof.
  destruct (Zdigits2_pos p) as (H1 & Hlo & Hhi).
  replace (Zdigits2 (Zpos p) + e - 1)%Z with ((Zdigits2 (Zpos p) - 1) + e)%Z by lia.
  rewrite !bpow_plus, (bpow_IZR (Zdigits2 (Zpos p) - 1)), (bpow_IZR (Zdigits2 (Zpos p))) by lia.
  apply IZR_le in Hlo; apply IZR_lt in Hhi; pose proof (bpow_pos e).
  split; apply Rmult_le_compat_r || apply Rmult_lt_compat_r; lra.
Qed.

End Bpow.

(* ------------------------------------------------------------------ *)
(** ** Rounding: [SpecFloat]'s rounding is round-to-nearest *)

Section Rounding.

Lemma IZR_xI (p : positive) : IZR (Zpos p~1) = (2 * IZR (Zpos p) + 1)%R.
Proof. rewrite Pos2Z.inj_xI, plus_IZR, mult_IZR; reflexivity. Qed.

Lemma IZR_xO (p : positive) : IZR (Zpos p~0) = (2 * IZR (Zpos p))%R.
Proof. rewrite Pos2Z.inj_xO, mult_IZR; reflexivity. Qed.

Lemma bpow_succ (e : Z) : bpow (e + 1) = (bpow e * 2)%R.
Proof. rewrite bpow_plus, bpow_1; reflexivity. Qed.

Lemma shr_1_sem (r : shr_record) (e : Z) (z : R) :
  (0 <= shr_m r)%Z -> rec_sem r e z ->
  (0 <= shr_m (shr_1 r))%Z /\ rec_sem (shr_1 r) (e + 1) z.
Proof.
  destruct r as [m rr ss]; simpl; intros Hm H.
  unfold rec_sem in *; simpl in *.
  rewrite bpow_succ; pose proof (bpow_pos e) as Hb; set (b := bpow e) in *.
  destruct m as [|p|p]; [| |lia].
  - simpl; split; [lia|]; destruct rr, ss; simpl in *; lra.
  - destruct p as [p|p|]; simpl; (split; [lia|]);
      try rewrite IZR_xI in H; try rewrite IZR_xO in H;
      destruct rr, ss; simpl in *; lra.
Qed.

Lemma iter_pos_ind {A : Type} (f : A -> A) (P : Z -> A -> Prop) :
  (forall k x, P k x -> P (k + 1)%Z (f x)) ->
  forall p k x, P k x -> P (k + Zpos p)%Z (SpecFloat.iter_pos f p x).
Proof.
  intros Hf p; induction p as [p IH|p IH|]; intros k x Hx; simpl.
  - replace (k + Zpos p~1)%Z with (k + 1 + Zpos p + Zpos p)%Z by lia.
    apply IH, IH, Hf, Hx.
  - replace (k + Zpos p~0)%Z with (k + Zpos p + Zpos p)%Z by lia.
    apply IH, IH, Hx.
  - apply Hf, Hx.
Qed.


Lemma shr_m_of_loc (m : Z) (l : location) : shr_m (shr_record_of_loc m l) = m.
Proof. destruct l as [|[]]; reflexivity. Qed.

Lemma shr_fexp_sem (m e : Z) (l : location) (z : R) :
  (0 <= m)%Z -> rec_sem (shr_record_of_loc m l) e z ->
  let '(r, e') := shr_fexp prec emax m e l in
  (0 <= shr_m r)%Z /\ rec_sem r e' z /\ e' = Z.max e (fexp (Zdigits2 m + e)).
Proof.
  intros Hm Hz; unfold shr_fexp, shr.
  destruct (fexp (Zdigits2 m + e) - e)%Z as [|p|p] eqn:Hd.
  - rewrite shr_m_of_loc; repeat split; auto; lia.
  - pose proof (iter_pos_ind shr_1 (fun k x => (0 <= shr_m x)%Z /\ rec_sem x k z)
      (fun k x Hx => shr_1_sem x k z (proj1 Hx) (proj2 Hx)) p e
      (shr_record_of_loc m l)) as H.
    destruct H as [H1 H2]; [rewrite shr_m_of_loc; auto|].
    repeat split; auto; lia.
  - rewrite shr_m_of_loc; repeat split; auto; lia.
Qed.

Ltac int_cases k m b :=
  let Hk := fresh "Hk" in
  destruct (Z.le_gt_cases k m) as [Hk|Hk];
  [ apply IZR_le in Hk;
    assert ((IZR k * b <= IZR m * b)%R) by (apply Rmult_le_compat_r; lra)
  | let Hk' := fresh "Hk" in
    assert (Hk' : (m + 1 <= k)%Z) by lia; apply IZR_le in Hk'; rewrite plus_IZR in Hk';
    assert (((IZR m + 1) * b <= IZR k * b)%R) by (apply Rmult_le_compat_r; lra) ].

Lemma rne_sem (r : shr_record) (e : Z) (z : R) :
  (0 <= shr_m r)%Z -> rec_sem r e z ->
  let m2 := round_nearest_even (shr_m r) (loc_of_shr_record r) in
  (shr_m r <= m2 <= shr_m r + 1)%Z /\
  (IZR (shr_m r) * bpow e <= z < (IZR (shr_m r) + 1) * bpow e)%R /\
  forall k : Z, (Rabs (IZR m2 * bpow e - z) <= Rabs (IZR k * bpow e - z))%R.
Proof.
  destruct r as [m rr ss]; unfold rec_sem; simpl; intros Hm H.
  pose proof (bpow_pos e) as Hb; set (b := bpow e) in *.
  destruct rr, ss; simpl in *.
  - rewrite plus_IZR; split; [lia|]; split; [lra|].
    intros k; int_cases k m b; unfold Rabs; repeat destruct Rcase_abs; lra.
  - destruct (Z.even m); [split; [lia|]|rewrite plus_IZR; split; [lia|]];
      (split; [lra|]); intros k; int_cases k m b; unfold Rabs; repeat destruct Rcase_abs; lra.
  - split; [lia|]; split; [lra|].
    intros k; int_cases k m b; unfold Rabs; repeat destruct Rcase_abs; lra.
  - split; [lia|]; split; [lra|].
    intros k; int_cases k m b; unfold Rabs; repeat destruct Rcase_abs; lra.
Qed.

Lemma fexp_eq (x : Z) : fexp x = Z.max (x - 53) (-1074).
Proof. reflexivity. Qed.

Lemma emin_eq : emin = (-1074)%Z.
Proof. reflexivity. Qed.

Lemma Zdigits2_bounds (m : Z) :
  (0 < m)%Z -> (1 <= Zdigits2 m)%Z /\ (2 ^ (Zdigits2 m - 1) <= m < 2 ^ Zdigits2 m)%Z.
Proof. destruct m as [|p|p]; try lia; intros _; apply Zdigits2_pos. Qed.

Lemma Zdigits2_nonneg (m : Z) : (0 <= Zdigits2 m)%Z.
Proof. destruct m; simpl; lia. Qed.

Lemma Zdigits2_le (m k : Z) : (0 <= k)%Z -> (0 <= m < 2 ^ k)%Z -> (Zdigits2 m <= k)%Z.
Proof.
  intros Hk Hm; destruct (Z.eq_dec m 0) as [->|Hm0]; [simpl; lia|].
  destruct (Zdigits2_bounds m) as (H1 & H2 & H3); [lia|].
  destruct (Z.le_gt_cases (Zdigits2 m) k) as [|Hlt]; [assumption|].
  assert (2 ^ k <= 2 ^ (Zdigits2 m - 1))%Z by (apply Z.pow_le_mono_r; lia); lia.
Qed.

Lemma Zdigits2_ge (m k : Z) : (0 <= k)%Z -> (2 ^ k <= m)%Z -> (k < Zdigits2 m)%Z.
Proof.
  intros Hk Hm; assert (0 < 2 ^ k)%Z by (apply Z.pow_pos_nonneg; lia).
  destruct (Zdigits2_bounds m) as (H1 & H2 & H3); [lia|].
  destruct (Z.le_gt_cases (Zdigits2 m) k) as [Hle|]; [|assumption].
  assert (2 ^ Zdigits2 m <= 2 ^ k)%Z by (apply Z.pow_le_mono_r; lia); lia.
Qed.

Lemma rec_sem_bounds (r : shr_record) (e : Z) (z : R) :
  rec_sem r e z ->
  (IZR (shr_m r) * bpow e <= z < (IZR (shr_m r) + 1) * bpow e)%R.
Proof.
  destruct r as [m rr ss]; unfold rec_sem; simpl; intros H.
  pose proof (bpow_pos e); destruct rr, ss; lra.
Qed.

Lemma rec_sem_int (r : shr_record) (e n : Z) :
  rec_sem r e (IZR n * bpow e) -> shr_m r = n.
Proof.
  intros H; apply rec_sem_bounds in H; destruct H as [H1 H2].
  pose proof (bpow_pos e).
  apply Rmult_le_reg_r in H1; [|assumption].
  apply Rmult_lt_reg_r in H2; [|assumption].
  rewrite <- plus_IZR in H2; apply le_IZR in H1; apply lt_IZR in H2; lia.
Qed.

(** The values [SpecFloat] can round to: [0] and the numbers
    [m * 2^e] with a canonical exponent. *)
Lemma bpow_Zpow (k e : Z) : (0 <= k)%Z -> bpow (k + e) = (IZR (2 ^ k) * bpow e)%R.
Proof. intros Hk; rewrite bpow_plus, bpow_IZR by lia; reflexivity. Qed.

Theorem round_aux_sem (m e : Z) (l : location) (z : R) :
  (0 <= m)%Z -> (e <= fexp (Zdigits2 m + e))%Z ->
  rec_sem (shr_record_of_loc m l) e z ->
  exists m3 e3 : Z,
    (0 <= m3)%Z /\ (emin <= e3)%Z /\
    (m3 = 0%Z \/ fexp (Zdigits2 m3 + e3) = e3) /\
    binary_round_aux prec emax false m e l =
      match m3 with
      | Z0 => S754_zero false
      | Zpos p => if (e3 <=? emax - prec)%Z then S754_finite false p e3 else S754_infinity false
      | Zneg _ => S754_nan
      end /\
    forall g, fmt g -> (Rabs (IZR m3 * bpow e3 - z) <= Rabs (g - z))%R.
Proof.
  intros Hm Hpre Hz.
  set (X := (Zdigits2 m + e)%Z) in *.
  unfold binary_round_aux.
  pose proof (shr_fexp_sem m e l z Hm Hz) as H1.
  destruct (shr_fexp prec emax m e l) as [r1 e1] eqn:E1.
  destruct H1 as (Hr1 & Hs1 & He1).
  change (Zdigits2 m + e)%Z with X in He1.
  assert (He1' : e1 = fexp X) by lia.
  pose proof (rec_sem_bounds _ _ _ Hz) as Hzb; rewrite shr_m_of_loc in Hzb.
  pose proof (bpow_pos e) as Hbe.
  assert (HzX : (z < bpow X)%R).
  { destruct (Z.eq_dec m 0) as [Hm0|Hm0].
    - subst X; rewrite Hm0 in Hzb |- *; simpl Zdigits2; rewrite Z.add_0_l; simpl IZR in Hzb; lra.
    - destruct (Zdigits2_bounds m) as (Hd1 & Hd2 & Hd3); [lia|].
      assert (Hm1 : (m + 1 <= 2 ^ Zdigits2 m)%Z) by lia.
      apply IZR_le in Hm1; rewrite plus_IZR in Hm1.
      unfold X; rewrite bpow_Zpow by lia.
      apply Rlt_le_trans with ((IZR m + 1) * bpow e)%R; [lra|].
      apply Rmult_le_compat_r; lra. }
  assert (HzX1 : (0 < m)%Z -> (bpow (X - 1) <= z)%R).
  { intros Hm0; destruct (Zdigits2_bounds m) as (Hd1 & Hd2 & Hd3); [lia|].
    replace (X - 1)%Z with ((Zdigits2 m - 1) + e)%Z by (unfold X; lia).
    rewrite bpow_Zpow by lia; apply IZR_le in Hd2.
    apply Rle_trans with (IZR m * bpow e)%R; [apply Rmult_le_compat_r; lra | lra]. }
  assert (Hemin : (-1074 <= e1)%Z) by (rewrite He1', fexp_eq; lia).
  assert (HX53 : (X - 53 <= e1)%Z) by (rewrite He1', fexp_eq; lia).
  assert (Hbig : (-1074 < e1)%Z -> e1 = (X - 53)%Z /\ (0 < m)%Z).
  { intros Hlt; assert (He1X : e1 = (X - 53)%Z) by (rewrite He1', fexp_eq in *; lia).
    split; [exact He1X|].
    destruct (Z.eq_dec m 0) as [Hm0|]; [|lia].
    subst X; rewrite Hm0 in *; simpl Zdigits2 in *; lia. }
  pose proof (rne_sem r1 e1 z Hr1 Hs1) as (Hm2 & Hbr & Hnear).
  set (m1 := shr_m r1) in *.
  set (m2 := round_nearest_even m1 (loc_of_shr_record r1)) in *.
  pose proof (bpow_pos e1) as Hb1.
  assert (Hm1lt : (m1 < 2 ^ 53)%Z).
  { assert (Hlt : (IZR m1 * bpow e1 < bpow (X - e1) * bpow e1)%R)
      by (rewrite <- bpow_plus; replace (X - e1 + e1)%Z with X by lia; lra).
    apply Rmult_lt_reg_r in Hlt; [|exact Hb1].
    assert (Hle : (bpow (X - e1) <= bpow 53)%R) by (apply bpow_le; lia).
    rewrite (bpow_IZR 53) in Hle by lia; apply lt_IZR; lra. }
  (* the rounded value is a nearest multiple of [2^e1] among the format *)
  assert (Hnear' : forall g, fmt g -> (Rabs (IZR m2 * bpow e1 - z) <= Rabs (g - z))%R).
  { intros g [->|(mg & eg & Hcg & ->)].
    - replace (0 - z)%R with (IZR 0 * bpow e1 - z)%R by (simpl; ring); apply Hnear.
    - destruct (Z.le_gt_cases e1 eg) as [Hge|Hlt].
      + specialize (Hnear (Zpos mg * 2 ^ (eg - e1))%Z).
        rewrite mult_IZR, Rmult_assoc, <- bpow_Zpow in Hnear by lia.
        replace (eg - e1 + e1)%Z with eg in Hnear by lia; exact Hnear.
      + assert (Heg : (-1074 <= eg)%Z) by (rewrite <- Hcg, fexp_eq; lia).
        destruct (Hbig ltac:(lia)) as [He1X Hmpos].
        specialize (HzX1 Hmpos).
        assert (Hdg : (Zdigits2 (Zpos mg) + eg <= X - 1)%Z) by (rewrite fexp_eq in Hcg; lia).
        pose proof (mag_bounds mg eg) as [_ Hg].
        apply bpow_le in Hdg.
        specialize (Hnear (2 ^ 52)%Z).
        replace (X - 1)%Z with (52 + e1)%Z in HzX1 by lia.
        rewrite bpow_Zpow in HzX1 by lia.
        pose proof (bpow_pos eg).
        assert (0 <= IZR (Zpos mg) * bpow eg)%R
          by (apply Rmult_le_pos; [apply IZR_le; lia | lra]).
        assert (IZR (Zpos mg) * bpow eg <= IZR (2 ^ 52) * bpow e1)%R.
        { replace (X - 1)%Z with (52 + e1)%Z in Hdg by lia.
          rewrite (bpow_Zpow 52 e1) in Hdg by lia; lra. }
        revert Hnear; unfold Rabs; repeat destruct Rcase_abs; lra. }
  assert (Hs2 : rec_sem (shr_record_of_loc m2 loc_Exact) e1 (IZR m2 * bpow e1))
    by (unfold rec_sem; simpl; reflexivity).
  pose proof (shr_fexp_sem m2 e1 loc_Exact _ ltac:(lia) Hs2) as H3.
  destruct (shr_fexp prec emax m2 e1 loc_Exact) as [r3 e3] eqn:E3.
  destruct H3 as (Hr3 & Hs3 & He3).
  destruct (Z.le_gt_cases (Zdigits2 m2) 53) as [Hd|Hd].
  - assert (He3' : e3 = e1) by (rewrite He3, fexp_eq; lia).
    rewrite He3' in Hs3 |- *; apply rec_sem_int in Hs3.
    exists m2, e1; rewrite Hs3, emin_eq; split; [lia|]; split; [lia|].
    split; [|split; [reflexivity|exact Hnear']].
    destruct (Z.eq_dec m2 0) as [|Hm20]; [left; assumption|right].
    destruct (Z.eq_dec e1 (-1074)) as [He|He]; [rewrite fexp_eq; lia|].
    destruct (Hbig ltac:(lia)) as [He1X Hmpos].
    specialize (HzX1 Hmpos); replace (X - 1)%Z with (52 + e1)%Z in HzX1 by lia.
    rewrite bpow_Zpow in HzX1 by lia.
    assert (H52 : (IZR (2 ^ 52) < IZR m1 + 1)%R).
    { apply Rmult_lt_reg_r with (bpow e1); [exact Hb1|lra]. }
    rewrite <- plus_IZR in H52; apply lt_IZR in H52.
    assert (H53 : (52 < Zdigits2 m2)%Z) by (apply Zdigits2_ge; lia).
    rewrite fexp_eq; lia.
  - destruct (Zdigits2_bounds m2) as (_ & Hd2 & _); [pose proof (Zdigits2_nonneg m2); destruct m2; simpl in Hd; lia|].
    assert (H53 : (2 ^ 53 <= 2 ^ (Zdigits2 m2 - 1))%Z) by (apply Z.pow_le_mono_r; lia).
    assert (Hm2e : m2 = (2 ^ 53)%Z) by lia.
    assert (Hd54 : Zdigits2 m2 = 54%Z) by (rewrite Hm2e; reflexivity).
    assert (He3' : e3 = (e1 + 1)%Z) by (rewrite He3, Hd54, fexp_eq; lia).
    rewrite He3' in Hs3 |- *.
    assert (Hv : (IZR m2 * bpow e1 = IZR (2 ^ 52) * bpow (e1 + 1))%R)
      by (rewrite Hm2e, bpow_succ; replace (2 ^ 53)%Z with (2 ^ 52 * 2)%Z by reflexivity;
          rewrite mult_IZR; ring).
    rewrite Hv in Hs3, Hnear'; apply rec_sem_int in Hs3.
    exists (2 ^ 52)%Z, (e1 + 1)%Z; rewrite Hs3, emin_eq; split; [lia|]; split; [lia|].
    split; [|split; [reflexivity|exact Hnear']].
    right; rewrite fexp_eq; simpl Zdigits2; lia.
Qed.

Lemma nonneg_sf_valid (x : spec_float) : nonneg_sf x -> valid_binary x = true.
Proof.
  destruct x as [s|s| |[] m e]; unfold nonneg_sf; try tauto; try reflexivity.
  intros [Hc He]; unfold SpecFloat.valid_binary, SpecFloat.bounded, SpecFloat.canonical_mantissa.
  change (Zpos (digits2_pos m)) with (Zdigits2 (Zpos m)); rewrite Hc, Z.eqb_refl.
  apply Z.leb_le in He; rewrite He; reflexivity.
Qed.

Lemma valid_finite (s : bool) (m : positive) (e : Z) :
  valid_binary (S754_finite s m e) = true ->
  fexp (Zdigits2 (Zpos m) + e) = e /\ (e <= emax - prec)%Z.
Proof.
  unfold SpecFloat.valid_binary, SpecFloat.bounded, SpecFloat.canonical_mantissa; intros H.
  apply andb_prop in H; destruct H as [H1 H2].
  apply Z.eqb_eq in H1; apply Z.leb_le in H2; split; assumption.
Qed.

Lemma nonneg_sf_fmt (x : spec_float) : nonneg_sf x -> fmt (SF_val x).
Proof.
  destruct x as [s|s| |[] m e]; unfold nonneg_sf, SF_val; try tauto.
  - intros _; left; reflexivity.
  - intros [Hc _]; right; exists m, e; split; [exact Hc|reflexivity].
Qed.

Lemma nonneg_sf_val (x : spec_float) : nonneg_sf x -> (0 <= SF_val x)%R.
Proof.
  destruct x as [s|s| |[] m e]; unfold nonneg_sf, SF_val, cond_Zopp; try tauto; [lra|].
  intros _; apply Rmult_le_pos; [apply IZR_le; lia|left; apply bpow_pos].
Qed.

(** Every non-negative binary64 number is below [2^1024]. *)
Lemma nonneg_sf_lt_max (x : spec_float) : nonneg_sf x -> (SF_val x < bpow 1024)%R.
Proof.
  destruct x as [s|s| |[] m e]; unfold nonneg_sf, SF_val, cond_Zopp; try tauto.
  - intros _; apply bpow_pos.
  - intros [Hc He]; pose proof (mag_bounds m e) as [_ Hm].
    apply Rlt_le_trans with (1 := Hm); apply bpow_le.
    change (emax - prec)%Z with 971%Z in He; rewrite fexp_eq in Hc; lia.
Qed.

Lemma round_aux_rnd (m e : Z) (l : location) (z : R) :
  (0 <= m)%Z -> (e <= fexp (Zdigits2 m + e))%Z ->
  rec_sem (shr_record_of_loc m l) e z ->
  rnd z (binary_round_aux prec emax false m e l).
Proof.
  intros Hm Hpre Hz.
  destruct (round_aux_sem m e l z Hm Hpre Hz) as (m3 & e3 & Hm3 & He3 & Hc & -> & Hn).
  destruct m3 as [|p|p]; [| |lia].
  - right; split; [exact I|]; intros g Hg.
    replace (SF_val (S754_zero false)) with (IZR 0 * bpow e3)%R by (simpl; ring); exact (Hn g Hg).
  - destruct (Z.leb_spec e3 (emax - prec)) as [Hle|Hgt].
    + right; split; [destruct Hc as [Hc|Hc]; [discriminate|split; assumption]|].
      intros g Hg; exact (Hn g Hg).
    + left; split; [reflexivity|]; intros g Hg.
      destruct Hc as [Hc|Hc]; [discriminate|].
      assert (H52 : (2 ^ 52 <= Zpos p)%Z).
      { destruct (Zdigits2_bounds (Zpos p)) as (_ & Hd & _); [lia|].
        change (emax - prec)%Z with 971%Z in Hgt; rewrite fexp_eq in Hc.
        assert (Zdigits2 (Zpos p) = 53%Z) by lia.
        rewrite H in Hd; exact Hd. }
      assert (HR : (bpow 1024 <= IZR (Zpos p) * bpow e3)%R).
      { change (emax - prec)%Z with 971%Z in Hgt.
        apply IZR_le in H52; replace 1024%Z with (52 + (1024 - 52))%Z by lia.
        rewrite bpow_Zpow by lia.
        apply Rmult_le_compat; [apply IZR_le; lia|left; apply bpow_pos|exact H52|].
        apply bpow_le; lia. }
      pose proof (nonneg_sf_lt_max g Hg) as Hgm.
      destruct (Rlt_or_le (SF_val g) z) as [|Hgz]; [assumption|].
      specialize (Hn (SF_val g) (nonneg_sf_fmt g Hg)).
      revert Hn; unfold Rabs; repeat destruct Rcase_abs; lra.
Qed.

Lemma rnd_exact_sf (x : spec_float) : nonneg_sf x -> rnd (SF_val x) x.
Proof.
  intros Hx; right; split; [exact Hx|]; intros g _.
  rewrite Rminus_diag, Rabs_R0; apply Rabs_pos.
Qed.

Lemma rnd_le (z : R) (r g : spec_float) :
  rnd z r -> nonneg_sf g -> (z <= SF_val g)%R -> nonneg_sf r /\ (SF_val r <= SF_val g)%R.
Proof.
  intros [[_ Hall]|[Hr Hn]] Hg Hz; [specialize (Hall g Hg); lra|].
  split; [exact Hr|]; specialize (Hn _ (nonneg_sf_fmt g Hg)).
  revert Hn; unfold Rabs; repeat destruct Rcase_abs; lra.
Qed.

Lemma rnd_ge (z : R) (r g : spec_float) :
  rnd z r -> nonneg_sf g -> (SF_val g <= z)%R ->
  r = S754_infinity false \/ (nonneg_sf r /\ (SF_val g <= SF_val r)%R).
Proof.
  intros [[Hr _]|[Hr Hn]] Hg Hz; [left; exact Hr|right].
  split; [exact Hr|]; specialize (Hn _ (nonneg_sf_fmt g Hg)).
  revert Hn; unfold Rabs; repeat destruct Rcase_abs; lra.
Qed.

Lemma nearest_mono (z1 z2 r1 r2 : R) :
  (z1 < z2)%R -> (Rabs (r1 - z1) <= Rabs (r2 - z1))%R ->
  (Rabs (r2 - z2) <= Rabs (r1 - z2))%R -> (r1 <= r2)%R.
Proof. intros H; unfold Rabs; repeat destruct Rcase_abs; lra. Qed.

Lemma rnd_mono (z1 z2 : R) (r1 r2 : spec_float) :
  (z1 < z2)%R -> rnd z1 r1 -> rnd z2 r2 -> nonneg_sf r1 -> nonneg_sf r2 ->
  (SF_val r1 <= SF_val r2)%R.
Proof.
  intros Hz [[-> _]|[_ Hn1]] [[-> _]|[_ Hn2]] H1 H2; try contradiction.
  apply (nearest_mono z1 z2); [exact Hz|apply Hn1, nonneg_sf_fmt, H2|apply Hn2, nonneg_sf_fmt, H1].
Qed.

(** ** The operations *)

Lemma Pos_iter_xO (m d : positive) : Zpos (Pos.iter xO m d) = (Zpos m * 2 ^ Zpos d)%Z.
Proof.
  induction d as [|d IH] using Pos.peano_ind; [simpl; lia|].
  rewrite Pos.iter_succ, Pos2Z.inj_xO, IH, Pos2Z.inj_succ, Z.pow_succ_r by lia; ring.
Qed.

Lemma Zdigits2_shift (m : Z) (k : Z) :
  (0 < m)%Z -> (0 <= k)%Z -> Zdigits2 (m * 2 ^ k) = (Zdigits2 m + k)%Z.
Proof.
  intros Hm Hk; destruct (Zdigits2_bounds m Hm) as (H1 & H2 & H3).
  assert (Hp : (0 < 2 ^ k)%Z) by (apply Z.pow_pos_nonneg; lia).
  apply Z.le_antisymm.
  - apply Zdigits2_le; [lia|]; split; [lia|].
    rewrite Z.pow_add_r by lia; apply Z.mul_lt_mono_pos_r; lia.
  - assert (Zdigits2 m - 1 + k < Zdigits2 (m * 2 ^ k))%Z; [|lia].
    apply Zdigits2_ge; [lia|]; rewrite Z.pow_add_r by lia.
    apply Z.mul_le_mono_nonneg_r; lia.
Qed.

Lemma shl_align_sem (m : positive) (e e' : Z) :
  let '(m', e'') := shl_align m e e' in
  e'' = Z.min e e' /\ (IZR (Zpos m') * bpow e'' = IZR (Zpos m) * bpow e)%R /\
  (Zdigits2 (Zpos m') + e'' = Zdigits2 (Zpos m) + e)%Z.
Proof.
  unfold shl_align; destruct (e' - e)%Z as [|d|d] eqn:Hd.
  - repeat split; lia.
  - repeat split; lia.
  - assert (Hd' : e = (Zpos d + e')%Z) by lia.
    split; [lia|]; rewrite Pos_iter_xO; split.
    + rewrite mult_IZR, Hd', bpow_Zpow by lia; ring.
    + rewrite Zdigits2_shift by lia; lia.
Qed.

Lemma binary_round_rnd (m : positive) (e : Z) :
  rnd (IZR (Zpos m) * bpow e) (binary_round prec emax false m e).
Proof.
  unfold binary_round.
  pose proof (shl_align_sem m e (fexp (Zpos (digits2_pos m) + e))) as H.
  destruct (shl_align m e (fexp (Zpos (digits2_pos m) + e))) as [m' e''] eqn:E.
  destruct H as (He & Hv & Hd).
  apply round_aux_rnd; [lia| |].
  - rewrite Hd; change (Zpos (digits2_pos m)) with (Zdigits2 (Zpos m)) in He; lia.
  - unfold rec_sem; simpl; rewrite Hv; reflexivity.
Qed.

Lemma binary_normalize_rnd (n : Z) (e : Z) (sz : bool) :
  (0 <= n)%Z -> rnd (IZR n * bpow e) (binary_normalize prec emax n e sz).
Proof.
  intros Hn; destruct n as [|p|p]; [|apply binary_round_rnd|lia].
  simpl; replace (0 * bpow e)%R with (SF_val (S754_zero sz)) by (simpl; ring).
  apply rnd_exact_sf; exact I.
Qed.

Lemma digits_mul (p q : positive) :
  (Zdigits2 (Zpos p) + Zdigits2 (Zpos q) - 1 <= Zdigits2 (Zpos (p * q)))%Z.
Proof.
  destruct (Zdigits2_bounds (Zpos p)) as (Hp1 & Hp2 & _); [lia|].
  destruct (Zdigits2_bounds (Zpos q)) as (Hq1 & Hq2 & _); [lia|].
  assert (Zdigits2 (Zpos p) + Zdigits2 (Zpos q) - 2 < Zdigits2 (Zpos (p * q)))%Z; [|lia].
  apply Zdigits2_ge; [lia|].
  replace (Zdigits2 (Zpos p) + Zdigits2 (Zpos q) - 2)%Z
    with ((Zdigits2 (Zpos p) - 1) + (Zdigits2 (Zpos q) - 1))%Z by lia.
  rewrite Z.pow_add_r, Pos2Z.inj_mul by lia.
  apply Z.mul_le_mono_nonneg; try lia; apply Z.pow_nonneg; lia.
Qed.

Lemma SF_val_zero (s : bool) : SF_val (S754_zero s) = 0%R.
Proof. reflexivity. Qed.

Lemma SF_val_pos (m : positive) (e : Z) :
  SF_val (S754_finite false m e) = (IZR (Zpos m) * bpow e)%R.
Proof. reflexivity. Qed.

Lemma rnd_zero (s : bool) : rnd 0 (S754_zero s).
Proof. rewrite <- (SF_val_zero s); apply rnd_exact_sf; exact I. Qed.

Lemma mul_rnd (a b : spec_float) :
  nonneg_sf a -> nonneg_sf b -> rnd (SF_val a * SF_val b) (SFmul prec emax a b).
Proof.
  destruct a as [sa|sa| |[] ma ea], b as [sb|sb| |[] mb eb]; unfold nonneg_sf; try tauto;
    intros Ha Hb; simpl SFmul; rewrite ?SF_val_zero, ?Rmult_0_l, ?Rmult_0_r; try apply rnd_zero.
  destruct Ha as [Ha _], Hb as [Hb _].
  apply round_aux_rnd; [lia| |].
  - pose proof (digits_mul ma mb).
    pose proof (Zdigits2_nonneg (Zpos ma)); pose proof (Zdigits2_nonneg (Zpos mb)).
    rewrite fexp_eq in *; destruct (Zdigits2_bounds (Zpos ma)) as [? _]; [lia|].
    destruct (Zdigits2_bounds (Zpos mb)) as [? _]; [lia|]; lia.
  - unfold rec_sem; simpl shr_m; simpl shr_r; simpl shr_s; cbv iota.
    rewrite !SF_val_pos, Pos2Z.inj_mul, mult_IZR, bpow_plus; ring.
Qed.

Lemma add_rnd (a b : spec_float) :
  nonneg_sf a -> nonneg_sf b -> rnd (SF_val a + SF_val b) (SFadd prec emax a b).
Proof.
  destruct a as [sa|sa| |[] ma ea], b as [sb|sb| |[] mb eb]; unfold nonneg_sf; try tauto;
    intros Ha Hb.
  - simpl SFadd; rewrite !SF_val_zero, Rplus_0_r; destruct sa, sb; apply rnd_zero.
  - simpl SFadd; rewrite SF_val_zero, Rplus_0_l; apply rnd_exact_sf; exact Hb.
  - simpl SFadd; rewrite SF_val_zero, Rplus_0_r; apply rnd_exact_sf; exact Ha.
  - unfold SFadd.
    pose proof (shl_align_sem ma ea (Z.min ea eb)) as H1.
    pose proof (shl_align_sem mb eb (Z.min ea eb)) as H2.
    destruct (shl_align ma ea (Z.min ea eb)) as [pa za].
    destruct (shl_align mb eb (Z.min ea eb)) as [pb zb].
    destruct H1 as (Hza & Hva & _), H2 as (Hzb & Hvb & _).
    simpl fst; simpl cond_Zopp.
    change (Zpos pa + Zpos pb)%Z with (Zpos (pa + pb)).
    replace (SF_val (S754_finite false ma ea) + SF_val (S754_finite false mb eb))%R
      with (IZR (Zpos (pa + pb)) * bpow (Z.min ea eb))%R.
    + apply binary_round_rnd.
    + rewrite !SF_val_pos, <- Hva, <- Hvb, Pos2Z.inj_add, plus_IZR.
      replace za with (Z.min ea eb) by lia; replace zb with (Z.min ea eb) by lia; ring.
Qed.

Lemma new_location_sem (q r b e : Z) :
  (0 < b)%Z -> (0 <= r < b)%Z ->
  rec_sem (shr_record_of_loc q (new_location b r)) e ((IZR q + IZR r / IZR b) * bpow e).
Proof.
  intros Hb Hr.
  assert (HB : (0 < IZR b)%R) by (apply IZR_lt; lia).
  pose proof (bpow_pos e) as He.
  set (f := (IZR r / IZR b)%R).
  assert (Hfr : IZR r = (f * IZR b)%R) by (unfold f; field; lra).
  assert (Hf0 : (0 <= f)%R).
  { unfold f; apply Rmult_le_pos; [apply IZR_le; lia|left; apply Rinv_0_lt_compat; lra]. }
  assert (Hf1 : (f < 1)%R).
  { assert (IZR r < IZR b)%R by (apply IZR_lt; lia). nra. }
  assert (Hz : (f = 0)%R -> ((IZR q + f) * bpow e = IZR q * bpow e)%R) by (intros ->; ring).
  unfold new_location, new_location_even, new_location_odd.
  destruct (Z.even b) eqn:Hev; cbv beta;
    (destruct (Z.eqb_spec r 0) as [Hr0|Hr0];
     [unfold rec_sem; simpl; apply Hz; unfold f; rewrite Hr0; unfold Rdiv; ring|]);
    (assert (Hfp : (0 < f)%R) by (assert (0 < IZR r)%R by (apply IZR_lt; lia); nra)).
  - destruct (Z.compare_spec (2 * r) b) as [Hc|Hc|Hc]; unfold rec_sem; simpl.
    + apply IZR_eq in Hc; rewrite mult_IZR, Hfr in Hc.
      replace f with (/2)%R by nra; ring.
    + apply IZR_lt in Hc; rewrite mult_IZR, Hfr in Hc.
      assert (f < /2)%R by nra; split; nra.
    + apply IZR_lt in Hc; rewrite mult_IZR, Hfr in Hc.
      assert (/2 < f)%R by nra; split; nra.
  - assert (Hodd : (2 * r <> b)%Z).
    { intros Hc; rewrite <- Hc, Z.even_mul in Hev; discriminate. }
    destruct (Z.compare_spec (2 * r + 1) b) as [Hc|Hc|Hc]; unfold rec_sem; simpl.
    + assert (Hc' : (2 * r < b)%Z) by lia; apply IZR_lt in Hc'.
      rewrite mult_IZR, Hfr in Hc'; assert (f < /2)%R by nra; split; nra.
    + assert (Hc' : (2 * r < b)%Z) by lia; apply IZR_lt in Hc'.
      rewrite mult_IZR, Hfr in Hc'; assert (f < /2)%R by nra; split; nra.
    + assert (Hc' : (b < 2 * r)%Z) by lia; apply IZR_lt in Hc'.
      rewrite mult_IZR, Hfr in Hc'; assert (/2 < f)%R by nra; split; nra.
Qed.

End Rounding.

(* ------------------------------------------------------------------ *)
(** ** Division *)

Section Division.

Local Open Scope Z_scope.

Lemma div_core_sem (m1 m2 : positive) (e1 e2 : Z) :
  let '(q, e', l) := SFdiv_core_binary prec emax (Zpos m1) e1 (Zpos m2) e2 in
  0 <= q /\ e' <= fexp (Zdigits2 q + e') /\
  rec_sem (shr_record_of_loc q l) e'
    (IZR (Zpos m1) * bpow e1 / (IZR (Zpos m2) * bpow e2))%R.
Proof.
  unfold SFdiv_core_binary; cbv zeta.
  set (d1 := Zdigits2 (Zpos m1)); set (d2 := Zdigits2 (Zpos m2)).
  set (e' := Z.min (fexp (d1 + e1 - (d2 + e2))) (e1 - e2)).
  assert (Hs : 0 <= e1 - e2 - e') by (unfold e'; lia).
  set (s := e1 - e2 - e') in *.
  assert (Hsdef : s = e1 - e2 - e') by reflexivity; clearbody s.
  assert (Hm' : match s with Zpos _ => Z.shiftl (Zpos m1) s | Z0 => Zpos m1 | Zneg _ => 0 end
                = Zpos m1 * 2 ^ s).
  { destruct s as [|p|p]; [simpl; lia| |lia]. apply Z.shiftl_mul_pow2; lia. }
  rewrite Hm'.
  assert (Hp : 0 < 2 ^ s) by (apply Z.pow_pos_nonneg; lia).
  pose proof (Z_div_mod (Zpos m1 * 2 ^ s) (Zpos m2) ltac:(lia)) as Hdm.
  destruct (Z.div_eucl (Zpos m1 * 2 ^ s) (Zpos m2)) as [q r].
  destruct Hdm as [Heq Hr].
  assert (Hq : 0 <= q) by nia.
  split; [exact Hq|split].
  - rewrite fexp_eq.
    destruct (Z.le_gt_cases e' (-1074)) as [He|He]; [lia|].
    assert (HA : e' <= d1 + e1 - (d2 + e2) - 53).
    { unfold e' in He |- *; rewrite fexp_eq in He |- *; lia. }
    destruct (Zdigits2_bounds (Zpos m1)) as (H1 & H2 & _); [lia|].
    destruct (Zdigits2_bounds (Zpos m2)) as (H4 & _ & H3); [lia|].
    fold d1 in H1, H2; fold d2 in H3, H4.
    clearbody e' d1 d2.
    assert (Hk : 2 ^ (52 + d2) <= 2 ^ (d1 - 1 + s)) by (apply Z.pow_le_mono_r; [lia|]; clear Hm' Heq; lia).
    rewrite Z.pow_add_r in Hk by lia.
    rewrite (Z.pow_add_r 2 (d1 - 1) s) in Hk by lia.
    assert (Hq52 : 2 ^ 52 <= q).
    { assert (0 < 2 ^ (d1 - 1)) by (apply Z.pow_pos_nonneg; lia).
      assert (2 ^ 52 * Zpos m2 < 2 ^ 52 * 2 ^ d2) by (apply Z.mul_lt_mono_pos_l; lia).
      assert (2 ^ (d1 - 1) * 2 ^ s <= Zpos m1 * 2 ^ s) by (apply Z.mul_le_mono_nonneg_r; lia).
      destruct (Z.le_gt_cases (2 ^ 52) q) as [|Hlt]; [assumption|].
      assert (Zpos m2 * q + r < Zpos m2 * 2 ^ 52) by nia. lia. }
    pose proof (Zdigits2_ge q 52 ltac:(lia) Hq52). lia.
  - replace (IZR (Zpos m1) * bpow e1 / (IZR (Zpos m2) * bpow e2))%R
      with ((IZR q + IZR r / IZR (Zpos m2)) * bpow e')%R.
    + apply new_location_sem; lia.
    + assert (He1 : e1 = s + e' + e2) by lia.
      rewrite He1, !bpow_plus, (bpow_IZR s Hs).
      assert (HI : (IZR (Zpos m1) * IZR (2 ^ s) = IZR (Zpos m2) * IZR q + IZR r)%R).
      { rewrite <- !mult_IZR, <- plus_IZR; f_equal; lia. }
      pose proof (bpow_pos e'); pose proof (bpow_pos e2).
      assert (0 < IZR (Zpos m2))%R by (apply IZR_lt; lia).
      replace (IZR (Zpos m1) * (IZR (2 ^ s) * bpow e' * bpow e2))%R
        with ((IZR (Zpos m2) * IZR q + IZR r) * bpow e' * bpow e2)%R
        by (rewrite <- HI; ring).
      field; lra.
Qed.

End Division.

(* ------------------------------------------------------------------ *)
(** ** Comparisons of binary64 numbers *)

Section Compare.

Lemma SFcompare_swap (x y : spec_float) :
  SFcompare x y = option_map CompOpp (SFcompare y x).
Proof.
  destruct x as [sx|sx| |sx mx ex], y as [sy|sy| |sy my ey]; simpl; try reflexivity;
    try (destruct sx; reflexivity); try (destruct sy; reflexivity);
    try (destruct sx, sy; reflexivity).
  destruct sx, sy; simpl; try reflexivity.
  all: rewrite (Z.compare_antisym ey ex).
  all: pose proof (Pos.compare_cont_antisym mx my Eq) as HP; simpl in HP; rewrite <- HP.
  all: destruct (ey ?= ex)%Z, (Pos.compare_cont Eq mx my); reflexivity.
Qed.

Lemma SFcompare_refl (x : spec_float) : x <> S754_nan -> SFcompare x x = Some Eq.
Proof.
  destruct x as [s|s| |s m e]; intros Hx; simpl; try (destruct s; reflexivity); [congruence|].
  rewrite Z.compare_refl, Pos.compare_cont_refl; destruct s; reflexivity.
Qed.

Lemma ltb_leb_false (x y : float) : (y <? x)%float = true -> (x <=? y)%float = false.
Proof.
  rewrite FloatAxioms.ltb_spec, FloatAxioms.leb_spec; unfold SFltb, SFleb.
  rewrite (SFcompare_swap (Prim2SF x)).
  destruct (SFcompare (Prim2SF y) (Prim2SF x)) as [[]|]; simpl; congruence.
Qed.

Lemma is_nan_spec (x : float) : is_nan x = true <-> Prim2SF x = S754_nan.
Proof.
  unfold is_nan; rewrite FloatAxioms.eqb_spec; unfold SFeqb.
  split.
  - intros H. destruct (Prim2SF x) eqn:E; try reflexivity;
      rewrite SFcompare_refl in H by discriminate; discriminate.
  - intros ->; reflexivity.
Qed.

Lemma leb_zero_nonneg (x : float) :
  (0 <=? x)%float = true -> (x <? 0)%float = false /\ is_nan x = false.
Proof.
  intros H; rewrite FloatAxioms.leb_spec in H; unfold SFleb in H.
  split.
  - rewrite FloatAxioms.ltb_spec; unfold SFltb.
    rewrite SFcompare_swap.
    destruct (SFcompare (Prim2SF 0) (Prim2SF x)) as [[]|]; simpl; congruence.
  - destruct (is_nan x) eqn:E; [|reflexivity].
    apply is_nan_spec in E; rewrite E in H; discriminate.
Qed.

Lemma div_rnd (a : spec_float) (mb : positive) (eb : Z) :
  nonneg_sf a ->
  rnd (SF_val a / SF_val (S754_finite false mb eb)) (SFdiv prec emax a (S754_finite false mb eb)).
Proof.
  destruct a as [sa|sa| |[] ma ea]; unfold nonneg_sf; try tauto; intros Ha.
  - cbn [SFdiv xorb]; rewrite SF_val_zero; unfold Rdiv; rewrite Rmult_0_l; apply rnd_zero.
  - cbn [SFdiv xorb].
    pose proof (div_core_sem ma mb ea eb) as H.
    destruct (SFdiv_core_binary prec emax (Zpos ma) ea (Zpos mb) eb) as [[q e'] l].
    destruct H as (Hq & Hp & Hs).
    rewrite !SF_val_pos; apply round_aux_rnd; assumption.
Qed.

Lemma canonical_exp_lt (ma mb : positive) (ea eb : Z) :
  fexp (Zdigits2 (Zpos ma) + ea) = ea -> fexp (Zdigits2 (Zpos mb) + eb) = eb ->
  (ea < eb)%Z -> (IZR (Zpos ma) * bpow ea < IZR (Zpos mb) * bpow eb)%R.
Proof.
  intros Ha Hb Hlt; rewrite fexp_eq in Ha, Hb.
  pose proof (mag_bounds ma ea) as [_ H1]; pose proof (mag_bounds mb eb) as [H2 _].
  assert (Hle : (Zdigits2 (Zpos ma) + ea <= Zdigits2 (Zpos mb) + eb - 1)%Z) by lia.
  apply bpow_le in Hle; lra.
Qed.

Lemma SF_val_pos_lt (m : positive) (e : Z) : (0 < SF_val (S754_finite false m e))%R.
Proof.
  rewrite SF_val_pos; apply Rmult_lt_0_compat; [apply IZR_lt; lia|apply bpow_pos].
Qed.

Lemma compare_nonneg (a b : spec_float) : nonneg_sf a -> nonneg_sf b ->
  (SFcompare a b = Some Lt /\ (SF_val a < SF_val b)%R) \/
  (SFcompare a b = Some Eq /\ SF_val a = SF_val b) \/
  (SFcompare a b = Some Gt /\ (SF_val b < SF_val a)%R).
Proof.
  destruct a as [sa|sa| |[] ma ea], b as [sb|sb| |[] mb eb]; unfold nonneg_sf; try tauto;
    intros Ha Hb; simpl SFcompare;
    try (right; left; split; reflexivity);
    try (left; split; [reflexivity|]; rewrite SF_val_zero; apply SF_val_pos_lt);
    try (right; right; split; [reflexivity|]; rewrite SF_val_zero; apply SF_val_pos_lt).
  destruct Ha as [Ha _], Hb as [Hb _]; rewrite !SF_val_pos.
  destruct (Z.compare_spec ea eb) as [<-|Hlt|Hlt].
  - change (Pos.compare_cont Eq ma mb) with (Pos.compare ma mb).
    destruct (Pos.compare_spec ma mb) as [<-|Hm|Hm].
    + right; left; split; reflexivity.
    + left; split; [reflexivity|].
      apply Rmult_lt_compat_r; [apply bpow_pos|apply IZR_lt; lia].
    + right; right; split; [reflexivity|].
      apply Rmult_lt_compat_r; [apply bpow_pos|apply IZR_lt; lia].
  - left; split; [reflexivity|apply canonical_exp_lt; assumption].
  - right; right; split; [reflexivity|apply canonical_exp_lt; assumption].
Qed.

Lemma leb_nonneg (x y : float) : nonneg_sf (Prim2SF x) -> nonneg_sf (Prim2SF y) ->
  (x <=? y)%float = true <-> (f64_value x <= f64_value y)%R.
Proof.
  intros Hx Hy; rewrite FloatAxioms.leb_spec; unfold SFleb, f64_value.
  destruct (compare_nonneg _ _ Hx Hy) as [[-> H]|[[-> H]|[-> H]]];
    split; intros; try lra; try reflexivity; discriminate.
Qed.

Lemma ltb_nonneg (x y : float) : nonneg_sf (Prim2SF x) -> nonneg_sf (Prim2SF y) ->
  (x <? y)%float = true <-> (f64_value x < f64_value y)%R.
Proof.
  intros Hx Hy; rewrite FloatAxioms.ltb_spec; unfold SFltb, f64_value.
  destruct (compare_nonneg _ _ Hx Hy) as [[-> H]|[[-> H]|[-> H]]];
    split; intros; try lra; try reflexivity; discriminate.
Qed.

Lemma eqb_nonneg (x y : float) : nonneg_sf (Prim2SF x) -> nonneg_sf (Prim2SF y) ->
  (x =? y)%float = true <-> f64_value x = f64_value y.
Proof.
  intros Hx Hy; rewrite FloatAxioms.eqb_spec; unfold SFeqb, f64_value.
  destruct (compare_nonneg _ _ Hx Hy) as [[-> H]|[[-> H]|[-> H]]];
    split; intros; try lra; try reflexivity; discriminate.
Qed.

Lemma rnd_valid (z : R) (r : spec_float) : rnd z r -> valid_binary r = true.
Proof. intros [[-> _]|[H _]]; [reflexivity|apply nonneg_sf_valid; exact H]. Qed.

Lemma usize_as_f64_spec (n : nat) :
  Prim2SF (usize_as_f64 n) = binary_normalize prec emax (Z.of_nat n) 0 false.
Proof.
  unfold usize_as_f64; apply FloatAxioms.Prim2SF_SF2Prim.
  eapply rnd_valid; apply binary_normalize_rnd; lia.
Qed.

Lemma usize_as_f64_rnd (n : nat) : rnd (INR n) (Prim2SF (usize_as_f64 n)).
Proof.
  rewrite usize_as_f64_spec, INR_IZR_INZ.
  replace (IZR (Z.of_nat n)) with (IZR (Z.of_nat n) * bpow 0)%R by (rewrite bpow_0; ring).
  apply binary_normalize_rnd; lia.
Qed.

Lemma f64_as_usize_floor (x : float) :
  nonneg_sf (Prim2SF x) -> (f64_value x < IZR usize_max)%R ->
  (INR (f64_as_usize x) <= f64_value x < INR (f64_as_usize x) + 1)%R.
Proof.
  unfold f64_as_usize, f64_value.
  destruct (Prim2SF x) as [s|s| |[] m e]; unfold nonneg_sf; try tauto; intros _ Hlt.
  - simpl; lra.
  - rewrite SF_val_pos in *.
    assert (Hz : (0 <= Z.shiftl (Zpos m) e)%Z /\
                 (IZR (Z.shiftl (Zpos m) e) <= IZR (Zpos m) * bpow e
                  < IZR (Z.shiftl (Zpos m) e) + 1)%R).
    { destruct (Z.le_gt_cases 0 e) as [He|He].
      - rewrite Z.shiftl_mul_pow2 by lia.
        rewrite (bpow_IZR e He), <- mult_IZR.
        split; [apply Z.mul_nonneg_nonneg; [lia|apply Z.pow_nonneg; lia]|lra].
      - replace e with (- (- e))%Z by lia.
        rewrite Z.shiftl_opp_r, Z.shiftr_div_pow2 by lia.
        set (k := (- e)%Z).
        assert (Hk : (0 < 2 ^ k)%Z) by (apply Z.pow_pos_nonneg; lia).
        pose proof (Z_div_mod (Zpos m) (2 ^ k) ltac:(lia)) as Hdm.
        destruct (Z.div_eucl (Zpos m) (2 ^ k)) as [q r] eqn:E.
        assert (Hq : (Zpos m / 2 ^ k = q)%Z).
        { unfold Z.div; rewrite E; reflexivity. }
        rewrite Hq; destruct Hdm as [Heq Hr].
        assert (Hb : (bpow (- k) * IZR (2 ^ k) = 1)%R).
        { rewrite <- (bpow_IZR k) by lia; rewrite <- bpow_plus.
          replace (- k + k)%Z with 0%Z by lia; apply bpow_0. }
        assert (Hm : IZR (Zpos m) = (IZR (2 ^ k) * IZR q + IZR r)%R).
        { rewrite <- mult_IZR, <- plus_IZR; f_equal; exact Heq. }
        pose proof (bpow_pos (- k)).
        assert (H0 : (0 <= IZR r)%R) by (apply IZR_le; lia).
        assert (H1 : (IZR r < IZR (2 ^ k))%R) by (apply IZR_lt; lia).
        assert (0 <= q)%Z by nia.
        split; [lia|]; rewrite Hm.
        replace ((IZR (2 ^ k) * IZR q + IZR r) * bpow (- k))%R
          with (IZR q * (bpow (- k) * IZR (2 ^ k)) + IZR r * bpow (- k))%R by ring.
        rewrite Hb; split; nra. }
    destruct Hz as (Hz0 & Hz1 & Hz2).
    assert (Hmax : (Z.shiftl (Zpos m) e < usize_max)%Z) by (apply lt_IZR; lra).
    rewrite Z.min_l by lia.
    rewrite INR_IZR_INZ, Z2Nat.id by lia; lra.
Qed.

End Compare.

(* ------------------------------------------------------------------ *)
(** ** Facts about the other operations *)

Section Ops.

Lemma new_err_invalid (w : list float) :
  (exists e, new w = Err e) <-> is_valid_prob_mass w = false.
Proof.
  unfold new; destruct (is_valid_prob_mass w); simpl; split.
  - intros [e He]; discriminate.
  - discriminate.
  - reflexivity.
  - intros _; exists BadParams; reflexivity.
Qed.

Lemma new_ok_valid (w : list float) :
  is_valid_prob_mass w = true -> exists d, new w = Ok d.
Proof.
  unfold new; intros ->; simpl; eexists; reflexivity.
Qed.

Lemma combine_seq_nth (l : list float) (s : nat) :
  combine (seq s (length l)) l = map (fun i => (i, nth (i - s) l 0%float)) (seq s (length l)).
Proof.
  revert s; induction l as [|x r IH]; intros s; [reflexivity|].
  simpl; rewrite Nat.sub_diag, IH; f_equal.
  apply map_ext_in; intros i Hi; apply in_seq in Hi.
  replace (i - s) with (S (i - S s)) by lia; reflexivity.
Qed.

Lemma fold_left_map_ext {A B C : Type} (f : A -> B -> A) (g : C -> B) (h : A -> C -> A)
    (l : list C) (a : A) :
  (forall a x, f a (g x) = h a x) -> fold_left f (map g l) a = fold_left h l a.
Proof.
  intros Hfg; revert a; induction l as [|x l IH]; intros a; simpl; [reflexivity|].
  now rewrite Hfg, IH.
Qed.

Lemma mean_eq_by_index (d : Categorical) : mean d = mean_by_index d.
Proof.
  unfold mean, mean_by_index.
  rewrite combine_seq_nth; apply fold_left_map_ext.
  intros acc i; now rewrite Nat.sub_0_r.
Qed.

End Ops.

(* ------------------------------------------------------------------ *)
(** ** Exact integers, [x as usize] and the value of [cdf] below [k] *)

Section CdfFacts.

Lemma Prim2SF_zero : Prim2SF 0%float = S754_zero false.
Proof. reflexivity. Qed.

Lemma nonneg_sf_zero_float : nonneg_sf (Prim2SF 0%float).
Proof. rewrite Prim2SF_zero; exact I. Qed.

Lemma f64_value_zero : f64_value 0%float = 0%R.
Proof. unfold f64_value; rewrite Prim2SF_zero; reflexivity. Qed.

(** [0.0 <= x] leaves the non-negative numbers and [+inf]. *)
Lemma leb_zero_cases (x : float) :
  (0 <=? x)%float = true -> nonneg_sf (Prim2SF x) \/ Prim2SF x = S754_infinity false.
Proof.
  intros H; rewrite FloatAxioms.leb_spec, Prim2SF_zero in H.
  pose proof (FloatAxioms.Prim2SF_valid x) as Hv.
  destruct (Prim2SF x) as [s|s| |[] m e]; unfold SFleb in H; simpl in H; try discriminate.
  - left; exact I.
  - destruct s; simpl in H; [discriminate|right; reflexivity].
  - left; exact (valid_finite _ _ _ Hv).
Qed.

Lemma inf_not_leb (x y : float) :
  Prim2SF x = S754_infinity false -> nonneg_sf (Prim2SF y) -> (x <=? y)%float = false.
Proof.
  intros Hx Hy; rewrite FloatAxioms.leb_spec, Hx; unfold SFleb.
  destruct (Prim2SF y) as [s|s| |[] m e]; simpl in Hy; try contradiction; reflexivity.
Qed.

Lemma pos_nonneg (x : float) : (0 < f64_value x)%R -> nonneg_sf (Prim2SF x).
Proof.
  unfold f64_value; pose proof (FloatAxioms.Prim2SF_valid x) as Hv.
  destruct (Prim2SF x) as [s|s| |[] m e]; simpl SF_val; intros H; try lra.
  - exfalso; pose proof (bpow_pos e).
    assert (IZR (Zneg m) < 0)%R by (apply IZR_lt; lia). nra.
  - exact (valid_finite _ _ _ Hv).
Qed.

Lemma bpow_1000 : bpow 1000 = (IZR (Zpos 4503599627370496) * bpow 948)%R.
Proof.
  replace 1000%Z with (52 + 948)%Z by reflexivity.
  rewrite bpow_plus, (bpow_IZR 52) by lia; reflexivity.
Qed.

(** A rounding of a real up to [2^1000] is a finite number. *)
Lemma rnd_finite (z : R) (r : spec_float) : rnd z r -> (z <= bpow 1000)%R -> nonneg_sf r.
Proof.
  intros [[-> Hall]|[H _]] Hz; [exfalso|exact H].
  assert (Hg : nonneg_sf (S754_finite false 4503599627370496 948)) by (split; [reflexivity|cbv; discriminate]).
  specialize (Hall _ Hg); rewrite SF_val_pos, <- bpow_1000 in Hall; lra.
Qed.

(** A rounding of a representable real is that real. *)
Lemma rnd_exact (z : R) (r : spec_float) :
  rnd z r -> fmt z -> (z <= bpow 1000)%R -> nonneg_sf r /\ SF_val r = z.
Proof.
  intros Hr Hz Hb; pose proof (rnd_finite z r Hr Hb) as Hf.
  destruct Hr as [[-> _]|[_ Hn]]; [contradiction|].
  split; [exact Hf|]; specialize (Hn z Hz).
  rewrite Rminus_diag, Rabs_R0 in Hn; revert Hn; unfold Rabs; destruct Rcase_abs; lra.
Qed.

Lemma fmt_int (n : Z) : (0 <= n <= 2 ^ 53)%Z -> fmt (IZR n).
Proof.
  intros Hn; destruct (Z.eq_dec n 0) as [->|Hn0]; [left; reflexivity|right].
  destruct (Zdigits2_bounds n) as (H1 & H2 & H3); [lia|].
  destruct (Z.le_gt_cases (Zdigits2 n) 53) as [Hd|Hd].
  - assert (Hp : (0 < 2 ^ (53 - Zdigits2 n))%Z) by (apply Z.pow_pos_nonneg; lia).
    exists (Z.to_pos (n * 2 ^ (53 - Zdigits2 n))), (Zdigits2 n - 53)%Z.
    rewrite Z2Pos.id by nia.
    rewrite Zdigits2_shift by lia; split.
    + rewrite fexp_eq; lia.
    + rewrite mult_IZR, <- (bpow_IZR (53 - Zdigits2 n)) by lia.
      rewrite Rmult_assoc, <- bpow_plus.
      replace (53 - Zdigits2 n + (Zdigits2 n - 53))%Z with 0%Z by lia.
      rewrite bpow_0; ring.
  - assert (H53 : (2 ^ 53 <= 2 ^ (Zdigits2 n - 1))%Z) by (apply Z.pow_le_mono_r; lia).
    assert (Hn53 : n = (2 ^ 53)%Z) by lia.
    exists 4503599627370496%positive, 1%Z; split; [reflexivity|].
    rewrite Hn53, bpow_1, <- mult_IZR; reflexivity.
Qed.

Lemma INR_le_bpow (n : nat) : (Z.of_nat n <= usize_max)%Z -> (INR n <= bpow 1000)%R.
Proof.
  intros Hn; rewrite INR_IZR_INZ.
  apply Rle_trans with (bpow 64); [|apply bpow_le; lia].
  rewrite bpow_IZR by lia; apply IZR_le; unfold usize_max in Hn; lia.
Qed.

(** [n as f64] is [n] itself up to [2^53]. *)
Lemma usize_as_f64_exact (n : nat) :
  (Z.of_nat n <= 2 ^ 53)%Z ->
  nonneg_sf (Prim2SF (usize_as_f64 n)) /\ f64_value (usize_as_f64 n) = INR n.
Proof.
  intros Hn; apply rnd_exact; [apply usize_as_f64_rnd| |].
  - rewrite INR_IZR_INZ; apply fmt_int; lia.
  - apply INR_le_bpow; unfold usize_max; lia.
Qed.

(** [n as f64] is finite for every [usize]. *)
Lemma usize_as_f64_finite (n : nat) :
  (Z.of_nat n <= usize_max)%Z -> nonneg_sf (Prim2SF (usize_as_f64 n)).
Proof.
  intros Hn; apply (rnd_finite (INR n)); [apply usize_as_f64_rnd|apply INR_le_bpow; exact Hn].
Qed.

(** A number below [n as f64] is below [n]. *)
Lemma lt_usize_as_f64 (n : nat) (x : float) :
  nonneg_sf (Prim2SF x) -> (f64_value x < f64_value (usize_as_f64 n))%R ->
  (f64_value x < INR n)%R.
Proof.
  intros Hx Hlt; destruct (Rlt_or_le (f64_value x) (INR n)) as [|Hge]; [assumption|exfalso].
  assert (Hx0 : (0 <= f64_value x)%R) by (apply nonneg_sf_val; exact Hx).
  destruct (usize_as_f64_rnd n) as [[HK _]|[_ Hn]].
  - unfold f64_value at 2 in Hlt; rewrite HK in Hlt; simpl SF_val in Hlt; lra.
  - specialize (Hn _ (nonneg_sf_fmt _ Hx)); fold (f64_value (usize_as_f64 n)) in Hn.
    fold (f64_value x) in Hn; revert Hn; unfold Rabs; repeat destruct Rcase_abs; lra.
Qed.

(** Binary64 numbers from [2^53] on are integers. *)
Lemma big_float_int (x : float) :
  nonneg_sf (Prim2SF x) -> (bpow 53 <= f64_value x)%R -> exists z, f64_value x = IZR z.
Proof.
  unfold f64_value; destruct (Prim2SF x) as [s|s| |[] m e]; unfold nonneg_sf, SF_val, cond_Zopp; try tauto.
  - intros _ H; pose proof (bpow_pos 53); lra.
  - intros [Hc _] H; destruct (Z.le_gt_cases 0 e) as [He|He].
    + exists (Zpos m * 2 ^ e)%Z; rewrite mult_IZR, <- bpow_IZR by exact He; reflexivity.
    + exfalso; rewrite fexp_eq in Hc.
      pose proof (mag_bounds m e) as [_ Hm].
      assert (Hle : (Zdigits2 (Zpos m) + e <= 52)%Z) by lia.
      apply bpow_le in Hle; pose proof (bpow_lt 52 53 ltac:(lia)); lra.
Qed.

Lemma floor_unique (i j : nat) (v : R) :
  (INR i <= v < INR i + 1)%R -> (INR j <= v < INR j + 1)%R -> i = j.
Proof.
  intros Hi Hj; rewrite <- S_INR in Hi, Hj.
  assert (i < S j) by (apply INR_lt; lra).
  assert (j < S i) by (apply INR_lt; lra).
  lia.
Qed.

(** Below [k as f64], [cdf] passes its [assert!], is not at [k], and reads
    [cdf[x as usize]] with [x as usize] the floor of [x], inside the slice. *)
Lemma cdf_at_below (d : Categorical) (x : float) :
  (Z.of_nat (length (cdf d)) <= usize_max)%Z -> nonneg_sf (Prim2SF x) ->
  (f64_value x < f64_value (usize_as_f64 (length (cdf d))))%R ->
  f64_as_usize x < length (cdf d) /\
  (INR (f64_as_usize x) <= f64_value x < INR (f64_as_usize x) + 1)%R /\
  cdf_at d x = Ret (nth (f64_as_usize x) (cdf d) 0 / cdf_max d)%float.
Proof.
  intros Hn Hx Hlt.
  pose proof (usize_as_f64_finite _ Hn) as HK.
  pose proof (lt_usize_as_f64 _ x Hx Hlt) as Hxn.
  assert (Hmax : (f64_value x < IZR usize_max)%R).
  { apply Rlt_le_trans with (1 := Hxn); rewrite INR_IZR_INZ; apply IZR_le; exact Hn. }
  destruct (f64_as_usize_floor x Hx Hmax) as [H1 H2].
  assert (Hi : f64_as_usize x < length (cdf d)) by (apply INR_lt; lra).
  split; [exact Hi|split; [lra|]].
  assert (H0x : (0 <=? x)%float = true).
  { apply leb_nonneg; [exact nonneg_sf_zero_float|exact Hx|].
    rewrite f64_value_zero; apply nonneg_sf_val; exact Hx. }
  assert (HxK : (x <=? usize_as_f64 (length (cdf d)))%float = true)
    by (apply leb_nonneg; [exact Hx|exact HK|lra]).
  assert (HeK : (x =? usize_as_f64 (length (cdf d)))%float = false).
  { destruct (x =? usize_as_f64 (length (cdf d)))%float eqn:E; [|reflexivity].
    apply eqb_nonneg in E; [lra|exact Hx|exact HK]. }
  unfold cdf_at; cbv zeta; rewrite H0x, HxK, HeK; simpl.
  rewrite (nth_error_nth' (cdf d) 0%float Hi); reflexivity.
Qed.

End CdfFacts.

(* ------------------------------------------------------------------ *)
(** ** Non-negative numbers and [+inf] under [+], [*] and the comparisons *)

Section FloatCases.

Lemma rnd_cases (z : R) (r : spec_float) : rnd z r -> nonneg_sf r \/ r = S754_infinity false.
Proof. intros [[-> _]|[H _]]; [right; reflexivity|left; exact H]. Qed.

(** A weight that passes [is_valid_prob_mass] is [+0.0], [-0.0], a positive
    finite number or [+inf]. *)
Lemma weight_cases (x : float) :
  (x <? 0)%float = false -> is_nan x = false ->
  nonneg_sf (Prim2SF x) \/ Prim2SF x = S754_infinity false.
Proof.
  intros Hlt Hnan; rewrite FloatAxioms.ltb_spec, Prim2SF_zero in Hlt.
  pose proof (FloatAxioms.Prim2SF_valid x) as Hv.
  destruct (Prim2SF x) as [s|[|]| |[] m e] eqn:E; unfold SFltb in Hlt; simpl in Hlt;
    try discriminate.
  - left; exact I.
  - right; reflexivity.
  - apply is_nan_spec in E; congruence.
  - left; exact (valid_finite _ _ _ Hv).
Qed.

Lemma add_inf_l (x y : float) :
  Prim2SF x = S754_infinity false ->
  nonneg_sf (Prim2SF y) \/ Prim2SF y = S754_infinity false ->
  Prim2SF (x + y)%float = S754_infinity false.
Proof.
  intros Hx Hy; rewrite FloatAxioms.add_spec, Hx; unfold SF64add.
  destruct Hy as [Hy|Hy]; [|rewrite Hy; reflexivity].
  destruct (Prim2SF y) as [s|s| |[] m e]; simpl in Hy; try contradiction; reflexivity.
Qed.

Lemma add_inf_r (x y : float) :
  nonneg_sf (Prim2SF x) \/ Prim2SF x = S754_infinity false ->
  Prim2SF y = S754_infinity false ->
  Prim2SF (x + y)%float = S754_infinity false.
Proof.
  intros Hx Hy; rewrite FloatAxioms.add_spec, Hy; unfold SF64add.
  destruct Hx as [Hx|Hx]; [|rewrite Hx; reflexivity].
  destruct (Prim2SF x) as [s|s| |[] m e]; simpl in Hx; try contradiction; reflexivity.
Qed.

Lemma add_nonneg (x y : float) :
  nonneg_sf (Prim2SF x) -> nonneg_sf (Prim2SF y) ->
  rnd (f64_value x + f64_value y) (Prim2SF (x + y)%float).
Proof. intros Hx Hy; rewrite FloatAxioms.add_spec; apply add_rnd; assumption. Qed.

Lemma mul_nonneg (x y : float) :
  nonneg_sf (Prim2SF x) -> nonneg_sf (Prim2SF y) ->
  rnd (f64_value x * f64_value y) (Prim2SF (x * y)%float).
Proof. intros Hx Hy; rewrite FloatAxioms.mul_spec; apply mul_rnd; assumption. Qed.

Lemma Prim2SF_one : Prim2SF 1%float = S754_finite false 4503599627370496 (-52).
Proof. reflexivity. Qed.

Lemma nonneg_sf_one : nonneg_sf (Prim2SF 1%float).
Proof. rewrite Prim2SF_one; split; [reflexivity|cbv; discriminate]. Qed.

Lemma f64_value_one : f64_value 1%float = 1%R.
Proof.
  unfold f64_value; rewrite Prim2SF_one, SF_val_pos.
  replace (IZR (Zpos 4503599627370496)) with (bpow 52) by (rewrite bpow_IZR by lia; reflexivity).
  rewrite <- bpow_plus; reflexivity.
Qed.

(** A uniform draw [u] in [[0, 1)]. *)
Lemma unit_cases (u : float) :
  ((0 <=? u) && (u <? 1))%float = true ->
  nonneg_sf (Prim2SF u) /\ (0 <= f64_value u < 1)%R.
Proof.
  intros H; apply andb_prop in H as [H0 H1].
  destruct (leb_zero_cases u H0) as [Hu|Hu].
  - split; [exact Hu|split; [apply nonneg_sf_val; exact Hu|]].
    rewrite <- f64_value_one; apply ltb_nonneg; [exact Hu|exact nonneg_sf_one|exact H1].
  - rewrite FloatAxioms.ltb_spec, Hu, Prim2SF_one in H1; discriminate.
Qed.

Lemma eqb_zero_is_zero (x : float) : (x =? 0)%float = true -> exists s, Prim2SF x = S754_zero s.
Proof.
  rewrite FloatAxioms.eqb_spec, Prim2SF_zero; unfold SFeqb.
  destruct (Prim2SF x) as [s|[|]| |[] m e]; simpl; try discriminate; intros _; exists s; reflexivity.
Qed.

Lemma ltb_zero_false (c z : float) (s : bool) :
  nonneg_sf (Prim2SF c) \/ Prim2SF c = S754_infinity false -> Prim2SF z = S754_zero s ->
  (c <? z)%float = false.
Proof.
  intros Hc Hz; rewrite FloatAxioms.ltb_spec, Hz; unfold SFltb.
  destruct Hc as [Hc| ->]; [|reflexivity].
  destruct (Prim2SF c) as [t|t| |[] m e]; simpl in Hc; try contradiction; reflexivity.
Qed.

(** [draw = u * total] is never above [total]. *)
Lemma draw_not_above (u S : float) :
  nonneg_sf (Prim2SF u) -> (f64_value u < 1)%R ->
  nonneg_sf (Prim2SF S) \/ Prim2SF S = S754_infinity false ->
  (S <? u * S)%float = false.
Proof.
  intros Hu Hu1 [HS|HS].
  - pose proof (mul_nonneg u S Hu HS) as Hr.
    assert (Hle : (f64_value u * f64_value S <= SF_val (Prim2SF S))%R).
    { pose proof (nonneg_sf_val _ Hu); pose proof (nonneg_sf_val _ HS).
      fold (f64_value S) in *; fold (f64_value u) in *; nra. }
    destruct (rnd_le _ _ _ Hr HS Hle) as [Hd Hdle].
    destruct ((S <? u * S)%float) eqn:E; [|reflexivity].
    apply ltb_nonneg in E; [|exact HS|exact Hd]; unfold f64_value in E; lra.
  - rewrite FloatAxioms.ltb_spec, FloatAxioms.mul_spec, HS; unfold SF64mul, SFltb.
    destruct (Prim2SF u) as [s|s| |[] m e]; simpl in Hu; try contradiction; reflexivity.
Qed.

Lemma nonneg_pos_neq_zero (x : float) :
  nonneg_sf (Prim2SF x) -> (0 < f64_value x)%R -> (x =? 0)%float = false.
Proof.
  intros Hx Hp; destruct ((x =? 0)%float) eqn:E; [|reflexivity].
  apply eqb_nonneg in E; [|exact Hx|exact nonneg_sf_zero_float].
  rewrite f64_value_zero in E; lra.
Qed.

Lemma inf_neq_zero (x : float) : Prim2SF x = S754_infinity false -> (x =? 0)%float = false.
Proof. intros Hx; rewrite FloatAxioms.eqb_spec, Hx, Prim2SF_zero; reflexivity. Qed.

Lemma is_finite_not_inf (x : float) :
  is_finite x = true -> Prim2SF x <> S754_infinity false.
Proof.
  intros Hf Hx; unfold is_finite in Hf.
  assert (Hi : is_infinity x = true).
  { unfold is_infinity; rewrite FloatAxioms.eqb_spec, FloatAxioms.abs_spec, Hx; reflexivity. }
  rewrite Hi, orb_true_r in Hf; discriminate.
Qed.

(** Rounding a binary64 number gives back that number. *)
Lemma rnd_exact_val (g r : spec_float) :
  nonneg_sf g -> rnd (SF_val g) r -> nonneg_sf r /\ SF_val r = SF_val g.
Proof.
  intros Hg [[_ Hall]|[Hr Hn]]; [specialize (Hall g Hg); lra|].
  split; [exact Hr|]; specialize (Hn _ (nonneg_sf_fmt g Hg)).
  rewrite Rminus_diag, Rabs_R0 in Hn; revert Hn; unfold Rabs; destruct Rcase_abs; lra.
Qed.

End FloatCases.

(* ------------------------------------------------------------------ *)
(** ** The two loops of [sample] *)

Section Search.

Lemma skip_zero_probs_spec (l : list float) (k : nat) :
  (exists j, j < length l /\ (nth j l 0%float =? 0)%float = false) ->
  exists i, skip_zero_probs l k = Ret (k + i) /\ i < length l /\
    (nth i l 0%float =? 0)%float = false /\ (forall j, j < i -> (nth j l 0%float =? 0)%float = true).
Proof.
  revert k; induction l as [|x r IH]; intros k [j [Hj Hx]]; simpl in Hj; [lia|].
  simpl skip_zero_probs; destruct ((x =? 0)%float) eqn:Ex.
  - destruct j as [|j]; [simpl in Hx; congruence|].
    destruct (IH (S k)) as (i & Hr & Hi & Hn & Hb); [exists j; split; [lia|exact Hx]|].
    exists (S i); split; [rewrite Hr; f_equal; lia|]; split; [simpl; lia|]; split; [exact Hn|].
    intros [|j'] Hj'; [exact Ex|apply Hb; lia].
  - exists 0; split; [rewrite Nat.add_0_r; reflexivity|]; split; [simpl; lia|].
    split; [exact Ex|intros j' Hj'; lia].
Qed.

Lemma search_cdf_spec (draw : float) (l : list float) (k : nat) :
  (exists j, j < length l /\ (nth j l 0%float <? draw)%float = false) ->
  exists i, search_cdf draw l k = Ret (k + i) /\ i < length l /\
    (nth i l 0%float <? draw)%float = false /\ (forall j, j < i -> (nth j l 0%float <? draw)%float = true).
Proof.
  revert k; induction l as [|x r IH]; intros k [j [Hj Hx]]; simpl in Hj; [lia|].
  simpl search_cdf; destruct ((x <? draw)%float) eqn:Ex.
  - destruct j as [|j]; [simpl in Hx; congruence|].
    destruct (IH (S k)) as (i & Hr & Hi & Hn & Hb); [exists j; split; [lia|exact Hx]|].
    exists (S i); split; [rewrite Hr; f_equal; lia|]; split; [simpl; lia|]; split; [exact Hn|].
    intros [|j'] Hj'; [exact Ex|apply Hb; lia].
  - exists 0; split; [rewrite Nat.add_0_r; reflexivity|]; split; [simpl; lia|].
    split; [exact Ex|intros j' Hj'; lia].
Qed.

Lemma forallb_false_exists {A : Type} (f : A -> bool) (l : list A) :
  forallb f l = false -> exists x, In x l /\ f x = false.
Proof.
  induction l as [|a l IH]; simpl; [discriminate|]; intros H.
  destruct (f a) eqn:E; simpl in H.
  - destruct (IH H) as [x [Hx Hf]]; exists x; split; [right; exact Hx|exact Hf].
  - exists a; split; [left; reflexivity|exact E].
Qed.

End Search.

(* ------------------------------------------------------------------ *)
(** ** The cumulative array of a constructed distribution *)

Section Cumulative.

Variable w : list float.
Variable d : Categorical.
Hypothesis Hnew : new w = Ok d.

Lemma cdf_length : length (cdf d) = length w.
Proof.
  destruct (new_ok_shape w d Hnew) as (_ & Hc & _); rewrite Hc, length_map, length_seq; reflexivity.
Qed.

Lemma weights_nonempty : 0 < length w.
Proof.
  destruct (new_ok_shape w d Hnew) as (Hv & _ & _).
  destruct w; [discriminate|simpl; lia].
Qed.

Lemma cdf_nth (j : nat) : j < length w -> nth j (cdf d) 0%float = prefix_sum w j.
Proof.
  intros Hj; destruct (new_ok_shape w d Hnew) as (_ & Hc & _); rewrite Hc.
  apply nth_map_seq; exact Hj.
Qed.

Lemma cdf_nth_0 : nth 0 (cdf d) 0%float = nth 0 w 0%float.
Proof.
  rewrite cdf_nth by exact weights_nonempty.
  destruct w as [|x r]; reflexivity.
Qed.

Lemma cdf_nth_S (j : nat) :
  S j < length w -> nth (S j) (cdf d) 0%float = (nth j (cdf d) 0%float + nth (S j) w 0%float)%float.
Proof.
  intros Hj; rewrite !cdf_nth by lia; apply prefix_sum_S; exact Hj.
Qed.

Lemma cdf_max_last : cdf_max d = nth (length w - 1) (cdf d) 0%float.
Proof. unfold cdf_max; rewrite cdf_length; reflexivity. Qed.

Lemma weight_nonneg (j : nat) :
  nonneg_sf (Prim2SF (nth j w 0%float)) \/ Prim2SF (nth j w 0%float) = S754_infinity false.
Proof.
  destruct (new_ok_shape w d Hnew) as (Hv & _ & _).
  destruct (Nat.lt_ge_cases j (length w)) as [Hj|Hj].
  - unfold is_valid_prob_mass in Hv; apply andb_prop in Hv as [Hv _].
    apply negb_true_iff in Hv.
    assert (Hb : ((nth j w 0%float <? 0)%float || is_nan (nth j w 0%float)) = false).
    { destruct (((nth j w 0%float <? 0)%float || is_nan (nth j w 0%float))) eqn:E; [|reflexivity].
      assert (existsb (fun x => (x <? 0)%float || is_nan x) w = true)
        by (apply existsb_exists; exists (nth j w 0%float); split; [apply nth_In; exact Hj|exact E]).
      congruence. }
    apply orb_false_iff in Hb as [H1 H2]; apply weight_cases; assumption.
  - rewrite nth_overflow by exact Hj; left; exact nonneg_sf_zero_float.
Qed.

Lemma cum_nonneg (j : nat) :
  j < length w ->
  nonneg_sf (Prim2SF (nth j (cdf d) 0%float)) \/ Prim2SF (nth j (cdf d) 0%float) = S754_infinity false.
Proof.
  induction j as [|j IH]; intros Hj.
  - rewrite cdf_nth_0; apply weight_nonneg.
  - rewrite cdf_nth_S by exact Hj.
    destruct (IH ltac:(lia)) as [Hc|Hc]; [|right; apply add_inf_l; [exact Hc|apply weight_nonneg]].
    destruct (weight_nonneg (S j)) as [Hw|Hw]; [|right; apply add_inf_r; [left; exact Hc|exact Hw]].
    apply (rnd_cases _ _ (add_nonneg _ _ Hc Hw)).
Qed.

Lemma cum_inf_up (j k : nat) :
  j <= k -> k < length w -> Prim2SF (nth j (cdf d) 0%float) = S754_infinity false ->
  Prim2SF (nth k (cdf d) 0%float) = S754_infinity false.
Proof.
  intros Hjk Hk Hj; induction Hjk as [|k Hjk IH]; [exact Hj|].
  rewrite cdf_nth_S by exact Hk; apply add_inf_l; [apply IH; lia|apply weight_nonneg].
Qed.

Lemma cum_mono (j k : nat) :
  j <= k -> k < length w ->
  Prim2SF (nth k (cdf d) 0%float) = S754_infinity false \/
  (nonneg_sf (Prim2SF (nth j (cdf d) 0%float)) /\ nonneg_sf (Prim2SF (nth k (cdf d) 0%float)) /\
   (f64_value (nth j (cdf d) 0%float) <= f64_value (nth k (cdf d) 0%float))%R).
Proof.
  intros Hjk Hk; induction Hjk as [|k Hjk IH].
  - destruct (cum_nonneg j Hk) as [H|H]; [right; split; [exact H|split; [exact H|lra]]|left; exact H].
  - rewrite cdf_nth_S by exact Hk.
    destruct (IH ltac:(lia)) as [Hc|(Hj & Hc & Hle)];
      [left; apply add_inf_l; [exact Hc|apply weight_nonneg]|].
    destruct (weight_nonneg (S k)) as [Hw|Hw]; [|left; apply add_inf_r; [left; exact Hc|exact Hw]].
    pose proof (add_nonneg _ _ Hc Hw) as Hr.
    assert (Hz : (SF_val (Prim2SF (nth k (cdf d) 0%float)) <=
                  f64_value (nth k (cdf d) 0%float) + f64_value (nth (S k) w 0%float))%R).
    { pose proof (nonneg_sf_val _ Hw); fold (f64_value (nth (S k) w 0%float)) in *.
      fold (f64_value (nth k (cdf d) 0%float)); lra. }
    destruct (rnd_ge _ _ _ Hr Hc Hz) as [Hi|[Hn Hge]]; [left; exact Hi|right].
    split; [exact Hj|split; [exact Hn|]]; unfold f64_value in *; lra.
Qed.

Lemma weight_le_cum (j : nat) :
  j < length w ->
  Prim2SF (nth j (cdf d) 0%float) = S754_infinity false \/
  (nonneg_sf (Prim2SF (nth j w 0%float)) /\ nonneg_sf (Prim2SF (nth j (cdf d) 0%float)) /\
   (f64_value (nth j w 0%float) <= f64_value (nth j (cdf d) 0%float))%R).
Proof.
  intros Hj; destruct j as [|j].
  - rewrite cdf_nth_0; destruct (weight_nonneg 0) as [H|H]; [right|left; exact H].
    split; [exact H|split; [exact H|lra]].
  - rewrite cdf_nth_S by exact Hj.
    destruct (cum_nonneg j ltac:(lia)) as [Hc|Hc];
      [|left; apply add_inf_l; [exact Hc|apply weight_nonneg]].
    destruct (weight_nonneg (S j)) as [Hw|Hw]; [|left; apply add_inf_r; [left; exact Hc|exact Hw]].
    pose proof (add_nonneg _ _ Hc Hw) as Hr.
    assert (Hz : (SF_val (Prim2SF (nth (S j) w 0%float)) <=
                  f64_value (nth j (cdf d) 0%float) + f64_value (nth (S j) w 0%float))%R).
    { pose proof (nonneg_sf_val _ Hc); fold (f64_value (nth (S j) w 0%float)) in *.
      fold (f64_value (nth j (cdf d) 0%float)) in *; lra. }
    destruct (rnd_ge _ _ _ Hr Hw Hz) as [Hi|[Hn Hge]]; [left; exact Hi|right].
    split; [exact Hw|split; [exact Hn|]]; unfold f64_value in *; lra.
Qed.

(** With a finite total, every cumulative entry and every weight is a
    non-negative finite number. *)
Lemma cum_finite (j : nat) :
  is_finite (cdf_max d) = true -> j < length w ->
  nonneg_sf (Prim2SF (nth j (cdf d) 0%float)) /\ nonneg_sf (Prim2SF (nth j w 0%float)).
Proof.
  intros Hf Hj; pose proof (is_finite_not_inf _ Hf) as Hni; rewrite cdf_max_last in Hni.
  destruct (weight_le_cum j Hj) as [Hi|(Hw & Hc & _)]; [|split; assumption].
  exfalso; apply Hni; apply (cum_inf_up j); [lia|lia|exact Hi].
Qed.

(** The total [cumulative[k-1]] is not zero: some weight is not. *)
Lemma total_nonzero : (cdf_max d =? 0)%float = false.
Proof.
  destruct (new_ok_shape w d Hnew) as (Hv & _ & _).
  unfold is_valid_prob_mass in Hv; apply andb_prop in Hv as [_ Hv].
  apply negb_true_iff in Hv.
  assert (Hex : exists j, j < length w /\ (nth j w 0%float =? 0)%float = false).
  { destruct (forallb_false_exists _ _ Hv) as [x [Hx Hx0]].
    destruct (In_nth w x 0%float Hx) as [j [Hj <-]]; exists j; split; assumption. }
  destruct Hex as [j [Hj Hw0]].
  pose proof weights_nonempty as Hne.
  rewrite cdf_max_last.
  destruct (weight_le_cum j Hj) as [Hi|(Hw & Hc & Hle)].
  - apply inf_neq_zero; apply (cum_inf_up j); [lia|lia|exact Hi].
  - assert (Hpos : (0 < f64_value (nth j w 0%float))%R).
    { destruct (Rle_lt_or_eq_dec _ _ (nonneg_sf_val _ Hw)) as [|He]; [assumption|].
      assert ((nth j w 0%float =? 0)%float = true)
        by (apply eqb_nonneg; [exact Hw|exact nonneg_sf_zero_float|rewrite f64_value_zero; auto]).
      congruence. }
    destruct (cum_mono j (length w - 1) ltac:(lia) ltac:(lia)) as [Hi|(_ & Hl & Hle')].
    + apply inf_neq_zero; exact Hi.
    + apply nonneg_pos_neq_zero; [exact Hl|lra].
Qed.

End Cumulative.

(* ------------------------------------------------------------------ *)
(** ** The normalised cumulative values [cdf[j] / cdf[k-1]] *)

Section CdfMono.

(** Two non-negative binary64 numbers of the same value are equal, or are
    both zeros. *)
Lemma nonneg_val_eq (a b : spec_float) :
  nonneg_sf a -> nonneg_sf b -> SF_val a = SF_val b ->
  (exists s t, a = S754_zero s /\ b = S754_zero t) \/ a = b.
Proof.
  destruct a as [sa|sa| |[] ma ea], b as [sb|sb| |[] mb eb]; unfold nonneg_sf; try tauto;
    intros Ha Hb Hv.
  - left; exists sa, sb; split; reflexivity.
  - exfalso; rewrite SF_val_zero in Hv; pose proof (SF_val_pos_lt mb eb); lra.
  - exfalso; rewrite SF_val_zero in Hv; pose proof (SF_val_pos_lt ma ea); lra.
  - right; destruct Ha as [Ha _], Hb as [Hb _].
    destruct (Z.compare_spec ea eb) as [<-|Hlt|Hlt].
    + rewrite !SF_val_pos in Hv.
      apply Rmult_eq_reg_r in Hv; [|pose proof (bpow_pos ea); lra].
      apply eq_IZR in Hv; injection Hv as ->; reflexivity.
    + pose proof (canonical_exp_lt ma mb ea eb Ha Hb Hlt); rewrite !SF_val_pos in Hv; lra.
    + pose proof (canonical_exp_lt mb ma eb ea Hb Ha Hlt); rewrite !SF_val_pos in Hv; lra.
Qed.

(** Above a non-negative number under [<=] there are only non-negative
    numbers and [+inf]. *)
Lemma leb_from_nonneg (x y : float) :
  nonneg_sf (Prim2SF x) -> (x <=? y)%float = true ->
  nonneg_sf (Prim2SF y) \/ Prim2SF y = S754_infinity false.
Proof.
  intros Hx H; rewrite FloatAxioms.leb_spec in H; pose proof (FloatAxioms.Prim2SF_valid y) as Hv.
  destruct (Prim2SF x) as [sx|sx| |[] mx ex]; simpl in Hx; try contradiction;
    destruct (Prim2SF y) as [sy|[|]| |[] my ey]; unfold SFleb in H; simpl in H; try discriminate;
    first [left; exact I | right; reflexivity | left; exact (valid_finite _ _ _ Hv)].
Qed.

Variable w : list float.
Variable d : Categorical.
Hypothesis Hnew : new w = Ok d.
Hypothesis Hfin : is_finite (cdf_max d) = true.

(** A finite total is a positive finite number. *)
Lemma total_finite_pos : exists mS eS, Prim2SF (cdf_max d) = S754_finite false mS eS.
Proof.
  pose proof (weights_nonempty w d Hnew) as Hne.
  assert (HS : nonneg_sf (Prim2SF (cdf_max d)))
    by (rewrite (cdf_max_last w d Hnew); apply (cum_finite w d Hnew (length w - 1) Hfin); lia).
  pose proof (total_nonzero w d Hnew) as Hz; rewrite FloatAxioms.eqb_spec, Prim2SF_zero in Hz.
  destruct (Prim2SF (cdf_max d)) as [s|s| |[] m e]; simpl in HS; try contradiction.
  - destruct s; discriminate.
  - exists m, e; reflexivity.
Qed.

Lemma cum_le_total (j : nat) :
  j < length w -> (f64_value (nth j (cdf d) 0%float) <= f64_value (cdf_max d))%R.
Proof.
  intros Hj; rewrite (cdf_max_last w d Hnew).
  destruct (cum_mono w d Hnew j (length w - 1) ltac:(lia) ltac:(lia)) as [Hi|(_ & _ & Hle)];
    [|exact Hle].
  exfalso; apply (is_finite_not_inf _ Hfin); rewrite (cdf_max_last w d Hnew); exact Hi.
Qed.

Lemma quot_rnd (j : nat) :
  j < length w ->
  rnd (f64_value (nth j (cdf d) 0%float) / f64_value (cdf_max d))
      (Prim2SF (nth j (cdf d) 0%float / cdf_max d)%float).
Proof.
  intros Hj; destruct total_finite_pos as (mS & eS & HS).
  rewrite FloatAxioms.div_spec; unfold SF64div, f64_value at 2; rewrite HS.
  apply div_rnd; apply (cum_finite w d Hnew j Hfin Hj).
Qed.

(** [cdf[j] / cdf[k-1]] is a non-negative number at most [1]. *)
Lemma quot_le_one (j : nat) :
  j < length w ->
  nonneg_sf (Prim2SF (nth j (cdf d) 0%float / cdf_max d)%float) /\
  (nth j (cdf d) 0%float / cdf_max d <=? 1)%float = true.
Proof.
  intros Hj; destruct total_finite_pos as (mS & eS & HS).
  assert (HSp : (0 < f64_value (cdf_max d))%R) by (unfold f64_value; rewrite HS; apply SF_val_pos_lt).
  assert (Hz : (f64_value (nth j (cdf d) 0%float) / f64_value (cdf_max d) <= SF_val (Prim2SF 1%float))%R).
  { fold (f64_value 1%float); rewrite f64_value_one; pose proof (cum_le_total j Hj).
    unfold Rdiv; apply (Rmult_le_reg_r (f64_value (cdf_max d))); [exact HSp|].
    rewrite Rmult_assoc, Rinv_l by lra; lra. }
  destruct (rnd_le _ _ _ (quot_rnd j Hj) nonneg_sf_one Hz) as [Hn Hle].
  split; [exact Hn|]; apply leb_nonneg; [exact Hn|exact nonneg_sf_one|exact Hle].
Qed.

(** [cdf[i] / cdf[k-1] <= cdf[j] / cdf[k-1]] for [i <= j]. *)
Lemma quot_mono (i j : nat) :
  i <= j -> j < length w ->
  (nth i (cdf d) 0%float / cdf_max d <=? nth j (cdf d) 0%float / cdf_max d)%float = true.
Proof.
  intros Hij Hj; destruct total_finite_pos as (mS & eS & HS).
  assert (HSp : (0 < f64_value (cdf_max d))%R) by (unfold f64_value; rewrite HS; apply SF_val_pos_lt).
  destruct (quot_le_one i ltac:(lia)) as [Hqi _]; destruct (quot_le_one j Hj) as [Hqj _].
  apply leb_nonneg; [exact Hqi|exact Hqj|].
  destruct (cum_mono w d Hnew i j Hij Hj) as [Hi|(Hci & Hcj & Hle)].
  { exfalso; destruct (cum_finite w d Hnew j Hfin Hj) as [Hn _]; rewrite Hi in Hn; exact Hn. }
  destruct (Rle_lt_or_eq_dec _ _ Hle) as [Hlt|Heq].
  - apply (rnd_mono _ _ _ _ ltac:(apply Rmult_lt_compat_r; [apply Rinv_0_lt_compat; exact HSp|exact Hlt])
             (quot_rnd i ltac:(lia)) (quot_rnd j Hj) Hqi Hqj).
  - apply Req_le; unfold f64_value; rewrite !FloatAxioms.div_spec; unfold SF64div; rewrite HS.
    destruct (nonneg_val_eq _ _ Hci Hcj Heq) as [(s & t & Hs & Ht)|He].
    + rewrite Hs, Ht; reflexivity.
    + rewrite He; reflexivity.
Qed.

End CdfMono.

(* ------------------------------------------------------------------ *)
(** ** Rescaling the weights by [2^k] *)

Section Scaling.

Lemma SF_val_shift (k : Z) (x : spec_float) : SF_val (shift_sf k x) = (bpow k * SF_val x)%R.
Proof.
  destruct x as [s|s| |s m e]; simpl; try ring.
  rewrite bpow_plus; ring.
Qed.

Lemma fexp_shift (x k : Z) :
  (-1021 <= x)%Z -> (-1021 <= x + k)%Z -> fexp (x + k) = (fexp x + k)%Z.
Proof. intros H1 H2; rewrite !fexp_eq; lia. Qed.

Lemma shr_fexp_shift (m e : Z) (l : location) (k : Z) :
  (-1021 <= Zdigits2 m + e)%Z -> (-1021 <= Zdigits2 m + e + k)%Z ->
  shr_fexp prec emax m (e + k) l =
    (fst (shr_fexp prec emax m e l), (snd (shr_fexp prec emax m e l) + k)%Z).
Proof.
  intros H1 H2; unfold shr_fexp.
  replace (Zdigits2 m + (e + k))%Z with (Zdigits2 m + e + k)%Z by lia.
  rewrite fexp_shift by assumption.
  replace (fexp (Zdigits2 m + e) + k - (e + k))%Z with (fexp (Zdigits2 m + e) - e)%Z by lia.
  unfold shr; destruct (fexp (Zdigits2 m + e) - e)%Z; simpl; f_equal; lia.
Qed.

Lemma loc_witness (m e : Z) (l : location) : exists z, rec_sem (shr_record_of_loc m l) e z.
Proof.
  pose proof (bpow_pos e) as Hb.
  destruct l as [|[]]; unfold rec_sem; simpl.
  - exists (IZR m * bpow e)%R; reflexivity.
  - exists ((IZR m + /2) * bpow e)%R; reflexivity.
  - exists ((IZR m + /4) * bpow e)%R; split; nra.
  - exists ((IZR m + 3/4) * bpow e)%R; split; nra.
Qed.

(** The first rounding step of [binary_round_aux] keeps the magnitude
    [digits + exponent] of a normal mantissa. *)
Lemma round_step_digits (mx ex : Z) (lx : location) :
  (0 < mx)%Z -> (-1021 <= Zdigits2 mx + ex)%Z ->
  let '(r1, e1) := shr_fexp prec emax mx ex lx in
  (Zdigits2 mx + ex <= Zdigits2 (round_nearest_even (shr_m r1) (loc_of_shr_record r1)) + e1)%Z.
Proof.
  intros Hm Hn.
  destruct (loc_witness mx ex lx) as [z Hz].
  pose proof (shr_fexp_sem mx ex lx z ltac:(lia) Hz) as H.
  destruct (shr_fexp prec emax mx ex lx) as [r1 e1].
  destruct H as (Hr1 & Hs1 & He1).
  pose proof (rne_sem r1 e1 z Hr1 Hs1) as (Hm2 & Hb & _).
  pose proof (rec_sem_bounds _ _ _ Hz) as Hzb; rewrite shr_m_of_loc in Hzb.
  destruct (Zdigits2_bounds mx Hm) as (Hd1 & Hd2 & Hd3).
  rewrite fexp_eq in He1.
  set (t := (Zdigits2 mx - 1 + ex - e1)%Z).
  assert (Ht : (0 <= t)%Z) by (unfold t; lia).
  assert (Hpow : (bpow (Zdigits2 mx - 1 + ex) <= z)%R).
  { rewrite bpow_Zpow by lia; apply IZR_le in Hd2.
    apply Rle_trans with (IZR mx * bpow ex)%R; [|lra].
    apply Rmult_le_compat_r; [left; apply bpow_pos|exact Hd2]. }
  replace (Zdigits2 mx - 1 + ex)%Z with (t + e1)%Z in Hpow by (unfold t; lia).
  rewrite bpow_Zpow in Hpow by exact Ht.
  assert (Hlt : (IZR (2 ^ t) < IZR (shr_m r1) + 1)%R).
  { apply Rmult_lt_reg_r with (bpow e1); [apply bpow_pos|lra]. }
  rewrite <- plus_IZR in Hlt; apply lt_IZR in Hlt.
  assert (Hge : (t < Zdigits2 (round_nearest_even (shr_m r1) (loc_of_shr_record r1)))%Z)
    by (apply Zdigits2_ge; lia).
  unfold t in Hge; lia.
Qed.

Lemma binary_round_aux_shift (sx : bool) (mx ex : Z) (lx : location) (k : Z) (m : positive) (e : Z) :
  (0 < mx)%Z -> (-1021 <= Zdigits2 mx + ex)%Z -> (-1021 <= Zdigits2 mx + ex + k)%Z ->
  binary_round_aux prec emax sx mx ex lx = S754_finite sx m e ->
  binary_round_aux prec emax sx mx (ex + k) lx =
    if (e + k <=? emax - prec)%Z then S754_finite sx m (e + k) else S754_infinity sx.
Proof.
  intros Hm H1 H2 Horig.
  pose proof (round_step_digits mx ex lx Hm H1) as Hd.
  unfold binary_round_aux in *.
  rewrite (shr_fexp_shift mx ex lx k H1 H2).
  destruct (shr_fexp prec emax mx ex lx) as [r1 e1]; simpl fst; simpl snd.
  set (m2 := round_nearest_even (shr_m r1) (loc_of_shr_record r1)) in *.
  rewrite (shr_fexp_shift m2 e1 loc_Exact k ltac:(lia) ltac:(lia)).
  destruct (shr_fexp prec emax m2 e1 loc_Exact) as [r3 e3]; simpl fst; simpl snd.
  destruct (shr_m r3) as [|p|p]; try discriminate.
  destruct (e3 <=? emax - prec)%Z; [|discriminate].
  injection Horig as -> ->; reflexivity.
Qed.

Lemma shl_align_shift (m : positive) (e e' k : Z) :
  shl_align m (e + k) (e' + k) = (fst (shl_align m e e'), (snd (shl_align m e e') + k)%Z).
Proof.
  unfold shl_align; replace (e' + k - (e + k))%Z with (e' - e)%Z by lia.
  destruct (e' - e)%Z; reflexivity.
Qed.

Lemma binary_round_shift (sx : bool) (mx : positive) (ex k : Z) (m : positive) (e : Z) :
  (-1021 <= Zdigits2 (Zpos mx) + ex)%Z -> (-1021 <= Zdigits2 (Zpos mx) + ex + k)%Z ->
  binary_round prec emax sx mx ex = S754_finite sx m e ->
  binary_round prec emax sx mx (ex + k) =
    if (e + k <=? emax - prec)%Z then S754_finite sx m (e + k) else S754_infinity sx.
Proof.
  intros H1 H2 Horig; unfold binary_round in *.
  change (Zpos (digits2_pos mx)) with (Zdigits2 (Zpos mx)) in *.
  replace (Zdigits2 (Zpos mx) + (ex + k))%Z with (Zdigits2 (Zpos mx) + ex + k)%Z by lia.
  rewrite fexp_shift by assumption.
  rewrite shl_align_shift.
  pose proof (shl_align_sem mx ex (fexp (Zdigits2 (Zpos mx) + ex))) as Hs.
  destruct (shl_align mx ex (fexp (Zdigits2 (Zpos mx) + ex))) as [mz ez]; simpl fst; simpl snd.
  destruct Hs as (_ & _ & Hd).
  apply binary_round_aux_shift; [lia|lia|lia|exact Horig].
Qed.

Lemma div_core_shift (m1 e1 m2 e2 k : Z) :
  SFdiv_core_binary prec emax m1 (e1 + k) m2 (e2 + k) = SFdiv_core_binary prec emax m1 e1 m2 e2.
Proof.
  unfold SFdiv_core_binary.
  replace (Zdigits2 m1 + (e1 + k) - (Zdigits2 m2 + (e2 + k)))%Z
    with (Zdigits2 m1 + e1 - (Zdigits2 m2 + e2))%Z by lia.
  replace (e1 + k - (e2 + k))%Z with (e1 - e2)%Z by lia.
  reflexivity.
Qed.

Lemma canon_val_eq (ma mb : positive) (ea eb : Z) :
  fexp (Zdigits2 (Zpos ma) + ea) = ea -> fexp (Zdigits2 (Zpos mb) + eb) = eb ->
  (IZR (Zpos ma) * bpow ea = IZR (Zpos mb) * bpow eb)%R -> ma = mb /\ ea = eb.
Proof.
  intros Ha Hb Hv; destruct (Z.compare_spec ea eb) as [<-|Hlt|Hlt].
  - apply Rmult_eq_reg_r in Hv; [|pose proof (bpow_pos ea); lra].
    apply eq_IZR in Hv; injection Hv as ->; split; reflexivity.
  - pose proof (canonical_exp_lt ma mb ea eb Ha Hb Hlt); lra.
  - pose proof (canonical_exp_lt mb ma eb ea Hb Ha Hlt); lra.
Qed.

Lemma rnd_fmt_exact (z : R) (r : spec_float) : rnd z r -> nonneg_sf r -> fmt z -> SF_val r = z.
Proof.
  intros [[-> _]|[_ Hn]] Hr Hz; [contradiction|].
  specialize (Hn z Hz); rewrite Rminus_diag, Rabs_R0 in Hn.
  revert Hn; unfold Rabs; destruct Rcase_abs; lra.
Qed.

Lemma digits_from_value (P : positive) (e : Z) :
  (bpow (-1022) <= IZR (Zpos P) * bpow e)%R -> (-1021 <= Zdigits2 (Zpos P) + e)%Z.
Proof.
  intros H; destruct (Zdigits2_bounds (Zpos P)) as (H1 & _ & H3); [lia|].
  apply IZR_lt in H3.
  assert (Hlt : (IZR (Zpos P) * bpow e < bpow (Zdigits2 (Zpos P) + e))%R).
  { rewrite bpow_Zpow by lia; apply Rmult_lt_compat_r; [apply bpow_pos|exact H3]. }
  assert (Hl : (bpow (-1022) < bpow (Zdigits2 (Zpos P) + e))%R) by lra.
  apply bpow_lt_inv in Hl; lia.
Qed.

(** Multiplying by [c = 2^k] shifts the exponent of a weight in range. *)
Lemma mul_shift (c x : spec_float) (k : Z) :
  nonneg_sf c -> SF_val c = bpow k -> nonneg_sf x -> in_range k x ->
  nonneg_sf (SFmul prec emax c x) -> SFmul prec emax c x = shift_sf k x.
Proof.
  intros Hc Hck Hx Hrange Hr.
  pose proof (mul_rnd c x Hc Hx) as Hrnd.
  destruct c as [sc|sc| |[] mc ec]; cbv beta iota delta [nonneg_sf] in Hc; try contradiction.
  { exfalso; rewrite SF_val_zero in Hck; pose proof (bpow_pos k); lra. }
  destruct x as [s|s| |[] m e]; cbv beta iota delta [nonneg_sf] in Hx; try contradiction; [reflexivity|].
  destruct Hrange as [H0|[Hr1 Hr2]]; [pose proof (SF_val_pos_lt m e); lra|].
  destruct Hx as [Hcx _].
  rewrite SF_val_pos in Hr1, Hr2; rewrite Hck, SF_val_pos in Hrnd.
  pose proof (digits_from_value m e Hr1) as Hd1.
  replace (bpow k * (IZR (Zpos m) * bpow e))%R with (IZR (Zpos m) * bpow (e + k))%R in Hr2, Hrnd
    by (rewrite bpow_plus; ring).
  pose proof (digits_from_value m (e + k) Hr2) as Hd2.
  assert (Hcan : fexp (Zdigits2 (Zpos m) + (e + k)) = (e + k)%Z) by (rewrite fexp_eq in *; lia).
  assert (Hv : SF_val (SFmul prec emax (S754_finite false mc ec) (S754_finite false m e))
               = (IZR (Zpos m) * bpow (e + k))%R).
  { apply (rnd_fmt_exact _ _ Hrnd Hr); right; exists m, (e + k)%Z; split; [exact Hcan|reflexivity]. }
  destruct (SFmul prec emax (S754_finite false mc ec) (S754_finite false m e))
    as [s'|s'| |[] m' e'] eqn:E; simpl in Hr; try contradiction.
  - exfalso; rewrite SF_val_zero in Hv; pose proof (SF_val_pos_lt m (e + k)); rewrite SF_val_pos in *; lra.
  - destruct Hr as [Hcan' _]; rewrite SF_val_pos in Hv.
    destruct (canon_val_eq m' m e' (e + k) Hcan' Hcan Hv) as [-> ->]; reflexivity.
Qed.

(** Adding two numbers in range commutes with the shift. *)
Lemma add_shift (a b : spec_float) (k : Z) :
  nonneg_sf a -> nonneg_sf b -> in_range k a -> in_range k b ->
  nonneg_sf (SFadd prec emax a b) ->
  nonneg_sf (SFadd prec emax (shift_sf k a) (shift_sf k b)) ->
  SFadd prec emax (shift_sf k a) (shift_sf k b) = shift_sf k (SFadd prec emax a b).
Proof.
  intros Ha Hb Hra Hrb Hs Hs'.
  pose proof (add_rnd a b Ha Hb) as Hrnd.
  destruct a as [sa|sa| |[] ma ea], b as [sb|sb| |[] mb eb]; cbv beta iota delta [nonneg_sf] in Ha, Hb; try contradiction;
    try (destruct sa, sb; reflexivity); try reflexivity.
  destruct Hra as [H0|[Ha1 Ha2]]; [pose proof (SF_val_pos_lt ma ea); lra|].
  simpl shift_sf in *.
  cbv beta iota zeta delta [SFadd] in *.
  change BinIntDef.Z.min with Z.min in *.
  rewrite Z.add_min_distr_r, !shl_align_shift in *.
  pose proof (shl_align_sem ma ea (Z.min ea eb)) as H1.
  pose proof (shl_align_sem mb eb (Z.min ea eb)) as H2.
  destruct (shl_align ma ea (Z.min ea eb)) as [pa za].
  destruct (shl_align mb eb (Z.min ea eb)) as [pb zb].
  destruct H1 as (Hza & Hva & _), H2 as (Hzb & Hvb & _).
  simpl fst in *; simpl cond_Zopp in *.
  change (Zpos pa + Zpos pb)%Z with (Zpos (pa + pb)) in *.
  cbn [binary_normalize] in *.
  assert (Hval : (IZR (Zpos (pa + pb)) * bpow (Z.min ea eb) =
                  SF_val (S754_finite false ma ea) + SF_val (S754_finite false mb eb))%R).
  { rewrite !SF_val_pos, <- Hva, <- Hvb, Pos2Z.inj_add, plus_IZR.
    replace za with (Z.min ea eb) by lia; replace zb with (Z.min ea eb) by lia; ring. }
  assert (Hbv : (0 <= SF_val (S754_finite false mb eb))%R) by (apply nonneg_sf_val; exact Hb).
  assert (Hge : (SF_val (S754_finite false ma ea) <= IZR (Zpos (pa + pb)) * bpow (Z.min ea eb))%R)
    by lra.
  pose proof (bpow_pos k) as Hk.
  assert (Hd1 : (-1021 <= Zdigits2 (Zpos (pa + pb)) + Z.min ea eb)%Z) by (apply digits_from_value; lra).
  assert (Hd2 : (-1021 <= Zdigits2 (Zpos (pa + pb)) + Z.min ea eb + k)%Z).
  { rewrite <- Z.add_assoc; apply digits_from_value.
    rewrite bpow_plus; apply Rle_trans with (1 := Ha2).
    replace (IZR (Zpos (pa + pb)) * (bpow (Z.min ea eb) * bpow k))%R
      with (bpow k * (IZR (Zpos (pa + pb)) * bpow (Z.min ea eb)))%R by ring.
    apply Rmult_le_compat_l; lra. }
  rewrite <- Hval in Hrnd.
  destruct (rnd_ge _ _ (S754_finite false ma ea) Hrnd Ha Hge) as [Hi|[Hrn Hgr]]; [rewrite Hi in Hs; contradiction|].
  destruct (binary_round prec emax false (pa + pb) (Z.min ea eb)) as [s'|s'| |[] m' e'] eqn:E;
    simpl in Hrn; try contradiction.
  - exfalso; rewrite SF_val_zero in Hgr; pose proof (SF_val_pos_lt ma ea); lra.
  - rewrite (binary_round_shift false (pa + pb) (Z.min ea eb) k m' e' Hd1 Hd2 E) in Hs' |- *.
    destruct (e' + k <=? emax - prec)%Z; [reflexivity|simpl in Hs'; contradiction].
Qed.

(** A rounded sum of two numbers in range is in range. *)
Lemma range_of_sum (a b r : spec_float) (k : Z) :
  nonneg_sf a -> nonneg_sf b -> nonneg_sf r -> in_range k a -> in_range k b ->
  rnd (SF_val a + SF_val b) r -> in_range k r.
Proof.
  intros Ha Hb Hr Hra Hrb Hrnd.
  pose proof (bpow_pos k) as Hk.
  pose proof (nonneg_sf_val _ Ha) as Ha0; pose proof (nonneg_sf_val _ Hb) as Hb0.
  assert (Hup : forall g, nonneg_sf g -> (SF_val g <= SF_val a + SF_val b)%R -> in_range k g ->
            (0 < SF_val g)%R -> in_range k r).
  { intros g Hg Hle Hrg Hpos; destruct Hrg as [H0|[H1 H2]]; [lra|right].
    destruct (rnd_ge _ _ _ Hrnd Hg Hle) as [Hi|[_ Hge]]; [rewrite Hi in Hr; contradiction|].
    split; [lra|]; apply Rle_trans with (1 := H2); apply Rmult_le_compat_l; lra. }
  destruct Hra as [Ha1|Ha1].
  - destruct Hrb as [Hb1|Hb1].
    + left; rewrite Ha1, Hb1, Rplus_0_l in Hrnd.
      apply (rnd_fmt_exact _ _ Hrnd Hr); left; reflexivity.
    + apply (Hup b Hb); [lra|right; exact Hb1|pose proof (bpow_pos (-1022)); lra].
  - apply (Hup a Ha); [lra|right; exact Ha1|pose proof (bpow_pos (-1022)); lra].
Qed.

Lemma nonneg_sf_two : nonneg_sf (Prim2SF 2%float).
Proof.
  replace (Prim2SF 2%float) with (S754_finite false 4503599627370496 (-51)) by reflexivity.
  split; [reflexivity|cbv; discriminate].
Qed.

Lemma f64_value_two : f64_value 2%float = bpow 1.
Proof.
  unfold f64_value; replace (Prim2SF 2%float) with (S754_finite false 4503599627370496 (-51))
    by reflexivity.
  rewrite SF_val_pos; replace (IZR (Zpos 4503599627370496)) with (bpow 52)
    by (rewrite bpow_IZR by lia; reflexivity).
  rewrite <- bpow_plus; reflexivity.
Qed.

Lemma normal_weight (x : float) (m : positive) (e : Z) :
  Prim2SF x = S754_finite false m e -> (-1022 <= e)%Z -> (bpow (-1022) <= f64_value x)%R.
Proof.
  intros Hx He; unfold f64_value; rewrite Hx, SF_val_pos.
  apply Rle_trans with (bpow e); [apply bpow_le; exact He|].
  rewrite <- (Rmult_1_l (bpow e)) at 1; apply Rmult_le_compat_r; [left; apply bpow_pos|].
  apply IZR_le; lia.
Qed.

End Scaling.

Section ScaledNew.

Variable w : list float.
Variable c : float.
Variable k : Z.
Variable d d' : Categorical.
Local Abbreviation w' := (map (fun x => (c * x)%float) w).
Hypothesis Hnew : new w = Ok d.
Hypothesis Hnew' : new w' = Ok d'.
Hypothesis Hc : nonneg_sf (Prim2SF c).
Hypothesis Hck : f64_value c = bpow k.
Hypothesis Hfin : is_finite (cdf_max d) = true.
Hypothesis Hfin' : is_finite (cdf_max d') = true.
Hypothesis Hrange : forall j, j < length w ->
  f64_value (nth j w 0%float) = 0%R \/
  (bpow (-1022) <= f64_value (nth j w 0%float) /\
   bpow (-1022) <= f64_value c * f64_value (nth j w 0%float))%R.

Lemma scaled_nth (j : nat) : j < length w -> nth j w' 0%float = (c * nth j w 0%float)%float.
Proof.
  intros Hj; rewrite (nth_indep _ _ (c * 0)%float) by (rewrite length_map; exact Hj).
  apply (map_nth (fun x => (c * x)%float)).
Qed.

Lemma weight_in_range (j : nat) : j < length w -> in_range k (Prim2SF (nth j w 0%float)).
Proof. intros Hj; unfold in_range; rewrite <- Hck; exact (Hrange j Hj). Qed.

Lemma scaled_weight (j : nat) :
  j < length w -> Prim2SF (nth j w' 0%float) = shift_sf k (Prim2SF (nth j w 0%float)).
Proof.
  intros Hj.
  assert (Hj' : j < length w') by (rewrite length_map; exact Hj).
  destruct (cum_finite _ d' Hnew' j Hfin' Hj') as [_ Hr].
  rewrite scaled_nth, FloatAxioms.mul_spec in Hr |- * by exact Hj.
  apply mul_shift; [exact Hc|exact Hck| |apply weight_in_range; exact Hj|exact Hr].
  exact (proj2 (cum_finite w d Hnew j Hfin Hj)).
Qed.

Lemma scaled_cum (j : nat) :
  j < length w ->
  Prim2SF (nth j (cdf d') 0%float) = shift_sf k (Prim2SF (nth j (cdf d) 0%float)) /\
  in_range k (Prim2SF (nth j (cdf d) 0%float)).
Proof.
  induction j as [|j IH]; intros Hj.
  - rewrite (cdf_nth_0 w d Hnew), (cdf_nth_0 _ d' Hnew').
    split; [apply scaled_weight; exact Hj|apply weight_in_range; exact Hj].
  - destruct (IH ltac:(lia)) as [He Hr].
    assert (Hj' : S j < length w') by (rewrite length_map; exact Hj).
    destruct (cum_finite w d Hnew j Hfin ltac:(lia)) as [Hcj _].
    destruct (cum_finite w d Hnew (S j) Hfin Hj) as [Hcj1 Hw1].
    destruct (cum_finite _ d' Hnew' (S j) Hfin' Hj') as [Hcj1' _].
    rewrite (cdf_nth_S w d Hnew j Hj), FloatAxioms.add_spec in Hcj1 |- *.
    rewrite (cdf_nth_S _ d' Hnew' j Hj'), FloatAxioms.add_spec, He, (scaled_weight (S j) Hj)
      in Hcj1' |- *.
    unfold SF64add in *.
    split.
    + apply add_shift; [exact Hcj|exact Hw1|exact Hr|apply weight_in_range; exact Hj|exact Hcj1|exact Hcj1'].
    + apply (range_of_sum _ _ _ k Hcj Hw1 Hcj1 Hr (weight_in_range (S j) Hj)).
      apply add_rnd; assumption.
Qed.

Lemma scaled_total : Prim2SF (cdf_max d') = shift_sf k (Prim2SF (cdf_max d)).
Proof.
  pose proof (weights_nonempty w d Hnew) as Hne.
  rewrite (cdf_max_last _ d' Hnew'), (cdf_max_last w d Hnew), length_map.
  apply scaled_cum; lia.
Qed.

Lemma left_sum_total (v : list float) (e : Categorical) :
  new v = Ok e -> left_sum v = cdf_max e.
Proof.
  intros He; destruct (new_ok_shape v e He) as (Hv & _ & _).
  pose proof (weights_nonempty v e He) as Hne.
  rewrite (cdf_max_last v e He), (cdf_nth v e He) by lia.
  symmetry; apply prefix_sum_last, is_valid_nonempty, Hv.
Qed.

Lemma scaled_norm_pmf : norm_pmf d' = norm_pmf d.
Proof.
  destruct (new_ok_shape w d Hnew) as (_ & _ & Hn).
  destruct (new_ok_shape _ d' Hnew') as (_ & _ & Hn').
  rewrite Hn, Hn', length_map, (left_sum_total w d Hnew), (left_sum_total _ d' Hnew').
  apply map_ext_in; intros i Hi; apply in_seq in Hi.
  apply FloatAxioms.Prim2SF_inj.
  rewrite !FloatAxioms.div_spec, scaled_total, scaled_weight by lia; unfold SF64div.
  destruct (total_finite_pos w d Hnew Hfin) as (mS & eS & ->).
  destruct (cum_finite w d Hnew i Hfin ltac:(lia)) as [_ Hwi].
  destruct (Prim2SF (nth i w 0%float)) as [s|s| |[] m e]; cbv beta iota delta [nonneg_sf] in Hwi;
    try contradiction; [reflexivity|].
  cbn [shift_sf]; cbv beta iota delta [SFdiv]; rewrite div_core_shift; reflexivity.
Qed.

End ScaledNew.

(* ------------------------------------------------------------------ *)
(** ** Signs of sums, products and quotients *)

Section Signs.

Lemma bpow_tiny_fmt : fmt (bpow (-1074)).
Proof.
  right; exists 1%positive, (-1074)%Z; split; [reflexivity|]; rewrite Rmult_1_l; reflexivity.
Qed.

Lemma finite_ge_tiny (m : positive) (e : Z) :
  nonneg_sf (S754_finite false m e) -> (bpow (-1074) <= SF_val (S754_finite false m e))%R.
Proof.
  intros [Hc _]; rewrite fexp_eq in Hc; rewrite SF_val_pos.
  apply Rle_trans with (bpow e); [apply bpow_le; lia|].
  rewrite <- (Rmult_1_l (bpow e)) at 1; apply Rmult_le_compat_r; [left; apply bpow_pos|].
  apply IZR_le; lia.
Qed.

(** A rounding of a real from [2^-1074] on is not a zero. *)
Lemma rnd_not_zero (z : R) (r : spec_float) (s : bool) :
  rnd z r -> (bpow (-1074) <= z)%R -> r <> S754_zero s.
Proof.
  intros [[-> _]|[_ Hn]] Hz Hr; [discriminate|subst r].
  specialize (Hn _ bpow_tiny_fmt); rewrite SF_val_zero in Hn.
  pose proof (bpow_pos (-1074)); revert Hn; unfold Rabs; repeat destruct Rcase_abs; lra.
Qed.

Lemma nonneg_not_zero (x : spec_float) :
  nonneg_sf x -> (forall s, x <> S754_zero s) -> exists m e, x = S754_finite false m e.
Proof.
  destruct x as [s|s| |[] m e]; simpl; try tauto.
  - intros _ H; exfalso; exact (H s eq_refl).
  - intros _ _; exists m, e; reflexivity.
Qed.

Lemma add_acc_sign (a t : float) :
  acc_sign (Prim2SF a) -> no_neg (Prim2SF t) -> acc_sign (Prim2SF (a + t)%float).
Proof.
  intros Ha Ht; rewrite FloatAxioms.add_spec; unfold SF64add.
  pose proof (FloatAxioms.Prim2SF_valid a) as Hva.
  destruct Ha as [Ha|[(ma & ea & Ha)|[Ha|Ha]]]; rewrite Ha in *.
  - destruct Ht as [Ht|[Ht|Ht]]; [|rewrite Ht; right; right; left; reflexivity
                                 |rewrite Ht; right; right; right; reflexivity].
    destruct (Prim2SF t) as [[]|s| |[] m e]; simpl in Ht; try contradiction; simpl.
    + left; reflexivity.
    + left; reflexivity.
    + right; left; exists m, e; reflexivity.
  - destruct Ht as [Ht|[Ht|Ht]]; [|rewrite Ht; right; right; left; reflexivity
                                 |rewrite Ht; right; right; right; reflexivity].
    assert (Hna : nonneg_sf (S754_finite false ma ea)) by exact (valid_finite _ _ _ Hva).
    pose proof (add_rnd _ _ Hna Ht) as Hr.
    destruct (rnd_cases _ _ Hr) as [Hn|Hi]; [|right; right; left; exact Hi].
    right; left; apply nonneg_not_zero; [exact Hn|intros s].
    apply (rnd_not_zero _ _ s Hr).
    pose proof (finite_ge_tiny _ _ Hna); pose proof (nonneg_sf_val _ Ht); lra.
  - right; right; destruct Ht as [Ht|[Ht|Ht]]; rewrite ?Ht; [|left; reflexivity|right; reflexivity].
    destruct (Prim2SF t) as [s|s| |[] m e]; simpl in Ht; try contradiction; left; reflexivity.
  - right; right; right; reflexivity.
Qed.

Lemma mul_no_neg (a b : float) :
  no_neg (Prim2SF a) -> no_neg (Prim2SF b) -> no_neg (Prim2SF (a * b)%float).
Proof.
  intros Ha Hb; rewrite FloatAxioms.mul_spec; unfold SF64mul.
  destruct (Prim2SF a) as [sa|[]| |[] ma ea] eqn:Ea, (Prim2SF b) as [sb|[]| |[] mb eb] eqn:Eb;
    unfold no_neg, nonneg_sf in Ha, Hb;
    try (destruct Ha as [[]|[Ha|Ha]]; discriminate);
    try (destruct Hb as [[]|[Hb|Hb]]; discriminate);
    simpl SFmul; unfold no_neg; auto.
  all: try (left; exact I).
  destruct Ha as [Ha|[Ha|Ha]]; [|discriminate|discriminate].
    destruct Hb as [Hb|[Hb|Hb]]; [|discriminate|discriminate].
    destruct (rnd_cases _ _ (mul_rnd (S754_finite false ma ea) (S754_finite false mb eb) Ha Hb))
      as [H|H]; [left; exact H|right; left; exact H].
Qed.

Lemma div_no_neg (a b : float) :
  nonneg_sf (Prim2SF a) \/ Prim2SF a = S754_infinity false ->
  (exists m e, Prim2SF b = S754_finite false m e) \/ Prim2SF b = S754_infinity false ->
  no_neg (Prim2SF (a / b)%float).
Proof.
  intros Ha Hb; rewrite FloatAxioms.div_spec; unfold SF64div.
  destruct Hb as [(m & e & Hb)|Hb]; rewrite Hb.
  - destruct Ha as [Ha|Ha]; [|rewrite Ha; right; left; reflexivity].
    destruct (rnd_cases _ _ (div_rnd _ m e Ha)) as [H|H]; [left; exact H|right; left; exact H].
  - destruct Ha as [Ha|Ha]; [|rewrite Ha; right; right; reflexivity].
    left; destruct (Prim2SF a) as [s|s| |[] ma ea]; simpl in Ha; try contradiction; exact I.
Qed.

End Signs.

(* ------------------------------------------------------------------ *)
(** ** The total, [norm_pmf] and [mean] of a constructed distribution *)

Section Totals.

Lemma total_plus_zero (x : float) :
  (exists m e, Prim2SF x = S754_finite false m e) \/ Prim2SF x = S754_infinity false ->
  (x + 0)%float = x.
Proof.
  intros Hx; apply FloatAxioms.Prim2SF_inj; rewrite FloatAxioms.add_spec, Prim2SF_zero.
  destruct Hx as [(m & e & ->)| ->]; reflexivity.
Qed.

Lemma zero_div_total (x : float) :
  (exists m e, Prim2SF x = S754_finite false m e) \/ Prim2SF x = S754_infinity false ->
  (0 / x)%float = 0%float.
Proof.
  intros Hx; apply FloatAxioms.Prim2SF_inj; rewrite FloatAxioms.div_spec, Prim2SF_zero.
  destruct Hx as [(m & e & ->)| ->]; reflexivity.
Qed.

Lemma acc_plus_zero (x : float) : acc_sign (Prim2SF x) -> (x + 0)%float = x.
Proof.
  intros Hx; apply FloatAxioms.Prim2SF_inj; rewrite FloatAxioms.add_spec, Prim2SF_zero.
  destruct Hx as [->|[(m & e & ->)|[->| ->]]]; reflexivity.
Qed.

Lemma usize_as_f64_pos (n : nat) :
  0 < n -> (Z.of_nat n <= usize_max)%Z ->
  exists m e, Prim2SF (usize_as_f64 n) = S754_finite false m e.
Proof.
  intros Hn Hmax; apply nonneg_not_zero; [apply usize_as_f64_finite; exact Hmax|intros s].
  apply (rnd_not_zero (INR n)); [apply usize_as_f64_rnd|].
  apply Rle_trans with 1%R; [|apply (le_INR 1); lia].
  rewrite <- bpow_0; apply bpow_le; lia.
Qed.

Lemma usize_mul_zero (n : nat) :
  0 < n -> (Z.of_nat n <= usize_max)%Z -> (usize_as_f64 n * 0)%float = 0%float.
Proof.
  intros Hn Hmax; destruct (usize_as_f64_pos n Hn Hmax) as (m & e & He).
  apply FloatAxioms.Prim2SF_inj; rewrite FloatAxioms.mul_spec, He, Prim2SF_zero; reflexivity.
Qed.

Lemma combine_snoc {A B : Type} (a : list A) (b : list B) (x : A) (y : B) :
  length a = length b -> combine (a ++ [x]) (b ++ [y]) = combine a b ++ [(x, y)].
Proof.
  revert b; induction a as [|u a IH]; intros [|v b] Hl; simpl in Hl; try discriminate;
    [reflexivity|simpl; rewrite IH by lia; reflexivity].
Qed.

Lemma valid_snoc_zero (w : list float) :
  is_valid_prob_mass w = true -> is_valid_prob_mass (w ++ [0%float]) = true.
Proof.
  unfold is_valid_prob_mass; rewrite existsb_app, forallb_app.
  intros H; apply andb_prop in H as [H1 H2].
  apply negb_true_iff in H1, H2; rewrite H1, H2; reflexivity.
Qed.

Lemma left_sum_snoc (w : list float) (x : float) :
  w <> [] -> left_sum (w ++ [x]) = (left_sum w + x)%float.
Proof.
  destruct w as [|y r]; [congruence|intros _; simpl; rewrite fold_left_app; reflexivity].
Qed.

Lemma prefix_sum_app_lt (w v : list float) (i : nat) :
  i < length w -> prefix_sum (w ++ v) i = prefix_sum w i.
Proof.
  intros Hi; unfold prefix_sum; rewrite firstn_app.
  replace (S i - length w) with 0 by lia; rewrite app_nil_r; reflexivity.
Qed.

Variable w : list float.
Variable d : Categorical.
Hypothesis Hnew : new w = Ok d.

(** The total [cdf[k-1]] is a positive finite number or [+inf]. *)
Lemma total_cases :
  (exists m e, Prim2SF (cdf_max d) = S754_finite false m e) \/
  Prim2SF (cdf_max d) = S754_infinity false.
Proof.
  pose proof (weights_nonempty w d Hnew) as Hne.
  pose proof (total_nonzero w d Hnew) as Hz.
  destruct (cum_nonneg w d Hnew (length w - 1) ltac:(lia)) as [H|H];
    rewrite <- (cdf_max_last w d Hnew) in H; [left|right; exact H].
  rewrite FloatAxioms.eqb_spec, Prim2SF_zero in Hz.
  destruct (Prim2SF (cdf_max d)) as [s|s| |[] m e]; simpl in H; try contradiction.
  - destruct s; discriminate.
  - exists m, e; reflexivity.
Qed.

Lemma norm_pmf_nth (j : nat) :
  j < length w -> nth j (norm_pmf d) 0%float = (nth j w 0%float / cdf_max d)%float.
Proof.
  intros Hj; destruct (new_ok_shape w d Hnew) as (_ & _ & Hp).
  rewrite Hp, nth_map_seq by exact Hj; rewrite (left_sum_total w d Hnew); reflexivity.
Qed.

Lemma norm_pmf_length : length (norm_pmf d) = length w.
Proof.
  destruct (new_ok_shape w d Hnew) as (_ & _ & Hp); rewrite Hp, length_map, length_seq; reflexivity.
Qed.

Lemma mean_acc_sign : acc_sign (Prim2SF (mean d)).
Proof.
  rewrite mean_eq_by_index; unfold mean_by_index; rewrite norm_pmf_length.
  assert (Hgen : forall l acc, acc_sign (Prim2SF acc) -> (forall i, In i l -> i < length w) ->
            acc_sign (Prim2SF (fold_left (fun acc i =>
              (acc + usize_as_f64 i * nth i (norm_pmf d) 0)%float) l acc))).
  { induction l as [|i l IH]; intros acc Ha Hl; [exact Ha|simpl].
    apply IH; [|intros j Hj; apply Hl; right; exact Hj].
    apply add_acc_sign; [exact Ha|apply mul_no_neg].
    - destruct (rnd_cases _ _ (usize_as_f64_rnd i)) as [H|H]; [left; exact H|right; left; exact H].
    - rewrite norm_pmf_nth by (apply Hl; left; reflexivity).
      apply div_no_neg; [apply (weight_nonneg w d Hnew)|exact total_cases]. }
  apply Hgen; [left; reflexivity|intros i Hi; apply in_seq in Hi; lia].
Qed.

Hypothesis Hfin : is_finite (cdf_max d) = true.

(** [norm_pmf[j]] is a non-negative number at most [1]. *)
Lemma norm_pmf_le_one (j : nat) :
  j < length w ->
  nonneg_sf (Prim2SF (nth j (norm_pmf d) 0%float)) /\ (f64_value (nth j (norm_pmf d) 0%float) <= 1)%R.
Proof.
  intros Hj; rewrite norm_pmf_nth by exact Hj.
  destruct (total_finite_pos w d Hnew Hfin) as (mS & eS & HS).
  destruct (cum_finite w d Hnew j Hfin Hj) as [Hc Hw].
  assert (HSp : (0 < f64_value (cdf_max d))%R) by (unfold f64_value; rewrite HS; apply SF_val_pos_lt).
  assert (Hr : rnd (f64_value (nth j w 0%float) / f64_value (cdf_max d))
                   (Prim2SF (nth j w 0%float / cdf_max d)%float)).
  { rewrite FloatAxioms.div_spec; unfold SF64div, f64_value at 2; rewrite HS.
    apply div_rnd; exact Hw. }
  assert (Hle : (f64_value (nth j w 0%float) <= f64_value (cdf_max d))%R).
  { destruct (weight_le_cum w d Hnew j Hj) as [Hi|(_ & _ & H)].
    - rewrite Hi in Hc; contradiction.
    - pose proof (cum_le_total w d Hnew Hfin j Hj); lra. }
  assert (Hz : (f64_value (nth j w 0%float) / f64_value (cdf_max d) <= SF_val (Prim2SF 1%float))%R).
  { fold (f64_value 1%float); rewrite f64_value_one.
    unfold Rdiv; apply (Rmult_le_reg_r (f64_value (cdf_max d))); [exact HSp|].
    rewrite Rmult_assoc, Rinv_l by lra; lra. }
  destruct (rnd_le _ _ _ Hr nonneg_sf_one Hz) as [Hn Hv].
  split; [exact Hn|]; unfold f64_value at 1; rewrite <- f64_value_one; exact Hv.
Qed.

(** [cdf[k-1] / cdf[k-1]] is exactly [1.0]. *)
Lemma total_div_total : (cdf_max d / cdf_max d)%float = 1%float.
Proof.
  destruct (total_finite_pos w d Hnew Hfin) as (mS & eS & HS).
  apply FloatAxioms.Prim2SF_inj; rewrite FloatAxioms.div_spec, HS; unfold SF64div.
  assert (HSn : nonneg_sf (S754_finite false mS eS)).
  { pose proof (FloatAxioms.Prim2SF_valid (cdf_max d)) as Hv; rewrite HS in Hv.
    exact (valid_finite _ _ _ Hv). }
  pose proof (div_rnd _ mS eS HSn) as Hr.
  rewrite Rdiv_diag in Hr by (pose proof (SF_val_pos_lt mS eS); lra).
  rewrite <- f64_value_one in Hr; unfold f64_value in Hr.
  destruct (rnd_exact_val _ _ nonneg_sf_one Hr) as [Hn Hv].
  destruct (nonneg_val_eq _ _ Hn nonneg_sf_one Hv) as [(s & t & _ & Ht)|He]; [|exact He].
  rewrite Prim2SF_one in Ht; discriminate.
Qed.

End Totals.

(* ------------------------------------------------------------------ *)
(** ** [cdf] and [sample] on a distribution with a finite total *)

Section Queries.

(** On [[0, k]], [cdf(x)] is [1.0] at [k] and [cdf[floor x] / cdf[k-1]]
    below it. *)
Lemma cdf_at_cases (d : Categorical) (z : float) :
  (Z.of_nat (length (cdf d)) <= usize_max)%Z -> nonneg_sf (Prim2SF z) ->
  (f64_value z <= f64_value (usize_as_f64 (length (cdf d))))%R ->
  (f64_value z = f64_value (usize_as_f64 (length (cdf d))) /\ cdf_at d z = Ret 1%float) \/
  ((f64_value z < f64_value (usize_as_f64 (length (cdf d))))%R /\
   f64_as_usize z < length (cdf d) /\
   (INR (f64_as_usize z) <= f64_value z < INR (f64_as_usize z) + 1)%R /\
   cdf_at d z = Ret (nth (f64_as_usize z) (cdf d) 0 / cdf_max d)%float).
Proof.
  intros Hn Hz Hle; pose proof (usize_as_f64_finite _ Hn) as HK.
  destruct (Rle_lt_or_eq_dec _ _ Hle) as [Hlt|Heq].
  - right; split; [exact Hlt|]; exact (cdf_at_below d z Hn Hz Hlt).
  - left; split; [exact Heq|].
    assert (H0 : (0 <=? z)%float = true)
      by (apply leb_nonneg; [exact nonneg_sf_zero_float|exact Hz|
                             rewrite f64_value_zero; apply nonneg_sf_val; exact Hz]).
    assert (H1 : (z <=? usize_as_f64 (length (cdf d)))%float = true)
      by (apply leb_nonneg; [exact Hz|exact HK|lra]).
    assert (H2 : (z =? usize_as_f64 (length (cdf d)))%float = true)
      by (apply eqb_nonneg; [exact Hz|exact HK|exact Heq]).
    unfold cdf_at; cbv zeta; rewrite H0, H1, H2; reflexivity.
Qed.

(** [x] with [a <= x <= K] for a non-negative [a] and a finite [K]. *)
Lemma between_nonneg (a x K : float) :
  nonneg_sf (Prim2SF a) -> nonneg_sf (Prim2SF K) -> ((a <=? x) && (x <=? K))%float = true ->
  nonneg_sf (Prim2SF x) /\ (f64_value a <= f64_value x <= f64_value K)%R.
Proof.
  intros Ha HK H; apply andb_prop in H as [Hax HxK].
  destruct (leb_from_nonneg _ _ Ha Hax) as [Hx|Hxi];
    [|rewrite (inf_not_leb _ _ Hxi HK) in HxK; discriminate].
  split; [exact Hx|split].
  - apply leb_nonneg; assumption.
  - apply leb_nonneg; assumption.
Qed.

(** [u1 <= u2 <= 1] gives [u1 * S <= u2 * S] for a non-negative finite [S]. *)
Lemma draw_mono (u1 u2 S : float) :
  nonneg_sf (Prim2SF u1) -> nonneg_sf (Prim2SF u2) -> nonneg_sf (Prim2SF S) ->
  (f64_value u1 <= f64_value u2 <= 1)%R ->
  nonneg_sf (Prim2SF (u1 * S)%float) /\ nonneg_sf (Prim2SF (u2 * S)%float) /\
  (f64_value (u1 * S)%float <= f64_value (u2 * S)%float)%R.
Proof.
  intros H1 H2 HS Hle.
  pose proof (mul_nonneg _ _ H1 HS) as R1; pose proof (mul_nonneg _ _ H2 HS) as R2.
  pose proof (nonneg_sf_val _ HS); pose proof (nonneg_sf_val _ H1); pose proof (nonneg_sf_val _ H2).
  destruct (Rle_lt_or_eq_dec _ _ (proj1 Hle)) as [Hlt|Heq].
  - destruct (Rle_lt_or_eq_dec _ _ (nonneg_sf_val _ HS)) as [HSp|HS0].
    + destruct R1 as [[-> Hall]|[N1 _]]; [exfalso; specialize (Hall _ HS);
        fold (f64_value S) in Hall; unfold f64_value in *; nra|].
      destruct R2 as [[-> Hall]|[N2 _]]; [exfalso; specialize (Hall _ HS);
        fold (f64_value S) in Hall; unfold f64_value in *; nra|].
      split; [exact N1|split; [exact N2|]].
      apply (rnd_mono (f64_value u1 * f64_value S) (f64_value u2 * f64_value S));
        [unfold f64_value in *; nra|apply mul_nonneg; assumption|apply mul_nonneg; assumption
        |exact N1|exact N2].
    + assert (Z : forall u, nonneg_sf (Prim2SF u) ->
                nonneg_sf (Prim2SF (u * S)%float) /\ f64_value (u * S)%float = 0%R).
      { intros u Hu; pose proof (mul_nonneg _ _ Hu HS) as R.
        unfold f64_value in R, HS0 |- *; rewrite <- HS0 in R.
        replace (SF_val (Prim2SF u) * 0)%R with (SF_val (Prim2SF 0%float)) in R
          by (rewrite Prim2SF_zero, SF_val_zero; ring).
        destruct (rnd_exact_val _ _ nonneg_sf_zero_float R) as [N V].
        split; [exact N|rewrite V, Prim2SF_zero; apply SF_val_zero]. }
      destruct (Z u1 H1) as [N1 V1]; destruct (Z u2 H2) as [N2 V2].
      split; [exact N1|split; [exact N2|lra]].
  - destruct (nonneg_val_eq _ _ H1 H2 Heq) as [(s & t & E1 & E2)|E].
    + assert (Z : forall u s, Prim2SF u = S754_zero s ->
                nonneg_sf (Prim2SF (u * S)%float) /\ f64_value (u * S)%float = 0%R).
      { intros u s' Hu; unfold f64_value; rewrite FloatAxioms.mul_spec, Hu; unfold SF64mul.
        destruct (Prim2SF S) as [s0|s0| |[] m e]; simpl in HS; try contradiction;
          split; first [exact I | reflexivity]. }
      destruct (Z u1 s E1) as [N1 V1]; destruct (Z u2 t E2) as [N2 V2].
      split; [exact N1|split; [exact N2|lra]].
    + assert (u1 = u2) as -> by (apply FloatAxioms.Prim2SF_inj; exact E).
      destruct (rnd_le _ _ _ R2 HS ltac:(fold (f64_value S); unfold f64_value in *; nra)) as [N _].
      split; [exact N|split; [exact N|lra]].
Qed.

Variable w : list float.
Variable d : Categorical.
Hypothesis Hnew : new w = Ok d.
Hypothesis Hfin : is_finite (cdf_max d) = true.

(** With a finite total, [sample] on [u] in [[0, 1)] returns the first index
    [i] whose cumulative value is not zero and not below [draw]. *)
Lemma sample_index_char (u : float) :
  ((0 <=? u) && (u <? 1))%float = true ->
  exists i, sample_index d u = Ret i /\ i < length w /\
    (f64_value (u * cdf_max d)%float <= f64_value (nth i (cdf d) 0%float))%R /\
    (0 < f64_value (nth i (cdf d) 0%float))%R /\
    (forall j, j < i -> f64_value (nth j (cdf d) 0%float) = 0%R \/
                        (f64_value (nth j (cdf d) 0%float) < f64_value (u * cdf_max d)%float)%R).
Proof.
  intros Hu.
  pose proof (weights_nonempty w d Hnew) as Hne.
  pose proof (cdf_length w d Hnew) as Hlen.
  pose proof (cum_finite w d Hnew) as Hcf.
  assert (HS : nonneg_sf (Prim2SF (cdf_max d)))
    by (rewrite (cdf_max_last w d Hnew); apply (Hcf (length w - 1) Hfin); lia).
  destruct (unit_cases u Hu) as [Hunn [Hu0 Hu1]].
  set (draw := (u * cdf_max d)%float).
  pose proof (mul_nonneg u (cdf_max d) Hunn HS) as Hdr; fold draw in Hdr.
  assert (Hdle : (f64_value u * f64_value (cdf_max d) <= SF_val (Prim2SF (cdf_max d)))%R).
  { pose proof (nonneg_sf_val _ HS); unfold f64_value in *; nra. }
  destruct (rnd_le _ _ _ Hdr HS Hdle) as [Hdn _].
  assert (Hc : forall j, j < length w -> nonneg_sf (Prim2SF (nth j (cdf d) 0%float)))
    by (intros j Hj; apply (Hcf j Hfin Hj)).
  unfold sample_index; cbv zeta; fold draw.
  destruct ((draw =? 0)%float) eqn:Ed.
  - destruct (eqb_zero_is_zero _ Ed) as [s Hs].
    assert (Hd0 : f64_value draw = 0%R) by (unfold f64_value; rewrite Hs; apply SF_val_zero).
    destruct (skip_zero_probs_spec (cdf d) 0) as (i & Hr & Hi & Hnz & Hb).
    { exists (length w - 1); split; [lia|].
      rewrite <- (cdf_max_last w d Hnew); exact (total_nonzero w d Hnew). }
    rewrite Hr; simpl (0 + i).
    destruct (search_cdf_spec draw (skipn i (cdf d)) i) as (i' & Hr' & Hi' & _ & Hb').
    { exists 0; split; [rewrite length_skipn; lia|]; rewrite nth_skipn, Nat.add_0_r.
      apply (ltb_zero_false _ _ s); [left; apply Hc; lia|exact Hs]. }
    destruct i' as [|i'].
    2:{ specialize (Hb' 0 ltac:(lia)); rewrite nth_skipn, Nat.add_0_r in Hb'.
        rewrite (ltb_zero_false _ _ s) in Hb'; [discriminate| |exact Hs].
        left; apply Hc; lia. }
    rewrite Hr', Nat.add_0_r; exists i.
    split; [reflexivity|]; split; [lia|].
    pose proof (nonneg_sf_val _ (Hc i ltac:(lia))) as Hci.
    split; [unfold f64_value at 2; lra|]; split.
    + destruct (Rle_lt_or_eq_dec _ _ Hci) as [H|H]; [exact H|exfalso].
      assert (E : (nth i (cdf d) 0 =? 0)%float = true)
        by (apply eqb_nonneg; [apply Hc; lia|exact nonneg_sf_zero_float|
                              rewrite f64_value_zero; symmetry; exact H]).
      congruence.
    + intros j Hj; left; specialize (Hb j Hj).
      apply eqb_nonneg in Hb; [|apply Hc; lia|exact nonneg_sf_zero_float].
      rewrite Hb; exact f64_value_zero.
  - destruct (search_cdf_spec draw (cdf d) 0) as (i & Hr & Hi & Hstop & Hb).
    { exists (length w - 1); split; [lia|].
      rewrite <- (cdf_max_last w d Hnew); apply draw_not_above; [exact Hunn|exact Hu1|left; exact HS]. }
    cbn [skipn]; rewrite Hr; exists i.
    assert (Hge : (f64_value draw <= f64_value (nth i (cdf d) 0%float))%R).
    { destruct (Rle_or_lt (f64_value draw) (f64_value (nth i (cdf d) 0%float))) as [H|H]; [exact H|].
      apply ltb_nonneg in H; [congruence|apply Hc; lia|exact Hdn]. }
    assert (Hdpos : (0 < f64_value draw)%R).
    { destruct (Rle_lt_or_eq_dec _ _ (nonneg_sf_val _ Hdn)) as [H|H]; [exact H|].
      assert ((draw =? 0)%float = true)
        by (apply eqb_nonneg; [exact Hdn|exact nonneg_sf_zero_float|rewrite f64_value_zero; auto]).
      congruence. }
    split; [reflexivity|]; split; [lia|]; split; [exact Hge|]; split; [lra|].
    intros j Hj; right; specialize (Hb j Hj).
    apply ltb_nonneg in Hb; [exact Hb|apply Hc; lia|exact Hdn].
Qed.

End Queries.

(* ------------------------------------------------------------------ *)
Section Frame.

Lemma leaves_ret {A : Type} (a : A) : leaves_fields (st_ret a).
Proof. intros m a' m' E; injection E; intros <- _; auto. Qed.

Lemma leaves_panic {A : Type} : leaves_fields (@st_panic A).
Proof. intros m a m' E; discriminate. Qed.

Lemma leaves_ub {A : Type} : leaves_fields (@st_ub A).
Proof. intros m a m' E; discriminate. Qed.

Lemma leaves_bind {A B : Type} (c : ST A) (k : A -> ST B) :
  leaves_fields c -> (forall a, leaves_fields (k a)) -> leaves_fields (st_bind c k).
Proof.
  intros Hc Hk m b m'; unfold st_bind.
  destruct (c m) as [[a m1]| |] eqn:E; try discriminate.
  intros Ek; destruct (Hk a m1 b m' Ek) as [H1 H2]; destruct (Hc m a m1 E) as [H3 H4].
  split; congruence.
Qed.

Lemma leaves_if {A : Type} (b : bool) (c1 c2 : ST A) :
  leaves_fields c1 -> leaves_fields c2 -> leaves_fields (if b then c1 else c2).
Proof. destruct b; auto. Qed.

Lemma leaves_cdf_len : leaves_fields cdf_len.
Proof. intros m a m' E; injection E; intros <- _; auto. Qed.

Lemma leaves_cdf_get_unchecked i : leaves_fields (cdf_get_unchecked i).
Proof.
  intros m a m'; unfold cdf_get_unchecked.
  destruct (nth_error _ i); [intros E; injection E; intros <- _; auto | discriminate].
Qed.

Lemma leaves_norm_pmf_len : leaves_fields norm_pmf_len.
Proof. intros m a m' E; injection E; intros <- _; auto. Qed.

Lemma leaves_norm_pmf_item i : leaves_fields (norm_pmf_item i).
Proof.
  intros m a m'; unfold norm_pmf_item.
  destruct (nth_error _ i); [intros E; injection E; intros <- _; auto | discriminate].
Qed.

Lemma leaves_get_draw : leaves_fields get_draw.
Proof. intros m a m' E; injection E; intros <- _; auto. Qed.
Lemma leaves_get_idx : leaves_fields get_idx.
Proof. intros m a m' E; injection E; intros <- _; auto. Qed.
Lemma leaves_get_el : leaves_fields get_el.
Proof. intros m a m' E; injection E; intros <- _; auto. Qed.
Lemma leaves_get_acc : leaves_fields get_acc.
Proof. intros m a m' E; injection E; intros <- _; auto. Qed.
Lemma leaves_set_draw x : leaves_fields (set_draw x).
Proof. intros m a m' E; injection E; intros <- _; auto. Qed.
Lemma leaves_set_idx i : leaves_fields (set_idx i).
Proof. intros m a m' E; injection E; intros <- _; auto. Qed.
Lemma leaves_set_el x : leaves_fields (set_el x).
Proof. intros m a m' E; injection E; intros <- _; auto. Qed.
Lemma leaves_set_acc x : leaves_fields (set_acc x).
Proof. intros m a m' E; injection E; intros <- _; auto. Qed.

Create HintDb frame.
#[local] Hint Resolve leaves_ret leaves_panic leaves_ub leaves_cdf_len
  leaves_cdf_get_unchecked leaves_norm_pmf_len leaves_norm_pmf_item
  leaves_get_draw leaves_get_idx leaves_get_el leaves_get_acc
  leaves_set_draw leaves_set_idx leaves_set_el leaves_set_acc : frame.

Ltac frame :=
  repeat first
    [ apply leaves_bind; [| intros ?]
    | apply leaves_if
    | solve [eauto with frame] ].

Lemma leaves_cdf_max_st : leaves_fields cdf_max_st.
Proof. unfold cdf_max_st; frame. Qed.

Lemma leaves_skip_zero_loop f : leaves_fields (skip_zero_loop f).
Proof. induction f; simpl; frame. Qed.

Lemma leaves_search_loop f : leaves_fields (search_loop f).
Proof. induction f; simpl; frame. Qed.

Lemma leaves_mean_fold idxs : leaves_fields (mean_fold idxs).
Proof. induction idxs; simpl; frame. Qed.

#[local] Hint Resolve leaves_cdf_max_st leaves_skip_zero_loop leaves_search_loop
  leaves_mean_fold : frame.

Lemma leaves_Distribution_sample_st {R : Type} `{Rng R} (r : R) :
  leaves_fields (Distribution_sample_st r).
Proof. unfold Distribution_sample_st; destruct (next_f64 r); frame. Qed.

Lemma leaves_cdf_st x : leaves_fields (cdf_st x).
Proof. unfold cdf_st; frame. Qed.

Lemma leaves_mean_st : leaves_fields mean_st.
Proof. unfold mean_st; frame. Qed.

Lemma leaves_min_st : leaves_fields min_st.
Proof. unfold min_st; frame. Qed.

Lemma leaves_max_st : leaves_fields max_st.
Proof. unfold max_st; frame. Qed.

End Frame.

Section Agree.

Ltac step :=
  unfold st_bind, st_ret, get_el, get_idx, get_draw, get_acc, set_idx, set_el,
    set_draw, set_acc, cdf_len, norm_pmf_len, cdf_get_unchecked, norm_pmf_item;
  cbv beta iota zeta delta [m_self m_draw m_idx m_el m_acc].

Lemma skipn_nth_cons (l : list float) i :
  i < length l -> skipn i l = nth i l 0%float :: skipn (S i) l.
Proof.
  revert l; induction i as [|i IH]; intros [|x l] Hi; simpl in *; try lia; auto.
  apply IH; lia.
Qed.

Lemma skip_zero_probs_range rest k j :
  skip_zero_probs rest k = Ret j -> k <= j < k + length rest.
Proof.
  revert k; induction rest as [|x rest IH]; intros k; simpl; [discriminate|].
  destruct (x =? 0)%float; [intros E; specialize (IH _ E); lia|].
  intros E; injection E; lia.
Qed.

Lemma skip_zero_loop_spec f d draw i acc :
  i < length (cdf d) -> length (cdf d) - i <= f ->
  skip_zero_loop f (mkMem d draw i (nth i (cdf d) 0%float) acc) =
  outcome_map (fun j => (tt, mkMem d draw j (nth j (cdf d) 0%float) acc))
    (skip_zero_probs (skipn i (cdf d)) i).
Proof.
  revert i; induction f as [|f IH]; intros i Hi Hf; [lia|].
  rewrite (skipn_nth_cons _ _ Hi); cbn [skip_zero_probs].
  cbn [skip_zero_loop]; step.
  destruct (nth i (cdf d) 0 =? 0)%float; [|reflexivity].
  step.
  destruct (Nat.lt_ge_cases (S i) (length (cdf d))) as [Hl|Hl].
  - rewrite (nth_error_nth' _ 0%float Hl); step.
    apply IH; lia.
  - rewrite (proj2 (nth_error_None _ _) Hl), (skipn_all2 _ Hl); reflexivity.
Qed.

Lemma search_loop_spec f d draw i acc :
  i < length (cdf d) -> length (cdf d) - i <= f ->
  search_loop f (mkMem d draw i (nth i (cdf d) 0%float) acc) =
  outcome_map (fun j => (tt, mkMem d draw j (nth j (cdf d) 0%float) acc))
    (search_cdf draw (skipn i (cdf d)) i).
Proof.
  revert i; induction f as [|f IH]; intros i Hi Hf; [lia|].
  rewrite (skipn_nth_cons _ _ Hi); cbn [search_cdf].
  cbn [search_loop]; step.
  destruct (nth i (cdf d) 0 <? draw)%float; [|reflexivity].
  step.
  destruct (Nat.lt_ge_cases (S i) (length (cdf d))) as [Hl|Hl].
  - rewrite (nth_error_nth' _ 0%float Hl); step.
    apply IH; lia.
  - rewrite (proj2 (nth_error_None _ _) Hl), (skipn_all2 _ Hl); reflexivity.
Qed.

Lemma cdf_max_st_spec m :
  cdf (m_self m) <> [] -> cdf_max_st m = Ret (cdf_max (m_self m), m).
Proof.
  intros Hne; unfold cdf_max_st, st_bind, cdf_len, cdf_get_unchecked, cdf_max.
  destruct (cdf (m_self m)) as [|c cs] eqn:E; [congruence|].
  rewrite (nth_error_nth' _ 0%float); [reflexivity|simpl; lia].
Qed.

Lemma Distribution_sample_st_run {R : Type} `{Rng R} (r : R) m :
  run (Distribution_sample_st r) m =
  outcome_map (fun v => (v, snd (Distribution_sample (m_self m) r)))
    (fst (Distribution_sample (m_self m) r)).
Proof.
  destruct m as [d draw0 idx0 el0 acc0].
  unfold run, Distribution_sample_st, Distribution_sample, sample_index, cdf_max_st, cdf_max.
  cbv beta iota zeta delta [m_self].
  destruct (next_f64 r) as [u r']; cbn [fst snd].
  step.
  destruct (Nat.eq_dec (length (cdf d)) 0) as [H0|H0].
  { apply length_zero_iff_nil in H0; rewrite H0; cbn.
    destruct (u * 0 =? 0)%float; reflexivity. }
  rewrite (nth_error_nth' (cdf d) 0%float (n := length (cdf d) - 1)) by lia.
  set (X := nth (length (cdf d) - 1) (cdf d) 0%float).
  assert (Hsearch : forall j, j < length (cdf d) ->
    outcome_map fst
      (match search_loop (S (length (cdf d)))
               (mkMem d (u * X)%float j (nth j (cdf d) 0%float) acc0) with
       | Ret (_, m') => Ret ((usize_as_f64 (m_idx m'), r'), m')
       | Panic => Panic
       | UB => UB
       end) =
    outcome_map (fun v => (v, r'))
      (outcome_map usize_as_f64 (search_cdf (u * X)%float (skipn j (cdf d)) j))).
  { intros j Hj; rewrite search_loop_spec by lia.
    destruct (search_cdf _ _ _); reflexivity. }
  destruct (u * X =? 0)%float.
  - rewrite (nth_error_nth' (cdf d) 0%float (n := 0)) by lia.
    rewrite skip_zero_loop_spec by lia; cbn [skipn].
    destruct (skip_zero_probs (cdf d) 0) as [j| |] eqn:Ej; try reflexivity.
    cbn [outcome_map]; apply skip_zero_probs_range in Ej; cbn [m_idx].
    rewrite (nth_error_nth' (cdf d) 0%float (n := j)) by lia.
    rewrite <- Hsearch by lia; reflexivity.
  - rewrite (nth_error_nth' (cdf d) 0%float (n := 0)) by lia.
    rewrite <- Hsearch by lia; reflexivity.
Qed.

Lemma cdf_st_run x m : run (cdf_st x) m = cdf_at (m_self m) x.
Proof.
  destruct m as [d draw0 idx0 el0 acc0].
  unfold run, cdf_st, cdf_at, cdf_max_st, cdf_max, st_panic.
  step.
  destruct (negb _); [reflexivity|].
  destruct (x =? _)%float; [reflexivity|].
  destruct (nth_error (cdf d) (f64_as_usize x)) as [c|] eqn:E; [|reflexivity].
  assert (Hl : f64_as_usize x < length (cdf d)).
  { apply nth_error_Some; congruence. }
  rewrite (nth_error_nth' (cdf d) 0%float (n := length (cdf d) - 1)) by lia.
  reflexivity.
Qed.

Lemma mean_fold_spec (idxs : list nat) d draw idx el acc :
  (forall i, In i idxs -> i < length (norm_pmf d)) ->
  mean_fold idxs (mkMem d draw idx el acc) =
  Ret (tt, mkMem d draw idx el
             (fold_left (fun acc i => (acc + usize_as_f64 i * nth i (norm_pmf d) 0)%float)
                idxs acc)).
Proof.
  revert acc; induction idxs as [|i idxs IH]; intros acc Hin; [reflexivity|].
  cbn [mean_fold]; step.
  rewrite (nth_error_nth' (norm_pmf d) 0%float (n := i)) by (apply Hin; left; reflexivity).
  cbn [fold_left]; apply IH.
  intros k Hk; apply Hin; right; exact Hk.
Qed.

Lemma mean_st_run m : run mean_st m = Ret (mean (m_self m)).
Proof.
  destruct m as [d draw0 idx0 el0 acc0].
  unfold run, mean_st; step.
  rewrite mean_fold_spec by (intros i Hi; apply in_seq in Hi; lia).
  cbv beta iota zeta delta [m_acc outcome_map fst m_self].
  rewrite mean_eq_by_index; reflexivity.
Qed.

Lemma min_st_run m : run min_st m = Ret (min (m_self m)).
Proof. reflexivity. Qed.

Lemma max_st_run m : run max_st m = Ret (max (m_self m)).
Proof. reflexivity. Qed.

End Agree.

(* ================================================================== *)
(** ** The claims *)

(** C1: for every weight sequence accepted by [new], [cdf[i]] is the
    left-to-right prefix sum [weights[0] + ... + weights[i]] and
    [norm_pmf[i] = weights[i] / cdf[k-1]], for every [i < k]. *)
Theorem new_cumulative_and_mass (w : list float) (d : Categorical) :
  new w = Ok d ->
  length (cdf d) = length w /\ length (norm_pmf d) = length w /\
  (forall i, i < length w -> nth_error (cdf d) i = Some (left_sum (firstn (S i) w))) /\
  (forall i, i < length w ->
     nth_error (norm_pmf d) i = Some (nth i w 0 / nth (length w - 1) (cdf d) 0)%float).
Proof.
  intros H; destruct (new_ok_shape w d H) as (Hv & Hc & Hn).
  pose proof (is_valid_nonempty w Hv) as Hne.
  rewrite Hc, Hn, !length_map, !length_seq.
  split; [reflexivity|]; split; [reflexivity|]; split.
  - intros i Hi. rewrite nth_error_map, nth_error_seq.
    destruct (Nat.ltb_spec i (length w)); [reflexivity | lia].
  - intros i Hi. rewrite nth_error_map, nth_error_seq.
    destruct (Nat.ltb_spec i (length w)); [|lia].
    rewrite nth_map_seq by lia.
    now rewrite prefix_sum_last.
Qed.

(** C2: [new] fails with [BadParams] exactly when the input is empty, holds
    a negative value, holds a NaN or is all zeros; any non-empty input of
    non-negative weights that are not all zero is accepted.  The error
    carries no [Categorical]. *)
Theorem new_error_iff (w : list float) :
  ((exists e, new w = Err e) <->
     (w = [] \/ Exists (fun x => (x <? 0)%float = true) w
      \/ Exists (fun x => is_nan x = true) w
      \/ Forall (fun x => (x =? 0)%float = true) w)) /\
  (w <> [] -> Forall (fun x => (0 <=? x)%float = true) w ->
   Exists (fun x => (x =? 0)%float = false) w -> exists d, new w = Ok d).
Proof.
  split.
  - rewrite new_err_invalid; unfold is_valid_prob_mass.
    rewrite andb_false_iff, !negb_false_iff, existsb_exists, forallb_forall,
      Exists_exists, Exists_exists, Forall_forall.
    split.
    + intros [[x [Hx Hb]] | Hall].
      * apply orb_true_iff in Hb as [Hb|Hb].
        -- right; left; eauto.
        -- right; right; left; eauto.
      * right; right; right; exact Hall.
    + intros [-> | [[x [Hx Hb]] | [[x [Hx Hb]] | Hall]]].
      * right; intros x [].
      * left; exists x; rewrite Hb; auto.
      * left; exists x; rewrite Hb, orb_true_r; auto.
      * right; exact Hall.
  - intros Hne Hnn Hnz. apply new_ok_valid; unfold is_valid_prob_mass.
    apply andb_true_iff; split; apply negb_true_iff.
    + apply not_true_iff_false; rewrite existsb_exists; intros [x [Hx Hb]].
      rewrite Forall_forall in Hnn; destruct (leb_zero_nonneg x (Hnn x Hx)) as [H1 H2].
      rewrite H1, H2 in Hb; discriminate.
    + apply not_true_iff_false; rewrite forallb_forall; intros Hall.
      apply Exists_exists in Hnz as [x [Hx Hb]]; rewrite Hall in Hb by exact Hx; discriminate.
Qed.

(** C3: on a distribution built from [k] weights ([k] a [usize]), for
    every [x] with [0 <= x <= k]: [cdf(x)] is exactly [1.0] when [x == k],
    and otherwise it is [cumulative[floor x] / cumulative[k-1]] with
    [floor x < k]; so [cdf] takes on each open interval [(i, i+1)], [i < k],
    the value it takes at [i].  ([x == k] and [x <= k] are the comparisons
    of [x] with [k as f64], as in the source.) *)
Theorem cdf_floor_formula (w : list float) (d : Categorical) :
  new w = Ok d -> (Z.of_nat (length w) <= usize_max)%Z ->
  (forall x : float,
     ((0 <=? x) && (x <=? usize_as_f64 (length w)))%float = true ->
     ((x =? usize_as_f64 (length w))%float = true -> cdf_at d x = Ret 1%float) /\
     ((x =? usize_as_f64 (length w))%float = false ->
      exists i : nat, (INR i <= f64_value x < INR i + 1)%R /\ i < length w /\
        cdf_at d x = Ret (nth i (cdf d) 0 / nth (length w - 1) (cdf d) 0)%float)) /\
  (forall (i : nat) (x : float), i < length w -> (INR i < f64_value x < INR i + 1)%R ->
     cdf_at d x = cdf_at d (usize_as_f64 i)).
Proof.
  intros H Hn; destruct (new_ok_shape w d H) as (_ & Hc & _).
  assert (Hlen : length (cdf d) = length w) by (rewrite Hc, length_map, length_seq; reflexivity).
  assert (Hmax : cdf_max d = nth (length w - 1) (cdf d) 0%float)
    by (unfold cdf_max; rewrite Hlen; reflexivity).
  pose proof (usize_as_f64_finite _ Hn) as HK.
  assert (Hn' : (Z.of_nat (length (cdf d)) <= usize_max)%Z) by (rewrite Hlen; exact Hn).
  split.
  - intros x Hdom; split.
    + intros Heq; unfold cdf_at; cbv zeta; rewrite Hlen, Hdom, Heq; reflexivity.
    + intros Hneq; apply andb_prop in Hdom as [H0 HxK].
      destruct (leb_zero_cases x H0) as [Hx|Hinf];
        [|rewrite (inf_not_leb _ _ Hinf HK) in HxK; discriminate].
      assert (Hlt : (f64_value x < f64_value (usize_as_f64 (length (cdf d))))%R).
      { rewrite Hlen; apply leb_nonneg in HxK; [|exact Hx|exact HK].
        destruct (Rle_lt_or_eq_dec _ _ HxK) as [|He]; [assumption|].
        apply eqb_nonneg in He; [congruence|exact Hx|exact HK]. }
      destruct (cdf_at_below d x Hn' Hx Hlt) as (Hi & Hfl & ->).
      exists (f64_as_usize x); rewrite <- Hmax.
      split; [exact Hfl|split; [rewrite <- Hlen; exact Hi|reflexivity]].
  - intros i x Hi Hx.
    assert (Hxpos : (0 < f64_value x)%R) by (pose proof (pos_INR i); lra).
    pose proof (pos_nonneg x Hxpos) as Hxnn.
    assert (Hi53 : (Z.of_nat i < 2 ^ 53)%Z).
    { destruct (Z.lt_ge_cases (Z.of_nat i) (2 ^ 53)) as [|Hge]; [assumption|exfalso].
      assert (Hb : (bpow 53 <= f64_value x)%R).
      { rewrite bpow_IZR by lia; apply Rle_trans with (INR i); [|lra].
        rewrite INR_IZR_INZ; apply IZR_le; exact Hge. }
      destruct (big_float_int x Hxnn Hb) as [z Hz].
      rewrite Hz, INR_IZR_INZ in Hx; destruct Hx as [Hx1 Hx2].
      apply lt_IZR in Hx1; rewrite <- plus_IZR in Hx2; apply lt_IZR in Hx2; lia. }
    destruct (usize_as_f64_exact i ltac:(lia)) as [Hynn Hyv].
    destruct (usize_as_f64_exact (S i) ltac:(lia)) as [HSnn HSv].
    assert (HKge : (INR i + 1 <= f64_value (usize_as_f64 (length (cdf d))))%R).
    { rewrite <- S_INR, <- HSv.
      destruct (rnd_ge _ _ _ (usize_as_f64_rnd (length (cdf d))) HSnn) as [HKinf|[_ Hge]].
      - change (f64_value (usize_as_f64 (S i)) <= INR (length (cdf d)))%R.
        rewrite HSv; apply le_INR; lia.
      - rewrite Hlen in HKinf; rewrite HKinf in HK; contradiction.
      - exact Hge. }
    destruct (cdf_at_below d x Hn' Hxnn ltac:(lra)) as (_ & Hfx & ->).
    destruct (cdf_at_below d (usize_as_f64 i) Hn' Hynn ltac:(lra)) as (_ & Hfy & ->).
    rewrite Hyv in Hfy.
    assert (Hix : f64_as_usize x = i) by (apply (floor_unique _ _ (f64_value x)); [exact Hfx|lra]).
    assert (Hiy : f64_as_usize (usize_as_f64 i) = i)
      by (apply (floor_unique _ _ (INR i)); [exact Hfy|lra]).
    rewrite Hix, Hiy; reflexivity.
Qed.

(** C5: on a distribution built by [new] (so with a weight that is not
    zero), for every uniform value [u] in [[0, 1)] both loops of [sample]
    stop inside the cumulative array: [sample] returns an index [< k] and
    no [get_unchecked] reads past the end ([UB] is never reached).  The same
    holds for [Distribution::sample] with any source of randomness whose
    [next_f64] lies in [[0, 1)]. *)
Theorem sample_in_bounds (w : list float) (d : Categorical) :
  new w = Ok d ->
  (forall u : float, ((0 <=? u) && (u <? 1))%float = true ->
     exists i, sample_index d u = Ret i /\ i < length w) /\
  (forall (R : Type) (RR : Rng R) (r : R),
     ((0 <=? fst (next_f64 r)) && (fst (next_f64 r) <? 1))%float = true ->
     exists i, fst (Distribution_sample d r) = Ret (usize_as_f64 i) /\ i < length w).
Proof.
  intros Hnew.
  pose proof (weights_nonempty w d Hnew) as Hne.
  pose proof (cdf_length w d Hnew) as Hlen.
  assert (HS : nonneg_sf (Prim2SF (cdf_max d)) \/ Prim2SF (cdf_max d) = S754_infinity false)
    by (rewrite (cdf_max_last w d Hnew); apply (cum_nonneg w d Hnew); lia).
  assert (Hidx : forall u : float, ((0 <=? u) && (u <? 1))%float = true ->
            exists i, sample_index d u = Ret i /\ i < length w).
  { intros u Hu; destruct (unit_cases u Hu) as [Hunn [Hu0 Hu1]].
    unfold sample_index; cbv zeta.
    destruct ((u * cdf_max d =? 0)%float) eqn:Ed.
    - destruct (eqb_zero_is_zero _ Ed) as [s Hs].
      destruct (skip_zero_probs_spec (cdf d) 0) as (i & Hr & Hi & _ & _).
      { exists (length w - 1); split; [lia|].
        rewrite <- (cdf_max_last w d Hnew); exact (total_nonzero w d Hnew). }
      rewrite Hr; simpl (0 + i).
      destruct (search_cdf_spec (u * cdf_max d) (skipn i (cdf d)) i) as (i' & Hr' & Hi' & _).
      { exists 0; split; [rewrite length_skipn; lia|]; rewrite nth_skipn, Nat.add_0_r.
        apply (ltb_zero_false _ _ s); [apply (cum_nonneg w d Hnew); lia|exact Hs]. }
      rewrite Hr'; exists (i + i'); split; [reflexivity|]; rewrite length_skipn in Hi'; lia.
    - destruct (search_cdf_spec (u * cdf_max d) (cdf d) 0) as (i & Hr & Hi & _).
      { exists (length w - 1); split; [lia|].
        rewrite <- (cdf_max_last w d Hnew); apply draw_not_above; assumption. }
      cbn [skipn]; rewrite Hr; exists i; split; [reflexivity|lia]. }
  split; [exact Hidx|].
  intros R RR r Hu; unfold Distribution_sample.
  destruct (next_f64 r) as [u r']; simpl in Hu |- *.
  destruct (Hidx u Hu) as (i & -> & Hi); exists i; split; [reflexivity|exact Hi].
Qed.

(** C4 (counterexample): with weights [[0, 2^1023, 2^1023]] the total
    [cdf[2]] overflows to [+inf]; for the uniform value [u = 0] the draw is
    [0 * inf = NaN], [NaN == 0.0] is false, [draw > cdf[0]] is false, and
    [sample] returns index [0], whose weight is zero. *)
Lemma sample_zero_weight_counterexample :
  exists d, new [0; 0x1p1023; 0x1p1023]%float = Ok d /\
    ((0 <=? 0) && (0 <? 1))%float = true /\
    sample_index d 0%float = Ret 0 /\
    (nth 0 [0; 0x1p1023; 0x1p1023]%float 0%float =? 0)%float = true.
Proof.
  eexists; split; [vm_compute; reflexivity|].
  split; [reflexivity|split; vm_compute; reflexivity].
Qed.

(** C4 (amended): for a constructed distribution whose total
    [cdf[k-1]] is finite and every [u] in [[0, 1)], [sample] with
    [draw = u * cdf[k-1]] returns an index [i < k] such that
    [draw <= cdf[i]]; when [draw == 0.0] every earlier category has
    weight zero (the skipped leading zero-weight categories), otherwise
    [draw > cdf[j]] for every [j < i] (the first index with
    [draw <= cdf[i]]); and the weight of category [i] is not zero. *)
Theorem sample_first_nonzero_index (w : list float) (d : Categorical) (u : float) :
  new w = Ok d -> is_finite (cdf_max d) = true -> ((0 <=? u) && (u <? 1))%float = true ->
  exists i, sample_index d u = Ret i /\ i < length w /\
    (u * cdf_max d <=? nth i (cdf d) 0)%float = true /\
    (if (u * cdf_max d =? 0)%float
     then forall j, j < i -> (nth j w 0 =? 0)%float = true
     else forall j, j < i -> (nth j (cdf d) 0 <? u * cdf_max d)%float = true) /\
    (nth i w 0 =? 0)%float = false.
Proof.
  intros Hnew Hfin Hu.
  pose proof (weights_nonempty w d Hnew) as Hne.
  pose proof (cdf_length w d Hnew) as Hlen.
  pose proof (cum_finite w d Hnew) as Hcf.
  assert (HS : nonneg_sf (Prim2SF (cdf_max d)))
    by (rewrite (cdf_max_last w d Hnew); apply (Hcf (length w - 1) Hfin); lia).
  destruct (unit_cases u Hu) as [Hunn [Hu0 Hu1]].
  set (draw := (u * cdf_max d)%float).
  pose proof (mul_nonneg u (cdf_max d) Hunn HS) as Hdr; fold draw in Hdr.
  assert (Hdle : (f64_value u * f64_value (cdf_max d) <= SF_val (Prim2SF (cdf_max d)))%R).
  { pose proof (nonneg_sf_val _ HS); unfold f64_value in *; nra. }
  destruct (rnd_le _ _ _ Hdr HS Hdle) as [Hdn _].
  unfold sample_index; cbv zeta; fold draw.
  destruct ((draw =? 0)%float) eqn:Ed.
  - destruct (eqb_zero_is_zero _ Ed) as [s Hs].
    assert (Hd0 : f64_value draw = 0%R) by (unfold f64_value; rewrite Hs; apply SF_val_zero).
    destruct (skip_zero_probs_spec (cdf d) 0) as (i & Hr & Hi & Hnz & Hb).
    { exists (length w - 1); split; [lia|].
      rewrite <- (cdf_max_last w d Hnew); exact (total_nonzero w d Hnew). }
    rewrite Hr; simpl (0 + i).
    destruct (search_cdf_spec draw (skipn i (cdf d)) i) as (i' & Hr' & Hi' & _ & Hb').
    { exists 0; split; [rewrite length_skipn; lia|]; rewrite nth_skipn, Nat.add_0_r.
      apply (ltb_zero_false _ _ s); [left; apply (Hcf i Hfin); lia|exact Hs]. }
    destruct i' as [|i'].
    2:{ specialize (Hb' 0 ltac:(lia)); rewrite nth_skipn, Nat.add_0_r in Hb'.
        rewrite (ltb_zero_false _ _ s) in Hb'; [discriminate| |exact Hs].
        left; apply (Hcf i Hfin); lia. }
    rewrite Hr', Nat.add_0_r; exists i.
    assert (Hc : forall j, j < length w -> (nth j (cdf d) 0 =? 0)%float = true ->
              f64_value (nth j (cdf d) 0%float) = 0%R).
    { intros j Hj H; apply eqb_nonneg in H; [|apply (Hcf j Hfin Hj)|exact nonneg_sf_zero_float].
      rewrite H; exact f64_value_zero. }
    split; [reflexivity|]; split; [lia|]; split.
    { apply leb_nonneg; [exact Hdn|apply (Hcf i Hfin); lia|].
      rewrite Hd0; apply nonneg_sf_val; apply (Hcf i Hfin); lia. }
    split.
    + intros j Hj.
      destruct (weight_le_cum w d Hnew j ltac:(lia)) as [Hinf|(Hw & Hcj & Hle)].
      { exfalso; destruct (Hcf j Hfin ltac:(lia)) as [Hn _]; rewrite Hinf in Hn; exact Hn. }
      apply eqb_nonneg; [exact Hw|exact nonneg_sf_zero_float|].
      rewrite f64_value_zero; rewrite (Hc j ltac:(lia) (Hb j Hj)) in Hle.
      pose proof (nonneg_sf_val _ Hw); unfold f64_value in *; lra.
    + destruct ((nth i w 0 =? 0)%float) eqn:Ew; [exfalso|reflexivity].
      destruct (Hcf i Hfin ltac:(lia)) as [Hci Hwi].
      apply eqb_nonneg in Ew; [|exact Hwi|exact nonneg_sf_zero_float]; rewrite f64_value_zero in Ew.
      assert (Hci0 : f64_value (nth i (cdf d) 0%float) = 0%R).
      { destruct i as [|i'].
        - rewrite (cdf_nth_0 w d Hnew); exact Ew.
        - pose proof (Hc i' ltac:(lia) (Hb i' ltac:(lia))) as Hp.
          destruct (Hcf i' Hfin ltac:(lia)) as [Hpi _].
          pose proof (add_nonneg _ _ Hpi Hwi) as Hadd.
          rewrite <- (cdf_nth_S w d Hnew i' ltac:(lia)) in Hadd.
          rewrite Hp, Ew, Rplus_0_l in Hadd.
          rewrite <- f64_value_zero in Hadd.
          destruct (rnd_exact_val _ _ nonneg_sf_zero_float Hadd) as [_ Hv].
          unfold f64_value in *; rewrite Hv; exact f64_value_zero. }
      assert (E : (nth i (cdf d) 0 =? 0)%float = true)
        by (apply eqb_nonneg; [exact Hci|exact nonneg_sf_zero_float|rewrite f64_value_zero; exact Hci0]).
      congruence.
  - destruct (search_cdf_spec draw (cdf d) 0) as (i & Hr & Hi & Hstop & Hb).
    { exists (length w - 1); split; [lia|].
      rewrite <- (cdf_max_last w d Hnew); apply draw_not_above; [exact Hunn|exact Hu1|left; exact HS]. }
    cbn [skipn]; rewrite Hr; exists i.
    destruct (Hcf i Hfin ltac:(lia)) as [Hci Hwi].
    assert (Hge : (f64_value draw <= f64_value (nth i (cdf d) 0%float))%R).
    { destruct (Rle_or_lt (f64_value draw) (f64_value (nth i (cdf d) 0%float))) as [H|H]; [exact H|].
      apply ltb_nonneg in H; [congruence|exact Hci|exact Hdn]. }
    assert (Hdpos : (0 < f64_value draw)%R).
    { destruct (Rle_lt_or_eq_dec _ _ (nonneg_sf_val _ Hdn)) as [H|H]; [exact H|].
      assert ((draw =? 0)%float = true)
        by (apply eqb_nonneg; [exact Hdn|exact nonneg_sf_zero_float|rewrite f64_value_zero; auto]).
      congruence. }
    split; [reflexivity|]; split; [lia|]; split; [apply leb_nonneg; assumption|].
    split; [exact Hb|].
    destruct ((nth i w 0 =? 0)%float) eqn:Ew; [exfalso|reflexivity].
    apply eqb_nonneg in Ew; [|exact Hwi|exact nonneg_sf_zero_float]; rewrite f64_value_zero in Ew.
    destruct i as [|i'].
    + rewrite (cdf_nth_0 w d Hnew) in Hge; lra.
    + pose proof (Hb i' ltac:(lia)) as Hlt.
      destruct (Hcf i' Hfin ltac:(lia)) as [Hpi _].
      apply ltb_nonneg in Hlt; [|exact Hpi|exact Hdn].
      pose proof (add_nonneg _ _ Hpi Hwi) as Hadd.
      rewrite <- (cdf_nth_S w d Hnew i' ltac:(lia)) in Hadd.
      rewrite Ew, Rplus_0_r in Hadd.
      destruct (rnd_exact_val _ _ Hpi Hadd) as [_ Hv].
      unfold f64_value in *; lra.
Qed.

(** C7 (counterexample): with weights [[2^1023, 2^1023]] the total
    [cdf[1]] overflows to [+inf]; then [cdf(1.0) = inf / inf = NaN] while
    [cdf(2.0) = 1.0], and [NaN <= 1.0] is false although [1 <= 2]. *)
Lemma cdf_not_monotone_counterexample :
  exists d a b, new [0x1p1023; 0x1p1023]%float = Ok d /\
    ((0 <=? 1) && (1 <=? 2) && (2 <=? usize_as_f64 2))%float = true /\
    cdf_at d 1%float = Ret a /\ cdf_at d 2%float = Ret b /\ (a <=? b)%float = false.
Proof.
  do 3 eexists; split; [vm_compute; reflexivity|].
  split; [vm_compute; reflexivity|].
  split; [vm_compute; reflexivity|].
  split; [vm_compute; reflexivity|].
  vm_compute; reflexivity.
Qed.

(** C7 (amended): for a constructed distribution with [k] categories whose
    total [cdf[k-1]] is finite, [cdf(k) = 1.0] exactly, and [cdf] is
    non-decreasing on [[0, k]]: for [0 <= x <= y <= k] both [cdf(x)] and
    [cdf(y)] return, and [cdf(x) <= cdf(y)]. *)
Theorem cdf_monotone_finite_total (w : list float) (d : Categorical) :
  new w = Ok d -> is_finite (cdf_max d) = true -> (Z.of_nat (length w) <= usize_max)%Z ->
  cdf_at d (usize_as_f64 (length w)) = Ret 1%float /\
  (forall x y : float,
     ((0 <=? x) && (x <=? y) && (y <=? usize_as_f64 (length w)))%float = true ->
     exists a b, cdf_at d x = Ret a /\ cdf_at d y = Ret b /\ (a <=? b)%float = true).
Proof.
  intros Hnew Hfin Hn.
  pose proof (cdf_length w d Hnew) as Hlen.
  pose proof (usize_as_f64_finite _ Hn) as HK.
  assert (Hn' : (Z.of_nat (length (cdf d)) <= usize_max)%Z) by (rewrite Hlen; exact Hn).
  assert (HKv : (0 <= f64_value (usize_as_f64 (length w)))%R) by (apply nonneg_sf_val; exact HK).
  split.
  { unfold cdf_at; cbv zeta; rewrite Hlen.
    assert (H0 : (0 <=? usize_as_f64 (length w))%float = true)
      by (apply leb_nonneg; [exact nonneg_sf_zero_float|exact HK|rewrite f64_value_zero; exact HKv]).
    assert (H1 : (usize_as_f64 (length w) <=? usize_as_f64 (length w))%float = true)
      by (apply leb_nonneg; [exact HK|exact HK|lra]).
    assert (H2 : (usize_as_f64 (length w) =? usize_as_f64 (length w))%float = true)
      by (apply eqb_nonneg; [exact HK|exact HK|reflexivity]).
    rewrite H0, H1, H2; reflexivity. }
  intros x y Hxy.
  apply andb_prop in Hxy as [Hxy HyK]; apply andb_prop in Hxy as [H0x Hxy].
  destruct (leb_zero_cases x H0x) as [Hx|Hxi].
  2:{ assert (Hyi : Prim2SF y = S754_infinity false).
      { rewrite FloatAxioms.leb_spec, Hxi in Hxy.
        destruct (Prim2SF y) as [s|[|]| |[] m e]; unfold SFleb in Hxy; simpl in Hxy;
          try discriminate; reflexivity. }
      rewrite (inf_not_leb _ _ Hyi HK) in HyK; discriminate. }
  destruct (leb_from_nonneg _ _ Hx Hxy) as [Hy|Hyi];
    [|rewrite (inf_not_leb _ _ Hyi HK) in HyK; discriminate].
  apply leb_nonneg in Hxy; [|exact Hx|exact Hy].
  apply leb_nonneg in HyK; [|exact Hy|exact HK].
  (* [cdf(z)] is [1.0] at [k] and [cdf[floor z] / cdf[k-1]] below it *)
  assert (Hval : forall z : float, nonneg_sf (Prim2SF z) ->
            (f64_value z <= f64_value (usize_as_f64 (length w)))%R ->
            (f64_value z = f64_value (usize_as_f64 (length w)) /\ cdf_at d z = Ret 1%float) \/
            ((f64_value z < f64_value (usize_as_f64 (length w)))%R /\
             f64_as_usize z < length w /\
             (INR (f64_as_usize z) <= f64_value z < INR (f64_as_usize z) + 1)%R /\
             cdf_at d z = Ret (nth (f64_as_usize z) (cdf d) 0 / cdf_max d)%float)).
  { intros z Hz Hle; destruct (Rle_lt_or_eq_dec _ _ Hle) as [Hlt|Heq].
    - right; split; [exact Hlt|]; rewrite <- Hlen in Hlt |- *.
      exact (cdf_at_below d z Hn' Hz Hlt).
    - left; split; [exact Heq|].
      assert (H0 : (0 <=? z)%float = true)
        by (apply leb_nonneg; [exact nonneg_sf_zero_float|exact Hz|
                               rewrite f64_value_zero; apply nonneg_sf_val; exact Hz]).
      assert (H1 : (z <=? usize_as_f64 (length w))%float = true)
        by (apply leb_nonneg; [exact Hz|exact HK|lra]).
      assert (H2 : (z =? usize_as_f64 (length w))%float = true)
        by (apply eqb_nonneg; [exact Hz|exact HK|exact Heq]).
      unfold cdf_at; cbv zeta; rewrite Hlen, H0, H1, H2; reflexivity. }
  destruct (Hval y Hy HyK) as [(Hye & Hcy)|(Hylt & Hiy & Hfy & Hcy)].
  - destruct (Hval x Hx ltac:(lra)) as [(_ & Hcx)|(_ & Hix & _ & Hcx)].
    + exists 1%float, 1%float; split; [exact Hcx|split; [exact Hcy|reflexivity]].
    + eexists; exists 1%float; split; [exact Hcx|split; [exact Hcy|]].
      apply (quot_le_one w d Hnew Hfin); exact Hix.
  - destruct (Hval x Hx ltac:(lra)) as [(Hxe & _)|(_ & Hix & Hfx & Hcx)]; [lra|].
    eexists; eexists; split; [exact Hcx|split; [exact Hcy|]].
    apply (quot_mono w d Hnew Hfin); [|exact Hiy].
    assert (Hlt : (INR (f64_as_usize x) < INR (S (f64_as_usize y)))%R) by (rewrite S_INR; lra).
    apply INR_lt in Hlt; lia.
Qed.

(** C9 (counterexample): rescaling [[1, 1, 3]] by [c = 0.1] (the binary64
    number nearest to it) changes the mean: [1.3999999999999999] for the
    original weights, [1.4000000000000001] for the rescaled ones. *)
Lemma mean_scale_counterexample :
  exists d d', new [1; 1; 3]%float = Ok d /\
    new (map (fun x => (0x1.999999999999ap-4 * x)%float) [1; 1; 3]%float) = Ok d' /\
    (0 <? 0x1.999999999999ap-4)%float = true /\
    (mean d' =? mean d)%float = false.
Proof.
  do 2 eexists; split; [vm_compute; reflexivity|].
  split; [vm_compute; reflexivity|].
  split; vm_compute; reflexivity.
Qed.

(** C9 (amended): rescaling the weights by a power of two [c = 2^k] leaves
    [norm_pmf], and so [mean()], exactly unchanged, provided the totals of
    both distributions are finite and every non-zero weight [w] has [w] and
    [c * w] in the normal range (at least [2^-1022]). *)
Theorem mean_scale_pow2 (w : list float) (c : float) (k : Z) (d d' : Categorical) :
  new w = Ok d -> new (map (fun x => (c * x)%float) w) = Ok d' ->
  nonneg_sf (Prim2SF c) -> f64_value c = bpow k ->
  is_finite (cdf_max d) = true -> is_finite (cdf_max d') = true ->
  (forall j, j < length w ->
     f64_value (nth j w 0%float) = 0%R \/
     (bpow (-1022) <= f64_value (nth j w 0%float) /\
      bpow (-1022) <= f64_value c * f64_value (nth j w 0%float))%R) ->
  norm_pmf d' = norm_pmf d /\ mean d' = mean d.
Proof.
  intros Hnew Hnew' Hc Hck Hfin Hfin' Hrange.
  pose proof (scaled_norm_pmf w c k d d' Hnew Hnew' Hc Hck Hfin Hfin' Hrange) as H.
  split; [exact H|unfold mean; rewrite H; reflexivity].
Qed.

(** C6: on a constructed distribution with [k] categories, [cdf(x)] fails
    its [assert!] (a panic, not a returned value) whenever [x < 0] or
    [x > k]. *)
Theorem cdf_panics_outside_support (w : list float) (d : Categorical) (x : float) :
  new w = Ok d ->
  (x <? 0)%float = true \/ (usize_as_f64 (length w) <? x)%float = true ->
  cdf_at d x = Panic.
Proof.
  intros H Hx; destruct (new_ok_shape w d H) as (_ & Hc & _).
  unfold cdf_at; rewrite Hc, length_map, length_seq.
  destruct Hx as [Hx|Hx].
  - now rewrite (ltb_leb_false 0 x Hx).
  - now rewrite (ltb_leb_false x _ Hx), andb_false_r.
Qed.

(** C8: [mean()] is [sum over i of i * norm_pmf[i]] accumulated from index
    [0] upward; on [[0.0, 0.25, 0.5, 0.25]] it is [2.0] and on
    [[0.75, 0.25]] it is [0.25]. *)
Theorem mean_in_index_order :
  (forall d, mean d = mean_by_index d) /\
  (exists d, new [0; 0.25; 0.5; 0.25]%float = Ok d /\ mean d = 2%float) /\
  (exists d, new [0.75; 0.25]%float = Ok d /\ mean d = 0.25%float).
Proof.
  split; [exact mean_eq_by_index|].
  split; eexists; split; vm_compute; reflexivity.
Qed.

(** C10: no method changes the receiver's fields. Each of [Sample::sample]
    (receiver [&mut self]), [IndependentSample::ind_sample],
    [Distribution::sample], [Univariate::cdf], [Mean::mean], [Min::min] and
    [Max::max], run statement by statement in the memory made of [*self] and
    its local variables, either aborts or returns with [norm_pmf] and [cdf]
    exactly as they were, whatever the memory it starts in; the loops write
    only the locals [idx] and [el]. The values these runs return are those
    of the functions [Distribution_sample], [cdf_at], [mean], [min] and
    [max] that the other claims are about. *)
Theorem sample_mut_leaves_fields {R : Type} `{Rng R} (r : R) (x : float) :
  leaves_fields (Sample_sample_st r) /\
  leaves_fields (IndependentSample_ind_sample_st r) /\
  leaves_fields (Distribution_sample_st r) /\
  leaves_fields (cdf_st x) /\ leaves_fields mean_st /\
  leaves_fields min_st /\ leaves_fields max_st /\
  (forall m, run (Sample_sample_st r) m =
             outcome_map (fun v => (v, snd (Distribution_sample (m_self m) r)))
               (fst (Distribution_sample (m_self m) r))) /\
  (forall m, run (cdf_st x) m = cdf_at (m_self m) x) /\
  (forall m, run mean_st m = Ret (mean (m_self m))) /\
  (forall m, run min_st m = Ret (min (m_self m))) /\
  (forall m, run max_st m = Ret (max (m_self m))).
Proof.
  assert (Hs : leaves_fields (Distribution_sample_st r))
    by exact (leaves_Distribution_sample_st r).
  split; [exact Hs|]. split; [exact Hs|]. split; [exact Hs|].
  split; [exact (leaves_cdf_st x)|]. split; [exact leaves_mean_st|].
  split; [exact leaves_min_st|]. split; [exact leaves_max_st|].
  split; [exact (Distribution_sample_st_run r)|].
  split; [exact (cdf_st_run x)|]. split; [exact mean_st_run|].
  split; [exact min_st_run | exact max_st_run].
Qed.


(* ------------------------------------------------------------------ *)
(** ** Witnesses: the claims' hypotheses hold at concrete inputs *)

Lemma new_cumulative_and_mass_witness :
  exists d, new [0.5; 0; 1.5]%float = Ok d /\
  length (cdf d) = 3 /\ length (norm_pmf d) = 3 /\
  (forall i, i < 3 -> nth_error (cdf d) i = Some (left_sum (firstn (S i) [0.5; 0; 1.5]%float))) /\
  (forall i, i < 3 ->
     nth_error (norm_pmf d) i = Some (nth i [0.5; 0; 1.5] 0 / nth (3 - 1) (cdf d) 0)%float).
Proof.
  eexists; split; [vm_compute; reflexivity|].
  apply (new_cumulative_and_mass [0.5; 0; 1.5]%float); vm_compute; reflexivity.
Defined.

Lemma new_error_iff_witness :
  [4; 0; 1]%float <> [] /\ Forall (fun x => (0 <=? x)%float = true) [4; 0; 1]%float /\
  Exists (fun x => (x =? 0)%float = false) [4; 0; 1]%float /\
  exists d, new [4; 0; 1]%float = Ok d.
Proof.
  assert (H1 : [4; 0; 1]%float <> []) by discriminate.
  assert (H2 : Forall (fun x => (0 <=? x)%float = true) [4; 0; 1]%float)
    by (repeat constructor).
  assert (H3 : Exists (fun x => (x =? 0)%float = false) [4; 0; 1]%float)
    by (apply Exists_cons_hd; vm_compute; reflexivity).
  split; [exact H1|]; split; [exact H2|]; split; [exact H3|].
  exact (proj2 (new_error_iff [4; 0; 1]%float) H1 H2 H3).
Defined.

Lemma cdf_panics_outside_support_witness :
  exists d, new [4; 2.5; 2.5; 1]%float = Ok d /\
  cdf_at d (-1)%float = Panic /\ cdf_at d 4.5%float = Panic.
Proof.
  eexists; split; [vm_compute; reflexivity|]; split.
  - apply (cdf_panics_outside_support [4; 2.5; 2.5; 1]%float); [vm_compute; reflexivity|].
    left; vm_compute; reflexivity.
  - apply (cdf_panics_outside_support [4; 2.5; 2.5; 1]%float); [vm_compute; reflexivity|].
    right; vm_compute; reflexivity.
Defined.

Lemma cdf_floor_formula_witness :
  exists d, new [4; 2.5; 2.5; 1]%float = Ok d /\ (Z.of_nat 4 <= usize_max)%Z /\
  (forall x : float,
     ((0 <=? x) && (x <=? usize_as_f64 4))%float = true ->
     ((x =? usize_as_f64 4)%float = true -> cdf_at d x = Ret 1%float) /\
     ((x =? usize_as_f64 4)%float = false ->
      exists i : nat, (INR i <= f64_value x < INR i + 1)%R /\ i < 4 /\
        cdf_at d x = Ret (nth i (cdf d) 0 / nth (4 - 1) (cdf d) 0)%float)) /\
  (forall (i : nat) (x : float), i < 4 -> (INR i < f64_value x < INR i + 1)%R ->
     cdf_at d x = cdf_at d (usize_as_f64 i)).
Proof.
  eexists; split; [vm_compute; reflexivity|].
  split; [unfold usize_max; lia|].
  apply (cdf_floor_formula [4; 2.5; 2.5; 1]%float); [vm_compute; reflexivity|unfold usize_max; simpl; lia].
Defined.

Lemma sample_first_nonzero_index_witness :
  exists d, new [0; 3; 1]%float = Ok d /\ is_finite (cdf_max d) = true /\
  ((0 <=? 0) && (0 <? 1))%float = true /\
  exists i, sample_index d 0%float = Ret i /\ i < 3 /\
    (0 * cdf_max d <=? nth i (cdf d) 0)%float = true /\
    (if (0 * cdf_max d =? 0)%float
     then forall j, j < i -> (nth j [0; 3; 1]%float 0 =? 0)%float = true
     else forall j, j < i -> (nth j (cdf d) 0 <? 0 * cdf_max d)%float = true) /\
    (nth i [0; 3; 1]%float 0 =? 0)%float = false.
Proof.
  eexists; split; [vm_compute; reflexivity|].
  split; [vm_compute; reflexivity|]; split; [vm_compute; reflexivity|].
  apply (sample_first_nonzero_index [0; 3; 1]%float); vm_compute; reflexivity.
Defined.

Lemma sample_in_bounds_witness :
  exists d, new [1; 2; 3]%float = Ok d /\
  (forall u : float, ((0 <=? u) && (u <? 1))%float = true ->
     exists i, sample_index d u = Ret i /\ i < 3) /\
  (forall (R : Type) (RR : Rng R) (r : R),
     ((0 <=? fst (next_f64 r)) && (fst (next_f64 r) <? 1))%float = true ->
     exists i, fst (Distribution_sample d r) = Ret (usize_as_f64 i) /\ i < 3).
Proof.
  eexists; split; [vm_compute; reflexivity|].
  apply (sample_in_bounds [1; 2; 3]%float); vm_compute; reflexivity.
Defined.

Lemma cdf_monotone_finite_total_witness :
  exists d, new [4; 2.5; 2.5; 1]%float = Ok d /\ is_finite (cdf_max d) = true /\
  (Z.of_nat 4 <= usize_max)%Z /\
  cdf_at d (usize_as_f64 4) = Ret 1%float /\
  (forall x y : float,
     ((0 <=? x) && (x <=? y) && (y <=? usize_as_f64 4))%float = true ->
     exists a b, cdf_at d x = Ret a /\ cdf_at d y = Ret b /\ (a <=? b)%float = true).
Proof.
  eexists; split; [vm_compute; reflexivity|].
  split; [vm_compute; reflexivity|]; split; [unfold usize_max; lia|].
  apply (cdf_monotone_finite_total [4; 2.5; 2.5; 1]%float);
    [vm_compute; reflexivity|vm_compute; reflexivity|unfold usize_max; simpl; lia].
Defined.

Lemma mean_scale_pow2_witness :
  exists d d', new [1; 1; 3]%float = Ok d /\
  new (map (fun x => (2 * x)%float) [1; 1; 3]%float) = Ok d' /\
  is_finite (cdf_max d) = true /\ is_finite (cdf_max d') = true /\
  norm_pmf d' = norm_pmf d /\ mean d' = mean d.
Proof.
  do 2 eexists; split; [vm_compute; reflexivity|]; split; [vm_compute; reflexivity|].
  split; [vm_compute; reflexivity|]; split; [vm_compute; reflexivity|].
  assert (Hn : forall x : float, (bpow (-1022) <= f64_value x)%R ->
            (bpow (-1022) <= f64_value x /\ bpow (-1022) <= f64_value 2%float * f64_value x)%R).
  { intros x Hx; rewrite f64_value_two, bpow_1; pose proof (bpow_pos (-1022)); split; lra. }
  apply (mean_scale_pow2 [1; 1; 3]%float 2%float 1%Z);
    [vm_compute; reflexivity|vm_compute; reflexivity|exact nonneg_sf_two|exact f64_value_two
    |vm_compute; reflexivity|vm_compute; reflexivity|].
  intros j Hj; right; destruct j as [|[|[|j]]]; [| | |simpl in Hj; lia]; simpl nth; apply Hn.
  - apply (normal_weight _ 4503599627370496 (-52)); [reflexivity|lia].
  - apply (normal_weight _ 4503599627370496 (-52)); [reflexivity|lia].
  - apply (normal_weight _ 6755399441055744 (-51)); [reflexivity|lia].
Defined.

(* ================================================================== *)
(** ** Further properties of the code *)

(** [new] builds [cdf] and [norm_pmf] with one entry per weight, and
    [max()] is [k - 1] for [k] weights, never below [min() = 0]: the
    subtraction [len() - 1] in [max] does not underflow. *)
Theorem new_shape_and_support (w : list float) (d : Categorical) :
  new w = Ok d ->
  length (cdf d) = length w /\ length (norm_pmf d) = length w /\
  max d = (Z.of_nat (length w) - 1)%Z /\ (min d <= max d)%Z.
Proof.
  intros Hnew; pose proof (weights_nonempty w d Hnew) as Hne.
  pose proof (cdf_length w d Hnew) as Hc; pose proof (norm_pmf_length w d Hnew) as Hp.
  unfold max, min; rewrite Hc; split; [reflexivity|split; [exact Hp|split; [reflexivity|lia]]].
Qed.

(** The total [cdf[k-1]] that [new] divides every weight by, and that
    [sample] and [cdf] use, is strictly positive (a positive number or
    [+inf]): no division by zero. *)
Theorem new_total_positive (w : list float) (d : Categorical) :
  new w = Ok d -> (0 <? cdf_max d)%float = true.
Proof.
  intros Hnew; rewrite FloatAxioms.ltb_spec, Prim2SF_zero.
  destruct (total_cases w d Hnew) as [(m & e & ->)| ->]; reflexivity.
Qed.

(** The cumulative array built by [new] is sorted: [cdf[i] <= cdf[j]] for
    [i <= j < k], also when the running sum overflows to [+inf]. *)
Theorem new_cumulative_sorted (w : list float) (d : Categorical) (i j : nat) :
  new w = Ok d -> i <= j -> j < length w ->
  (nth i (cdf d) 0 <=? nth j (cdf d) 0)%float = true.
Proof.
  intros Hnew Hij Hj.
  destruct (cum_mono w d Hnew i j Hij Hj) as [Hinf|(Hi & Hjn & Hle)].
  - rewrite FloatAxioms.leb_spec, Hinf.
    destruct (cum_nonneg w d Hnew i ltac:(lia)) as [Hi| ->]; [|reflexivity].
    destruct (Prim2SF (nth i (cdf d) 0%float)) as [s|s| |[] m e]; simpl in Hi; try contradiction;
      reflexivity.
  - apply leb_nonneg; assumption.
Qed.

(** With a finite total, every entry of [norm_pmf] lies in [[0, 1]]. *)
Theorem norm_pmf_in_unit_interval (w : list float) (d : Categorical) (j : nat) :
  new w = Ok d -> is_finite (cdf_max d) = true -> j < length w ->
  ((0 <=? nth j (norm_pmf d) 0) && (nth j (norm_pmf d) 0 <=? 1))%float = true.
Proof.
  intros Hnew Hfin Hj; destruct (norm_pmf_le_one w d Hnew Hfin j Hj) as [Hn Hle].
  apply andb_true_intro; split.
  - apply leb_nonneg; [exact nonneg_sf_zero_float|exact Hn|].
    rewrite f64_value_zero; apply nonneg_sf_val; exact Hn.
  - apply leb_nonneg; [exact Hn|exact nonneg_sf_one|rewrite f64_value_one; exact Hle].
Qed.

(** With a finite total (and [k <= 2^64 - 1]), [cdf(x)] returns a number in
    [[0, 1]] for every [x] in [[0, k]]. *)
Theorem cdf_in_unit_interval (w : list float) (d : Categorical) (x : float) :
  new w = Ok d -> is_finite (cdf_max d) = true -> (Z.of_nat (length w) <= usize_max)%Z ->
  ((0 <=? x) && (x <=? usize_as_f64 (length w)))%float = true ->
  exists a, cdf_at d x = Ret a /\ ((0 <=? a) && (a <=? 1))%float = true.
Proof.
  intros Hnew Hfin Hn Hx.
  pose proof (cdf_length w d Hnew) as Hlen.
  pose proof (usize_as_f64_finite _ Hn) as HK.
  destruct (between_nonneg _ _ _ nonneg_sf_zero_float HK Hx) as [Hxn [_ HxK]].
  rewrite <- Hlen in Hn, HxK.
  destruct (cdf_at_cases d x Hn Hxn HxK) as [(_ & ->)|(_ & Hi & _ & ->)];
    [exists 1%float; split; reflexivity|].
  rewrite Hlen in Hi; destruct (quot_le_one w d Hnew Hfin _ Hi) as [Hq Hq1].
  eexists; split; [reflexivity|]; apply andb_true_intro; split; [|exact Hq1].
  apply leb_nonneg; [exact nonneg_sf_zero_float|exact Hq|].
  rewrite f64_value_zero; apply nonneg_sf_val; exact Hq.
Qed.

(** With a finite total and [k <= 2^53], [cdf(x)] is exactly [1.0] for
    every [x] in [[k-1, k]]: [cdf[k-1] / cdf[k-1]] rounds to [1.0]. *)
Theorem cdf_one_on_last_category (w : list float) (d : Categorical) (x : float) :
  new w = Ok d -> is_finite (cdf_max d) = true -> (Z.of_nat (length w) <= 2 ^ 53)%Z ->
  ((usize_as_f64 (length w - 1) <=? x) && (x <=? usize_as_f64 (length w)))%float = true ->
  cdf_at d x = Ret 1%float.
Proof.
  intros Hnew Hfin Hn Hx.
  pose proof (weights_nonempty w d Hnew) as Hne.
  pose proof (cdf_length w d Hnew) as Hlen.
  destruct (usize_as_f64_exact (length w - 1) ltac:(lia)) as [HK1 HK1v].
  destruct (usize_as_f64_exact (length w) Hn) as [HK HKv].
  destruct (between_nonneg _ _ _ HK1 HK Hx) as [Hxn [Hlo HxK]].
  assert (Hn' : (Z.of_nat (length (cdf d)) <= usize_max)%Z) by (rewrite Hlen; unfold usize_max; lia).
  rewrite <- Hlen in HxK.
  destruct (cdf_at_cases d x Hn' Hxn HxK) as [(_ & ->)|(_ & Hi & Hfl & ->)]; [reflexivity|].
  rewrite Hlen in Hi.
  assert (Hk : f64_as_usize x = length w - 1).
  { rewrite HK1v in Hlo.
    assert (Hlt : (INR (length w - 1) < INR (S (f64_as_usize x)))%R) by (rewrite S_INR; lra).
    apply INR_lt in Hlt; lia. }
  rewrite Hk, <- (cdf_max_last w d Hnew), (total_div_total w d Hnew Hfin); reflexivity.
Qed.

(** With a finite total, [sample] is monotone in the uniform value: for
    [0 <= u1 <= u2 < 1] the index drawn from [u1] is at most the index drawn
    from [u2]. *)
Theorem sample_monotone_in_u (w : list float) (d : Categorical) (u1 u2 : float) :
  new w = Ok d -> is_finite (cdf_max d) = true ->
  ((0 <=? u1) && (u1 <? 1))%float = true -> ((0 <=? u2) && (u2 <? 1))%float = true ->
  (u1 <=? u2)%float = true ->
  exists i1 i2, sample_index d u1 = Ret i1 /\ sample_index d u2 = Ret i2 /\ i1 <= i2.
Proof.
  intros Hnew Hfin Hu1 Hu2 H12.
  pose proof (weights_nonempty w d Hnew) as Hne.
  assert (HS : nonneg_sf (Prim2SF (cdf_max d)))
    by (rewrite (cdf_max_last w d Hnew); apply (cum_finite w d Hnew (length w - 1) Hfin); lia).
  destruct (unit_cases u1 Hu1) as [N1 [_ L1]]; destruct (unit_cases u2 Hu2) as [N2 [_ L2]].
  apply leb_nonneg in H12; [|exact N1|exact N2].
  destruct (draw_mono u1 u2 (cdf_max d) N1 N2 HS ltac:(lra)) as (_ & _ & Hd).
  destruct (sample_index_char w d Hnew Hfin u1 Hu1) as (i1 & E1 & _ & _ & _ & B1).
  destruct (sample_index_char w d Hnew Hfin u2 Hu2) as (i2 & E2 & _ & A2 & P2 & _).
  exists i1, i2; split; [exact E1|split; [exact E2|]].
  destruct (Nat.le_gt_cases i1 i2) as [H|H]; [exact H|exfalso].
  destruct (B1 i2 H) as [Z|Lt]; lra.
Qed.

(** Appending a zero weight to an accepted weight list (with fewer than
    [2^64 - 1] entries) adds the total as the last cumulative entry and
    [0.0] as the last mass, leaves the other entries as they are, and does
    not change [mean()]. *)
Theorem new_append_zero_weight (w : list float) (d : Categorical) :
  new w = Ok d -> (Z.of_nat (length w) <= usize_max)%Z ->
  exists d', new (w ++ [0%float]) = Ok d' /\ cdf d' = cdf d ++ [cdf_max d] /\
    norm_pmf d' = norm_pmf d ++ [0%float] /\ mean d' = mean d.
Proof.
  intros Hnew Hn.
  pose proof (weights_nonempty w d Hnew) as Hne.
  destruct (new_ok_shape w d Hnew) as (Hv & Hc & Hp).
  destruct (new_ok_valid (w ++ [0%float]) (valid_snoc_zero w Hv)) as [d' Hd'].
  exists d'; split; [exact Hd'|].
  destruct (new_ok_shape _ _ Hd') as (_ & Hc' & Hp').
  pose proof (total_cases w d Hnew) as HT.
  assert (HS0 : left_sum (w ++ [0%float]) = cdf_max d).
  { rewrite left_sum_snoc by (destruct w; [simpl in Hne; lia|discriminate]).
    rewrite (left_sum_total w d Hnew); apply total_plus_zero; exact HT. }
  assert (Hcd : cdf d' = cdf d ++ [cdf_max d]).
  { rewrite Hc', Hc, length_app, seq_app, map_app; f_equal.
    - apply map_ext_in; intros i Hi; apply in_seq in Hi; apply prefix_sum_app_lt; lia.
    - simpl; unfold prefix_sum; rewrite firstn_all2 by (rewrite length_app; simpl; lia).
      rewrite HS0; reflexivity. }
  assert (Hpd : norm_pmf d' = norm_pmf d ++ [0%float]).
  { rewrite Hp', Hp, HS0, (left_sum_total w d Hnew), length_app, seq_app, map_app; f_equal.
    - apply map_ext_in; intros i Hi; apply in_seq in Hi; rewrite app_nth1 by lia; reflexivity.
    - simpl; rewrite app_nth2, Nat.sub_diag by lia; simpl.
      rewrite zero_div_total by exact HT; reflexivity. }
  split; [exact Hcd|split; [exact Hpd|]].
  pose proof (norm_pmf_length w d Hnew) as Hpl.
  unfold mean; rewrite Hpd, length_app; simpl (length [0%float]).
  rewrite Nat.add_1_r, seq_S, combine_snoc by (rewrite length_seq; reflexivity).
  rewrite fold_left_app; simpl.
  change (fold_left _ _ 0%float) with (mean d).
  rewrite Hpl, usize_mul_zero by lia.
  apply acc_plus_zero, (mean_acc_sign w d Hnew).
Qed.

(** Under the hypotheses of the power-of-two rescaling of [mean], [cdf] is
    unchanged too: [cdf(x)] of the rescaled distribution equals [cdf(x)] of
    the original one for every [x], panics included. *)
Theorem cdf_scale_pow2 (w : list float) (c : float) (k : Z) (d d' : Categorical) :
  new w = Ok d -> new (map (fun x => (c * x)%float) w) = Ok d' ->
  nonneg_sf (Prim2SF c) -> f64_value c = bpow k ->
  is_finite (cdf_max d) = true -> is_finite (cdf_max d') = true ->
  (forall j, j < length w ->
     f64_value (nth j w 0%float) = 0%R \/
     (bpow (-1022) <= f64_value (nth j w 0%float) /\
      bpow (-1022) <= f64_value c * f64_value (nth j w 0%float))%R) ->
  forall x, cdf_at d' x = cdf_at d x.
Proof.
  intros Hnew Hnew' Hc Hck Hfin Hfin' Hrange x.
  pose proof (cdf_length w d Hnew) as Hl.
  pose proof (cdf_length _ d' Hnew') as Hl'; rewrite length_map in Hl'.
  assert (Hq : forall j, j < length w ->
            (nth j (cdf d') 0 / cdf_max d')%float = (nth j (cdf d) 0 / cdf_max d)%float).
  { intros j Hj; apply FloatAxioms.Prim2SF_inj.
    destruct (scaled_cum w c k d d' Hnew Hnew' Hc Hck Hfin Hfin' Hrange j Hj) as [Hs _].
    rewrite !FloatAxioms.div_spec, Hs, (scaled_total w c k d d' Hnew Hnew' Hc Hck Hfin Hfin' Hrange).
    unfold SF64div.
    destruct (total_finite_pos w d Hnew Hfin) as (mS & eS & ->).
    destruct (cum_finite w d Hnew j Hfin Hj) as [Hcj _].
    destruct (Prim2SF (nth j (cdf d) 0%float)) as [s|s| |[] m e]; cbv beta iota delta [nonneg_sf] in Hcj;
      try contradiction; [reflexivity|].
    cbn [shift_sf]; cbv beta iota delta [SFdiv]; rewrite div_core_shift; reflexivity. }
  unfold cdf_at; rewrite Hl, Hl'.
  destruct (negb _); [reflexivity|]; destruct (_ =? _)%float; [reflexivity|].
  destruct (Nat.lt_ge_cases (f64_as_usize x) (length w)) as [Hi|Hi].
  - rewrite (nth_error_nth' (cdf d') 0%float) by lia; rewrite (nth_error_nth' (cdf d) 0%float) by lia.
    rewrite Hq by exact Hi; reflexivity.
  - rewrite (proj2 (nth_error_None (cdf d') _)) by lia.
    rewrite (proj2 (nth_error_None (cdf d) _)) by lia; reflexivity.
Qed.

(** With a finite total (and [k <= 2^64 - 1]), [mean()] is non-negative (in
    particular not NaN). *)
Theorem mean_nonneg (w : list float) (d : Categorical) :
  new w = Ok d -> is_finite (cdf_max d) = true -> (Z.of_nat (length w) <= usize_max)%Z ->
  (0 <=? mean d)%float = true.
Proof.
  intros Hnew Hfin Hn.
  rewrite mean_eq_by_index; unfold mean_by_index; rewrite (norm_pmf_length w d Hnew).
  assert (Hgen : forall l acc,
            nonneg_sf (Prim2SF acc) \/ Prim2SF acc = S754_infinity false ->
            (forall i, In i l -> i < length w) ->
            let r := fold_left (fun acc i => (acc + usize_as_f64 i * nth i (norm_pmf d) 0)%float) l acc in
            nonneg_sf (Prim2SF r) \/ Prim2SF r = S754_infinity false).
  { induction l as [|i l IH]; intros acc Ha Hl; [exact Ha|simpl].
    apply IH; [|intros j Hj; apply Hl; right; exact Hj].
    assert (Hi : i < length w) by (apply Hl; left; reflexivity).
    pose proof (usize_as_f64_finite i ltac:(lia)) as Hu.
    destruct (norm_pmf_le_one w d Hnew Hfin i Hi) as [Hp _].
    destruct (rnd_cases _ _ (mul_nonneg _ _ Hu Hp)) as [Ht|Ht].
    - destruct Ha as [Ha|Ha]; [apply (rnd_cases _ _ (add_nonneg _ _ Ha Ht))|].
      right; apply add_inf_l; [exact Ha|left; exact Ht].
    - right; destruct Ha as [Ha|Ha]; [apply add_inf_r; [left; exact Ha|exact Ht]|].
      apply add_inf_l; [exact Ha|right; exact Ht]. }
  destruct (Hgen (seq 0 (length w)) 0%float (or_introl nonneg_sf_zero_float)
              ltac:(intros i Hi; apply in_seq in Hi; lia)) as [Hm|Hm]; cbv zeta in Hm.
  - apply leb_nonneg; [exact nonneg_sf_zero_float|exact Hm|].
    rewrite f64_value_zero; apply nonneg_sf_val; exact Hm.
  - rewrite FloatAxioms.leb_spec, Hm; reflexivity.
Qed.

Lemma new_shape_and_support_witness :
  exists d, new [4; 2.5; 2.5; 1]%float = Ok d /\
  length (cdf d) = 4 /\ length (norm_pmf d) = 4 /\ max d = (Z.of_nat 4 - 1)%Z /\ (min d <= max d)%Z.
Proof.
  eexists; split; [vm_compute; reflexivity|].
  apply (new_shape_and_support [4; 2.5; 2.5; 1]%float); vm_compute; reflexivity.
Defined.

Lemma new_total_positive_witness :
  exists d, new [0; 3; 1]%float = Ok d /\ (0 <? cdf_max d)%float = true.
Proof.
  eexists; split; [vm_compute; reflexivity|].
  apply (new_total_positive [0; 3; 1]%float); vm_compute; reflexivity.
Defined.

Lemma new_cumulative_sorted_witness :
  exists d, new [4; 2.5; 2.5; 1]%float = Ok d /\ 0 <= 3 /\ 3 < 4 /\
  (nth 0 (cdf d) 0 <=? nth 3 (cdf d) 0)%float = true.
Proof.
  eexists; split; [vm_compute; reflexivity|]; split; [lia|]; split; [lia|].
  apply (new_cumulative_sorted [4; 2.5; 2.5; 1]%float); [vm_compute; reflexivity|lia|simpl; lia].
Defined.

Lemma norm_pmf_in_unit_interval_witness :
  exists d, new [4; 2.5; 2.5; 1]%float = Ok d /\ is_finite (cdf_max d) = true /\ 2 < 4 /\
  ((0 <=? nth 2 (norm_pmf d) 0) && (nth 2 (norm_pmf d) 0 <=? 1))%float = true.
Proof.
  eexists; split; [vm_compute; reflexivity|]; split; [vm_compute; reflexivity|]; split; [lia|].
  apply (norm_pmf_in_unit_interval [4; 2.5; 2.5; 1]%float);
    [vm_compute; reflexivity|vm_compute; reflexivity|simpl; lia].
Defined.

Lemma cdf_in_unit_interval_witness :
  exists d, new [4; 2.5; 2.5; 1]%float = Ok d /\ is_finite (cdf_max d) = true /\
  (Z.of_nat 4 <= usize_max)%Z /\ ((0 <=? 2.5) && (2.5 <=? usize_as_f64 4))%float = true /\
  exists a, cdf_at d 2.5%float = Ret a /\ ((0 <=? a) && (a <=? 1))%float = true.
Proof.
  eexists; split; [vm_compute; reflexivity|]; split; [vm_compute; reflexivity|].
  split; [unfold usize_max; lia|]; split; [vm_compute; reflexivity|].
  apply (cdf_in_unit_interval [4; 2.5; 2.5; 1]%float);
    [vm_compute; reflexivity|vm_compute; reflexivity|unfold usize_max; simpl; lia
    |vm_compute; reflexivity].
Defined.

Lemma cdf_one_on_last_category_witness :
  exists d, new [4; 2.5; 2.5; 1]%float = Ok d /\ is_finite (cdf_max d) = true /\
  (Z.of_nat 4 <= 2 ^ 53)%Z /\
  ((usize_as_f64 (4 - 1) <=? 3.5) && (3.5 <=? usize_as_f64 4))%float = true /\
  cdf_at d 3.5%float = Ret 1%float.
Proof.
  eexists; split; [vm_compute; reflexivity|]; split; [vm_compute; reflexivity|].
  split; [lia|]; split; [vm_compute; reflexivity|].
  apply (cdf_one_on_last_category [4; 2.5; 2.5; 1]%float);
    [vm_compute; reflexivity|vm_compute; reflexivity|simpl; lia|vm_compute; reflexivity].
Defined.

Lemma sample_monotone_in_u_witness :
  exists d, new [4; 0; 2.5; 1]%float = Ok d /\ is_finite (cdf_max d) = true /\
  ((0 <=? 0.25) && (0.25 <? 1))%float = true /\ ((0 <=? 0.5) && (0.5 <? 1))%float = true /\
  (0.25 <=? 0.5)%float = true /\
  exists i1 i2, sample_index d 0.25%float = Ret i1 /\ sample_index d 0.5%float = Ret i2 /\ i1 <= i2.
Proof.
  eexists; split; [vm_compute; reflexivity|]; split; [vm_compute; reflexivity|].
  split; [vm_compute; reflexivity|]; split; [vm_compute; reflexivity|].
  split; [vm_compute; reflexivity|].
  apply (sample_monotone_in_u [4; 0; 2.5; 1]%float); vm_compute; reflexivity.
Defined.

Lemma new_append_zero_weight_witness :
  exists d, new [4; 2.5; 2.5; 1]%float = Ok d /\ (Z.of_nat 4 <= usize_max)%Z /\
  exists d', new ([4; 2.5; 2.5; 1] ++ [0])%float = Ok d' /\ cdf d' = cdf d ++ [cdf_max d] /\
    norm_pmf d' = norm_pmf d ++ [0%float] /\ mean d' = mean d.
Proof.
  eexists; split; [vm_compute; reflexivity|]; split; [unfold usize_max; lia|].
  apply (new_append_zero_weight [4; 2.5; 2.5; 1]%float);
    [vm_compute; reflexivity|unfold usize_max; simpl; lia].
Defined.

Lemma cdf_scale_pow2_witness :
  exists d d', new [1; 1; 3]%float = Ok d /\
  new (map (fun x => (2 * x)%float) [1; 1; 3]%float) = Ok d' /\
  is_finite (cdf_max d) = true /\ is_finite (cdf_max d') = true /\
  cdf_at d' 1.5%float = cdf_at d 1.5%float.
Proof.
  do 2 eexists; split; [vm_compute; reflexivity|]; split; [vm_compute; reflexivity|].
  split; [vm_compute; reflexivity|]; split; [vm_compute; reflexivity|].
  assert (Hn : forall x : float, (bpow (-1022) <= f64_value x)%R ->
            (bpow (-1022) <= f64_value x /\ bpow (-1022) <= f64_value 2%float * f64_value x)%R).
  { intros x Hx; rewrite f64_value_two, bpow_1; pose proof (bpow_pos (-1022)); split; lra. }
  apply (cdf_scale_pow2 [1; 1; 3]%float 2%float 1%Z);
    [vm_compute; reflexivity|vm_compute; reflexivity|exact nonneg_sf_two|exact f64_value_two
    |vm_compute; reflexivity|vm_compute; reflexivity|].
  intros j Hj; right; destruct j as [|[|[|j]]]; [| | |simpl in Hj; lia]; simpl nth; apply Hn.
  - apply (normal_weight _ 4503599627370496 (-52)); [reflexivity|lia].
  - apply (normal_weight _ 4503599627370496 (-52)); [reflexivity|lia].
  - apply (normal_weight _ 6755399441055744 (-51)); [reflexivity|lia].
Defined.

Lemma mean_nonneg_witness :
  exists d, new [4; 2.5; 2.5; 1]%float = Ok d /\ is_finite (cdf_max d) = true /\
  (Z.of_nat 4 <= usize_max)%Z /\ (0 <=? mean d)%float = true.
Proof.
  eexists; split; [vm_compute; reflexivity|]; split; [vm_compute; reflexivity|].
  split; [unfold usize_max; lia|].
  apply (mean_nonneg [4; 2.5; 2.5; 1]%float);
    [vm_compute; reflexivity|vm_compute; reflexivity|unfold usize_max; simpl; lia].
Defined.
